(** * A verification development for the collection store of [src/index.ts]

    The class [Database<T>] keeps a [Map<string, T>] in memory and mirrors it,
    as one JSON string, in a dynamic property of a host object.  This file
    embeds the class in Rocq and proves the properties of its operations.

    Modelling conventions

    - A record of type [T] is a JavaScript object whose fields hold primitive
      values; numbers are integers (floating point is outside the model).
    - The JavaScript [Map] is an association list in insertion order.
    - Thrown exceptions are values of [exn]; a method is a function from the
      state to a completion ([Ok] or [Throw]) and the state at that point, so
      that what a method changed before it threw stays visible.
    - The builtins [JSON.stringify], [JSON.parse], [Math.random] and the
      string-to-number coercion are parameters of the development.
    - A validator is a total predicate on the value of its field; a
      validator that throws is outside the model. *)

From stdpp Require Import gmap strings list fin_maps pretty.
From Stdlib Require Import ZArith Lia Ascii Sorted.

Local Open Scope Z_scope.
Local Open Scope string_scope.
Local Open Scope list_scope.

(** ** Values and records *)

Inductive any : Type :=
| VUndefined
| VNull
| VBool (b : bool)
| VNum (n : Z)
| VStr (s : string).

#[global] Instance any_eq_dec : EqDecision any.
Proof. solve_decision. Defined.

(** A record is an object: a finite map from field names to values.  An
    object is truthy, so the tests [!data] and [!existingData] of the
    source hold exactly when the map has no entry for the identifier. *)
Abbreviation record := (gmap string any).

(** [data[key]]: reading a field that the object lacks gives [undefined]. *)
Definition get_field (data : record) (key : string) : any :=
  default VUndefined (data !! key).

(** [{ ...existingData, ...data }]: the fields of [data] win. *)
Definition spread (existingData data : record) : record :=
  data ∪ existingData.

(** ** The JavaScript [Map], in insertion order *)

Definition Map : Type := list (string * record).

Fixpoint Map_get (m : Map) (id : string) : option record :=
  match m with
  | [] => None
  | (k, v) :: m' => if decide (k = id) then Some v else Map_get m' id
  end.

Definition Map_has (m : Map) (id : string) : bool :=
  bool_decide (is_Some (Map_get m id)).

(** [set] overwrites in place when the key is present and appends otherwise. *)
Fixpoint Map_set (m : Map) (id : string) (v : record) : Map :=
  match m with
  | [] => [(id, v)]
  | (k, x) :: m' =>
      if decide (k = id) then (k, v) :: m' else (k, x) :: Map_set m' id v
  end.

Fixpoint Map_delete (m : Map) (id : string) : Map :=
  match m with
  | [] => []
  | (k, x) :: m' =>
      if decide (k = id) then Map_delete m' id else (k, x) :: Map_delete m' id
  end.

Definition Map_clear (m : Map) : Map := [].

(** [for (const [id, value] of entries) map.set(id, value)] *)
Definition Map_set_all (m : Map) (entries : list (string * record)) : Map :=
  foldl (λ acc e, Map_set acc e.1 e.2) m entries.

(** ** Errors (errors.ts) *)

Inductive DatabaseErrorType : Type :=
| VALIDATION_FAILED
| INVALID_COLLECTION_NAME
| STORAGE_READ_ERROR
| STORAGE_WRITE_ERROR
| SERIALIZATION_ERROR
| DOCUMENT_NOT_FOUND
| DUPLICATE_KEY
| INVALID_UPDATE
| INVALID_QUERY
| INITIALIZATION_ERROR
| IMPORT_ERROR
| EXPORT_ERROR
| UNKNOWN_ERROR.

#[global] Instance DatabaseErrorType_eq_dec : EqDecision DatabaseErrorType.
Proof. solve_decision. Defined.

(** What can be thrown: a [DatabaseError] with its tag, message and detail
    object, or any other JavaScript [Error] with its message.  The detail
    object is a list of named fields (empty when [details] is absent). *)
#[warnings="-register-all"]
Inductive exn : Type :=
| DatabaseError (type : DatabaseErrorType) (message : string)
                (details : list (string * detail))
| Error (message : string)
with detail : Type :=
| DStr (s : string)
| DNum (n : Z)
| DValue (v : any)
| DRecord (r : record)
| DArr (l : list detail)
| DObj (l : list (string * detail))
| DExn (e : exn).

(** [error instanceof DatabaseError] *)
Definition instanceof_DatabaseError (error : exn) : bool :=
  match error with DatabaseError _ _ _ => true | Error _ => false end.

(** [error.message] *)
Definition message_of (error : exn) : string :=
  match error with DatabaseError _ m _ => m | Error m => m end.

Definition type_of (error : exn) : option DatabaseErrorType :=
  match error with DatabaseError t _ _ => Some t | Error _ => None end.

(** ** Completions and the two monads *)

Inductive Result (A : Type) : Type :=
| Ok (a : A)
| Throw (error : exn).
Arguments Ok {A} a.
Arguments Throw {A} error.

#[global] Instance Result_ret : MRet Result := λ A a, Ok a.
#[global] Instance Result_bind : MBind Result := λ A B f r,
  match r with Ok a => f a | Throw e => Throw e end.

(** [try { body } catch (error) { handler }] on a pure computation. *)
Definition try_pure {A} (body : Result A) (handler : exn → Result A) : Result A :=
  match body with Ok a => Ok a | Throw e => handler e end.

(** ** String builtins used by the filter operators *)

(** [s.toLowerCase()], on the ASCII letters. *)
Definition toLowerCase_char (c : ascii) : ascii :=
  let n := nat_of_ascii c in
  if ((65 <=? n) && (n <=? 90))%nat then ascii_of_nat (n + 32) else c.

Fixpoint toLowerCase (s : string) : string :=
  match s with
  | EmptyString => EmptyString
  | String c s' => String (toLowerCase_char c) (toLowerCase s')
  end.

(** [s.startsWith(p)] *)
Definition startsWith (s p : string) : bool := String.prefix p s.

(** [s.includes(p)] *)
Fixpoint includes (s p : string) : bool :=
  startsWith s p ||
  match s with
  | EmptyString => false
  | String _ s' => includes s' p
  end.

(** [s.endsWith(p)] *)
Definition endsWith (s p : string) : bool :=
  startsWith (String.rev s) (String.rev p).

(** [String(v)] *)
Definition String_of (v : any) : string :=
  match v with
  | VUndefined => "undefined"
  | VNull => "null"
  | VBool true => "true"
  | VBool false => "false"
  | VNum n => pretty n
  | VStr s => s
  end.

(** Code-unit order on strings, as [<] uses it when both sides are strings. *)
Fixpoint string_compare (a b : string) : comparison :=
  match a, b with
  | EmptyString, EmptyString => Eq
  | EmptyString, String _ _ => Lt
  | String _ _, EmptyString => Gt
  | String x a', String y b' =>
      match Nat.compare (nat_of_ascii x) (nat_of_ascii y) with
      | Eq => string_compare a' b'
      | c => c
      end
  end.

(** ** The host object and the class *)

(** The host object behind [storageType]: its dynamic properties, and when
    [setDynamicProperty] throws (then with which message). *)
Record StorageType : Type := {
  dynamicProperties : gmap string string;
  write_error : string → string → option string
}.

Definition getDynamicProperty (st : StorageType) (name : string) : option string :=
  dynamicProperties st !! name.

Definition setDynamicProperty (st : StorageType) (name value : string)
  : Result StorageType :=
  match write_error st name value with
  | Some message => Throw (Error message)
  | None =>
      Ok {| dynamicProperties := <[name := value]> (dynamicProperties st);
            write_error := write_error st |}
  end.

(** [Object.entries(collectionValidators)]: a validator per key, in order;
    [None] is a key whose validator is missing. *)
Definition CollectionValidator : Type := list (string * option (any → bool)).

Record FilterCondition : Type := {
  field : string;
  operator : string;
  value : any
}.

(** [Object.entries(sort)]: field and direction, in order. *)
Definition SortOptions : Type := list (string * string).

Record Database : Type := {
  collectionName : string;
  storageType : StorageType;
  collectionValidators : option CollectionValidator;
  data : Map
}.

(** The state a method runs in: the object and how often [Math.random] has
    been called. *)
Record State : Type := {
  this : Database;
  random_calls : nat
}.

Definition M (A : Type) : Type := State → Result A * State.

#[global] Instance M_ret : MRet M := λ A a s, (Ok a, s).
#[global] Instance M_bind : MBind M := λ A B f m s,
  match m s with
  | (Ok a, s') => f a s'
  | (Throw e, s') => (Throw e, s')
  end.

Definition throw {A} (error : exn) : M A := λ s, (Throw error, s).

(** [try { body } catch (error) { handler }] *)
Definition try_catch {A} (body : M A) (handler : exn → M A) : M A := λ s,
  match body s with
  | (Ok a, s') => (Ok a, s')
  | (Throw e, s') => handler e s'
  end.

(** A method that only reads [this]. *)
Definition read {A} (f : Database → Result A) : M A := λ s, (f (this s), s).

Definition get_data : M Map := λ s, (Ok (data (this s)), s).

(** [this.data = m], and every update of the map in place. *)
Definition set_data (m : Map) : M unit := λ s,
  (Ok (),
   {| this := {| collectionName := collectionName (this s);
                 storageType := storageType (this s);
                 collectionValidators := collectionValidators (this s);
                 data := m |};
      random_calls := random_calls s |}).

Definition write_storage (value : string) : M unit := λ s,
  match setDynamicProperty (storageType (this s)) (collectionName (this s)) value with
  | Ok st =>
      (Ok (),
       {| this := {| collectionName := collectionName (this s);
                     storageType := st;
                     collectionValidators := collectionValidators (this s);
                     data := data (this s) |};
          random_calls := random_calls s |})
  | Throw e => (Throw e, s)
  end.

(** [list.forEach((x, index) => f(x, index))], stopping at the first throw. *)
Fixpoint forEach_from {A} (index : nat) (f : A → nat → M unit) (l : list A)
  : M unit :=
  match l with
  | [] => mret ()
  | x :: l' => f x index ;; forEach_from (S index) f l'
  end.

Definition forEach {A} (f : A → nat → M unit) (l : list A) : M unit :=
  forEach_from 0 f l.

(** The catch clause shared by the public methods: a [DatabaseError] is
    thrown again as it is, any other error is wrapped. *)
Definition rethrow_or {A} (wrap : exn → exn) (error : exn) : M A :=
  if instanceof_DatabaseError error then throw error else throw (wrap error).

Definition lift {A} (r : Result A) : M A := λ s, (r, s).

(** [Math.floor(x * 16).toString(16)] for a draw [x]: one hexadecimal digit. *)
Definition toString16 (n : nat) : ascii :=
  match (n mod 16)%nat with
  | 0 => "0" | 1 => "1" | 2 => "2" | 3 => "3" | 4 => "4" | 5 => "5"
  | 6 => "6" | 7 => "7" | 8 => "8" | 9 => "9" | 10 => "a" | 11 => "b"
  | 12 => "c" | 13 => "d" | 14 => "e" | _ => "f"
  end%nat%char.

(** [Array.prototype.sort(comparefn)]: a stable sort; [comparefn a b <= 0]
    keeps [a] before [b].  Every stable sort gives this result when the
    comparator is consistent. *)
Fixpoint Array_sort_insert {A} (comparefn : A → A → Z) (x : A) (l : list A) : list A :=
  match l with
  | [] => [x]
  | y :: l' =>
      if (comparefn x y <=? 0)%Z then x :: y :: l'
      else y :: Array_sort_insert comparefn x l'
  end.

Definition Array_sort {A} (comparefn : A → A → Z) (l : list A) : list A :=
  foldr (Array_sort_insert comparefn) [] l.

(** [list.every(f)] and [list.filter(f)] for a callback that may throw. *)
Fixpoint every {A} (f : A → Result bool) (l : list A) : Result bool :=
  match l with
  | [] => Ok true
  | x :: l' => b ← f x; if b : bool then every f l' else Ok false
  end.

Fixpoint filter_throwing {A} (f : A → Result bool) (l : list A) : Result (list A) :=
  match l with
  | [] => Ok []
  | x :: l' =>
      b ← f x; rest ← filter_throwing f l';
      Ok (if b : bool then x :: rest else rest)
  end.

Section Store.

(** *** Builtins of the JavaScript runtime *)

(** [JSON.stringify] on the entries of the map, and [JSON.parse] on a
    string holding such entries; [Throw] is the [SyntaxError].  Text that
    parses to a value of another shape is outside the model. *)
Variable JSON_stringify : Map → string.
Variable JSON_parse : string → Result Map.

(** The [n]-th call of [Math.random()], as [Math.floor(x * 16)]; the digit
    is taken modulo 16. *)
Variable Math_random : nat → nat.

(** The number a string converts to, [None] for [NaN]. *)
Variable StringToNumber : string → option Z.

(** *** Comparison operators *)

Definition ToNumber (v : any) : option Z :=
  match v with
  | VUndefined => None
  | VNull => Some 0
  | VBool b => Some (if b then 1 else 0)
  | VNum n => Some n
  | VStr s => StringToNumber s
  end.

(** The relational comparison of two primitives: by code units when both
    are strings, numerically otherwise; [None] when a side is [NaN]. *)
Definition js_compare (a b : any) : option comparison :=
  match a, b with
  | VStr x, VStr y => Some (string_compare x y)
  | _, _ =>
      match ToNumber a, ToNumber b with
      | Some x, Some y => Some (Z.compare x y)
      | _, _ => None
      end
  end.

Definition js_lt (a b : any) : bool :=
  match js_compare a b with Some Lt => true | _ => false end.
Definition js_gt (a b : any) : bool :=
  match js_compare a b with Some Gt => true | _ => false end.
Definition js_le (a b : any) : bool :=
  match js_compare a b with Some Lt | Some Eq => true | _ => false end.
Definition js_ge (a b : any) : bool :=
  match js_compare a b with Some Gt | Some Eq => true | _ => false end.

(** [a === b] *)
Definition strict_equal (a b : any) : bool := bool_decide (a = b).

(** *** Private methods *)

Definition maxAttempts : nat := 100.

(** The loop body of [validate]: one entry per failing field. *)
Fixpoint validationErrors (entries : CollectionValidator) (data : record)
  : list (string * string) :=
  match entries with
  | [] => []
  | (key, None) :: rest => validationErrors rest data
  | (key, Some validator) :: rest =>
      if validator (get_field data key) then validationErrors rest data
      else (key, "Validation failed for field " +:+ key)
           :: validationErrors rest data
  end.

Definition validationErrors_detail (errors : list (string * string)) : detail :=
  DArr ((λ e, DObj [("field", DStr e.1); ("error", DStr e.2)]) <$> errors).

Definition validate (this : Database) (data : record) : Result bool :=
  match collectionValidators this with
  | None => Ok true
  | Some validators =>
      let errors := validationErrors validators data in
      if (0 <? length errors)%nat then
        Throw (DatabaseError VALIDATION_FAILED "Data validation failed"
                 [("validationErrors", validationErrors_detail errors)])
      else Ok true
  end.

Definition saveChanges : M unit :=
  try_catch
    (entries ← get_data;
     write_storage (JSON_stringify entries))
    (λ error,
       throw (DatabaseError STORAGE_WRITE_ERROR
                "Failed to save changes to storage"
                [("originalError", DStr (message_of error))])).

(** Sixteen draws, one hexadecimal digit each, joined: the identifier drawn
    when [Math.random] has been called [calls] times before. *)
Definition hex16 (calls : nat) : string :=
  String.string_of_list_ascii
    ((λ i, toString16 (Math_random (calls + i))) <$> seq 0 16).

Definition random_id : M string := λ s,
  (Ok (hex16 (random_calls s)),
   {| this := this s; random_calls := (random_calls s + 16)%nat |}).

(** The [do ... while] of [generateId], by the attempts that remain. *)
Fixpoint generateId_loop (remaining : nat) : M string :=
  match remaining with
  | O =>
      throw (DatabaseError DUPLICATE_KEY
               "Failed to generate unique ID after maximum attempts"
               [("attempts", DNum (Z.of_nat maxAttempts))])
  | S remaining' =>
      id ← random_id;
      m ← get_data;
      if Map_has m id then generateId_loop remaining' else mret id
  end.

Definition generateId : M string := generateId_loop maxAttempts.

(** The body of the [for] loop of [initialize]. *)
Definition initialize_entry (entry : string * record) (index : nat) : M unit :=
  let '(id, data) := entry in
  b ← read (λ this, validate this data);
  if b : bool then
    m ← get_data;
    set_data (Map_set m id data)
  else
    throw (DatabaseError VALIDATION_FAILED
             "Invalid data found during initialization"
             [("id", DStr id); ("data", DRecord data)]).

Definition initialize : M unit :=
  try_catch
    (s ← read (λ this, Ok (getDynamicProperty (storageType this) (collectionName this)));
     match s with
     | Some storedData =>
         if bool_decide (storedData = "") then mret ()
         else
           entries ← lift (JSON_parse storedData);
           forEach initialize_entry entries
     | None => mret ()
     end)
    (rethrow_or (λ error,
       DatabaseError INITIALIZATION_ERROR "Failed to initialize database"
         [("originalError", DStr (message_of error))])).

(** [new Database(collectionName, storageType, collectionValidators)]:
    the object when the constructor returns, the error when it throws.
    The constructor never calls [Math.random]. *)
Definition new_Database (collectionName : string) (storageType : StorageType)
    (collectionValidators : option CollectionValidator) : Result Database :=
  if ((String.length collectionName <? 1) || (16 <? String.length collectionName))%nat
  then
    Throw (DatabaseError INVALID_COLLECTION_NAME
             "Collection name must be between 1 and 16 characters"
             [("collectionName", DStr collectionName);
              ("length", DNum (Z.of_nat (String.length collectionName)))])
  else
    let object := {| collectionName := collectionName;
                     storageType := storageType;
                     collectionValidators := collectionValidators;
                     data := [] |} in
    match initialize {| this := object; random_calls := 0 |} with
    | (Ok _, s) => Ok (this s)
    | (Throw error, _) => Throw error
    end.

(** *** Public methods *)

Definition evaluateCondition (data : record) (condition : FilterCondition)
  : Result bool :=
  try_pure
    (let conditionValue := value condition in
     let value := get_field data (field condition) in
     let op := operator condition in
     if String.eqb op "==" then Ok (strict_equal value conditionValue)
     else if String.eqb op "!=" then Ok (negb (strict_equal value conditionValue))
     else if String.eqb op ">" then Ok (js_gt value conditionValue)
     else if String.eqb op "<" then Ok (js_lt value conditionValue)
     else if String.eqb op ">=" then Ok (js_ge value conditionValue)
     else if String.eqb op "<=" then Ok (js_le value conditionValue)
     else if String.eqb op "contains" then
       Ok (includes (toLowerCase (String_of value))
                    (toLowerCase (String_of conditionValue)))
     else if String.eqb op "startsWith" then
       Ok (startsWith (toLowerCase (String_of value))
                      (toLowerCase (String_of conditionValue)))
     else if String.eqb op "endsWith" then
       Ok (endsWith (toLowerCase (String_of value))
                    (toLowerCase (String_of conditionValue)))
     else
       Throw (DatabaseError INVALID_QUERY "Invalid operator in filter condition"
                [("operator", DStr op)]))
    (λ error,
       if instanceof_DatabaseError error then Throw error
       else
         Throw (DatabaseError INVALID_QUERY "Error evaluating filter condition"
                  [("condition",
                    DObj [("field", DStr (field condition));
                          ("operator", DStr (operator condition));
                          ("value", DValue (value condition))]);
                   ("originalError", DStr (message_of error))])).

Definition clear : M unit :=
  try_catch
    (m ← get_data;
     set_data (Map_clear m) ;;
     saveChanges)
    (rethrow_or (λ error,
       DatabaseError STORAGE_WRITE_ERROR "Failed to clear database"
         [("originalError", DStr (message_of error))])).

Definition create (data : record) : M string :=
  try_catch
    (read (λ this, validate this data) ;;
     id ← generateId;
     m ← get_data;
     set_data (Map_set m id data) ;;
     saveChanges ;;
     mret id)
    (rethrow_or (λ error,
       DatabaseError UNKNOWN_ERROR "Failed to create document"
         [("originalError", DStr (message_of error))])).

(** The second [forEach] of [createMany], with the array [ids] it fills. *)
Fixpoint createMany_insert (items : list record) (ids : list string)
  : M (list string) :=
  match items with
  | [] => mret ids
  | item :: rest =>
      id ← generateId;
      m ← get_data;
      set_data (Map_set m id item) ;;
      createMany_insert rest (ids ++ [id])
  end.

(** The callback of the first [forEach] of [createMany]. *)
Definition createMany_check (item : record) (index : nat) : M unit :=
  try_catch
    (read (λ this, validate this item) ;; mret ())
    (λ error,
       throw (DatabaseError VALIDATION_FAILED
                ("Validation failed for item at index " +:+ pretty index)
                [("index", DNum (Z.of_nat index));
                 ("item", DRecord item);
                 ("originalError", DExn error)])).

Definition createMany (items : list record) : M (list string) :=
  try_catch
    (forEach createMany_check items ;;
     ids ← createMany_insert items [];
     saveChanges ;;
     mret ids)
    (rethrow_or (λ error,
       DatabaseError UNKNOWN_ERROR "Failed to create multiple documents"
         [("originalError", DStr (message_of error))])).

Definition update (id : string) (data : record) : M unit :=
  m ← get_data;
  match Map_get m id with
  | None =>
      throw (DatabaseError DOCUMENT_NOT_FOUND "Document not found for update"
               [("id", DStr id)])
  | Some existingData =>
      let updatedData := spread existingData data in
      try_catch
        (read (λ this, validate this updatedData) ;;
         m ← get_data;
         set_data (Map_set m id updatedData) ;;
         saveChanges)
        (rethrow_or (λ error,
           DatabaseError INVALID_UPDATE "Failed to update document"
             [("id", DStr id); ("originalError", DStr (message_of error))]))
  end.

(** The callback of the first [forEach] of [updateMany]. *)
Definition updateMany_check (update : string * record) (index : nat) : M unit :=
  let '(id, data) := update in
  m ← get_data;
  match Map_get m id with
  | None =>
      throw (DatabaseError DOCUMENT_NOT_FOUND
               ("Document not found for update at index " +:+ pretty index)
               [("index", DNum (Z.of_nat index)); ("id", DStr id)])
  | Some existingData =>
      let updatedData := spread existingData data in
      try_catch
        (read (λ this, validate this updatedData) ;; mret ())
        (λ error,
           throw (DatabaseError VALIDATION_FAILED
                    ("Validation failed for update at index " +:+ pretty index)
                    [("index", DNum (Z.of_nat index));
                     ("id", DStr id);
                     ("data", DRecord data);
                     ("originalError", DExn error)]))
  end.

(** The callback of the second [forEach] of [updateMany];
    [this.data.get(id)!] of an absent [id] would spread [undefined], which
    adds no field. *)
Definition updateMany_apply (update : string * record) (index : nat) : M unit :=
  let '(id, data) := update in
  m ← get_data;
  let existingData := default ∅ (Map_get m id) in
  set_data (Map_set m id (spread existingData data)).

Definition updateMany (updates : list (string * record)) : M unit :=
  originalData ← get_data;
  try_catch
    (forEach updateMany_check updates ;;
     forEach updateMany_apply updates ;;
     saveChanges)
    (λ error,
       set_data originalData ;;
       rethrow_or (λ error,
         DatabaseError INVALID_UPDATE "Failed to update multiple documents"
           [("originalError", DStr (message_of error))]) error).

Definition delete (id : string) : M unit :=
  m ← get_data;
  if negb (Map_has m id) then
    throw (DatabaseError DOCUMENT_NOT_FOUND "Document not found for deletion"
             [("id", DStr id)])
  else
    try_catch
      (m ← get_data;
       set_data (Map_delete m id) ;;
       saveChanges)
      (rethrow_or (λ error,
         DatabaseError STORAGE_WRITE_ERROR "Failed to delete document"
           [("id", DStr id); ("originalError", DStr (message_of error))])).

(** The callbacks of the two [forEach] of [deleteMany]. *)
Definition deleteMany_check (id : string) (index : nat) : M unit :=
  m ← get_data;
  if negb (Map_has m id) then
    throw (DatabaseError DOCUMENT_NOT_FOUND
             ("Document not found for deletion at index " +:+ pretty index)
             [("index", DNum (Z.of_nat index)); ("id", DStr id)])
  else mret ().

Definition deleteMany_apply (id : string) (index : nat) : M unit :=
  m ← get_data;
  set_data (Map_delete m id).

Definition deleteMany (ids : list string) : M unit :=
  originalData ← get_data;
  try_catch
    (forEach deleteMany_check ids ;;
     forEach deleteMany_apply ids ;;
     saveChanges)
    (λ error,
       set_data originalData ;;
       rethrow_or (λ error,
         DatabaseError STORAGE_WRITE_ERROR "Failed to delete multiple documents"
           [("originalError", DStr (message_of error))]) error).

Definition findById (this : Database) (id : string) : Result (string * record) :=
  match Map_get (data this) id with
  | None =>
      Throw (DatabaseError DOCUMENT_NOT_FOUND "Document not found"
               [("id", DStr id)])
  | Some data => Ok (id, data)
  end.

(** The comparator that [query] hands to [sort]. *)
Fixpoint compare_rows (sortEntries : SortOptions) (a b : record) : Z :=
  match sortEntries with
  | [] => 0
  | (field, direction) :: rest =>
      let aVal := get_field a field in
      let bVal := get_field b field in
      if strict_equal aVal bVal then compare_rows rest a b
      else
        let comparison := if js_lt aVal bVal then (-1)%Z else 1%Z in
        if String.eqb direction "asc" then comparison else (- comparison)%Z
  end.

Definition conditions_detail (conditions : list FilterCondition) : detail :=
  DArr ((λ c, DObj [("field", DStr (field c)); ("operator", DStr (operator c));
                    ("value", DValue (value c))]) <$> conditions).

(** [conditions] is a list, so the guard [Array.isArray(conditions)] of
    the source always passes. *)
Definition query (this : Database) (conditions : list FilterCondition)
    (sort : option SortOptions) (limit : option Z)
  : Result (list (string * record)) :=
  try_pure
    (results ← filter_throwing
                 (λ '(_, data),
                    every (λ condition, evaluateCondition data condition) conditions)
                 (data this);
     let results :=
       match sort with
       | Some sort =>
           let sortEntries := sort in
           Array_sort (λ '(_aId, a) '(_bId, b), compare_rows sortEntries a b) results
       | None => results
       end in
     match limit with
     | Some limit =>
         if (limit <? 0)%Z then
           Throw (DatabaseError INVALID_QUERY "Limit must be a non-negative number"
                    [("limit", DNum limit)])
         else Ok (take (Z.to_nat limit) results)
     | None => Ok results
     end)
    (λ error,
       if instanceof_DatabaseError error then Throw error
       else
         Throw (DatabaseError INVALID_QUERY "Query execution failed"
                  [("conditions", conditions_detail conditions);
                   ("sort", match sort with
                            | Some sort => DObj ((λ e, (e.1, DStr e.2)) <$> sort)
                            | None => DValue VUndefined
                            end);
                   ("limit", match limit with
                             | Some limit => DNum limit
                             | None => DValue VUndefined
                             end);
                   ("originalError", DStr (message_of error))])).

Definition export (this : Database) : Result string :=
  try_pure
    (Ok (JSON_stringify (data this)))
    (λ error,
       Throw (DatabaseError EXPORT_ERROR "Failed to export database"
                [("originalError", DStr (message_of error))])).

(** The body of the [for] loop of [import]. *)
Definition import_entry (entry : string * record) (index : nat) : M unit :=
  let '(id, value) := entry in
  m ← get_data;
  set_data (Map_set m id value).

(** The callback of the [filter] of [import]. *)
Definition import_valid (this : Database) (entry : string * record) : bool :=
  let '(_, value) := entry in
  match validate this value with
  | Ok b => b
  | Throw _ => false
  end.

Definition import (data : string) : M unit :=
  try_catch
    (entries ← lift (JSON_parse data);
     validEntries ← read (λ this, Ok (List.filter (import_valid this) entries));
     if negb (length validEntries =? length entries)%nat then
       throw (DatabaseError VALIDATION_FAILED
                "Some entries failed validation during import"
                [("totalEntries", DNum (Z.of_nat (length entries)));
                 ("validEntries", DNum (Z.of_nat (length validEntries)));
                 ("invalidEntries",
                  DNum (Z.of_nat (length entries) - Z.of_nat (length validEntries)))])
     else
       clear ;;
       forEach import_entry validEntries ;;
       saveChanges)
    (rethrow_or (λ error,
       DatabaseError IMPORT_ERROR "Failed to import data"
         [("originalError", DStr (message_of error))])).

End Store.

(** ** The methods that search

    A predicate handed to [findOne] or [findMany] is a total function to
    booleans, like a validator.  A result [{ id, data }] is the pair of the
    identifier and the record. *)

(** [list.some(f)] for a callback that may throw. *)
Fixpoint Array_some {A} (f : A → Result bool) (l : list A) : Result bool :=
  match l with
  | [] => Ok false
  | x :: l' => b ← f x; if b : bool then Ok true else Array_some f l'
  end.

Definition findMany (this : Database) (predicate : option (record → bool))
  : Result (list (string * record)) :=
  try_pure
    (match predicate with
     | Some predicate => Ok (List.filter (λ e, predicate e.2) (data this))
     | None => Ok (data this)
     end)
    (λ error,
       if instanceof_DatabaseError error then Throw error
       else
         Throw (DatabaseError INVALID_QUERY "Error executing findMany query"
                  [("originalError", DStr (message_of error))])).

(** [findMany(predicate)[0]]; the error for no match has no detail object. *)
Definition findOne (this : Database) (predicate : record → bool)
  : Result (string * record) :=
  try_pure
    (results ← findMany this (Some predicate);
     match head results with
     | None =>
         Throw (DatabaseError DOCUMENT_NOT_FOUND
                  "No document found matching predicate" [])
     | Some result => Ok result
     end)
    (λ error,
       if instanceof_DatabaseError error then Throw error
       else
         Throw (DatabaseError INVALID_QUERY "Error executing findOne query"
                  [("originalError", DStr (message_of error))])).

(** [Object.keys(data)]; the order of the keys does not matter to [some]. *)
Definition Object_keys (data : record) : list string := (map_to_list data).*1.

(** The callback of the [some] of [findLike]; [String] does not throw on a
    primitive, so the inner [catch] is never entered. *)
Definition findLike_field (data : record) (lowerCaseTerm : string) (field : string)
  : Result bool :=
  try_pure
    (Ok (includes (toLowerCase (String_of (get_field data field))) lowerCaseTerm))
    (λ _, Ok false).

(** [fields || Object.keys(data)]: an array, also the empty one, is truthy. *)
Definition findLike (this : Database) (term : string) (fields : option (list string))
  : Result (list (string * record)) :=
  try_pure
    (let lowerCaseTerm := toLowerCase term in
     filter_throwing
       (λ '(_, data),
          let searchFields :=
            match fields with
            | Some fields => fields
            | None => Object_keys data
            end in
          Array_some (findLike_field data lowerCaseTerm) searchFields)
       (data this))
    (λ error,
       if instanceof_DatabaseError error then Throw error
       else
         Throw (DatabaseError INVALID_QUERY "Error executing findLike query"
                  [("term", DStr term);
                   ("fields", match fields with
                              | Some fields => DArr (DStr <$> fields)
                              | None => DValue VUndefined
                              end);
                   ("originalError", DStr (message_of error))])).

(** ** What the properties speak about *)

(** The record passes every configured validator predicate. *)
Definition passes (validators : option CollectionValidator) (r : record) : bool :=
  match validators with
  | None => true
  | Some entries =>
      forallb (λ kv, match kv.2 with
                     | Some validator => validator (get_field r kv.1)
                     | None => true
                     end) entries
  end.

(** The fields whose validator rejects the record, in the validators' order. *)
Definition failing_fields (entries : CollectionValidator) (r : record) : list string :=
  omap (λ kv : string * option (any → bool),
          match kv.2 with
              | Some validator =>
                  if validator (get_field r kv.1) then None else Some kv.1
              | None => None
              end) entries.

(** The invariant of the map in memory: identifiers are unique and every
    record passes validation. *)
Definition Inv (this : Database) : Prop :=
  NoDup (data this).*1 ∧
  Forall (λ e, passes (collectionValidators this) e.2 = true) (data this).

(** The record of the last entry with the given identifier. *)
Fixpoint last_occurrence (entries : list (string * record)) (id : string)
  : option record :=
  match entries with
  | [] => None
  | (k, v) :: rest =>
      match last_occurrence rest id with
      | Some v' => Some v'
      | None => if decide (k = id) then Some v else None
      end
  end.

(** What the host object holds for the collection. *)
Definition persisted (this : Database) : option string :=
  getDynamicProperty (storageType this) (collectionName this).

(** The host does not refuse to store [text] for the collection. *)
Definition writable (this : Database) (text : string) : Prop :=
  write_error (storageType this) (collectionName this) text = None.

(** The calls of the public mutating methods. *)
Inductive operation : Type :=
| Create (data : record)
| CreateMany (items : list record)
| Update (id : string) (data : record)
| UpdateMany (updates : list (string * record))
| Delete (id : string)
| DeleteMany (ids : list string)
| Import (text : string)
| Clear.

Section Operations.

Variable JSON_stringify : Map → string.
Variable JSON_parse : string → Result Map.
Variable Math_random : nat → nat.

(** The state after a call, whether it returned or threw. *)
Definition exec (op : operation) (s : State) : State :=
  match op with
  | Create data => (create JSON_stringify Math_random data s).2
  | CreateMany items => (createMany JSON_stringify Math_random items s).2
  | Update id data => (update JSON_stringify id data s).2
  | UpdateMany updates => (updateMany JSON_stringify updates s).2
  | Delete id => (delete JSON_stringify id s).2
  | DeleteMany ids => (deleteMany JSON_stringify ids s).2
  | Import text => (import JSON_stringify JSON_parse text s).2
  | Clear => (clear JSON_stringify s).2
  end.

(** The states of a store: those a constructed object goes through. *)
Inductive reachable : State → Prop :=
| reachable_new name storage validators object calls :
    new_Database JSON_parse name storage validators = Ok object →
    reachable {| this := object; random_calls := calls |}
| reachable_exec op s :
    reachable s → reachable (exec op s).

(** The map in memory is what the host object holds. *)
Definition in_sync (this : Database) : Prop :=
  persisted this = Some (JSON_stringify (data this)).

End Operations.

(** An entry of [updateMany] is acceptable on the map [m]: its identifier
    is present and the merged record passes validation. *)
Definition update_ok (validators : option CollectionValidator) (m : Map)
    (u : string * record) : bool :=
  match Map_get m u.1 with
  | None => false
  | Some existingData => passes validators (spread existingData u.2)
  end.

(** The state once the host object has stored [text] for the collection. *)
Definition stored (text : string) (s : State) : State :=
  {| this :=
       {| collectionName := collectionName (this s);
          storageType :=
            {| dynamicProperties :=
                 <[collectionName (this s) := text]>
                   (dynamicProperties (storageType (this s)));
               write_error := write_error (storageType (this s)) |};
          collectionValidators := collectionValidators (this s);
          data := data (this s) |};
     random_calls := random_calls s |}.

(** The record [{ age: n }]. *)
Definition age_record (n : Z) : record := {[ "age" := VNum n ]}.

(** *** A program logic for the methods *)

(** [triple P m Q]: from a state in [P], the call [m] ends, returning or
    throwing, with a completion and a state in [Q]. *)
Definition triple {A} (P : State → Prop) (m : M A) (Q : Result A → State → Prop)
  : Prop :=
  ∀ s, P s → Q (m s).1 (m s).2.

(** The invariant as a predicate on states, for fixed validators. *)
Definition Inv_state (validators : option CollectionValidator) (s : State) : Prop :=
  collectionValidators (this s) = validators ∧ Inv (this s).

(** The loop invariant of the second [forEach] of [updateMany]: every entry
    of the batch is acceptable on the current map. *)
Definition updates_ok (validators : option CollectionValidator)
    (updates : list (string * record)) (s : State) : Prop :=
  Inv_state validators s ∧
  Forall (λ u, update_ok validators (data (this s)) u = true) updates.

Section Attempts.

Variable Math_random : nat → nat.

(** The identifier that the [k]-th attempt of [generateId] draws, counting
    from 0, when the method is called in state [s]. *)
Definition attempt (s : State) (k : nat) : string :=
  hex16 Math_random (random_calls s + 16 * k).

End Attempts.

(** ** A concrete runtime for the scenarios

    JSON text for the entries of a map whose records hold primitives, with
    integer numerals; enough to run the class on concrete inputs. *)

Module Runtime.

Definition quote : ascii := ascii_of_nat 34.
Definition backslash : ascii := ascii_of_nat 92.

Definition hex4 (n : nat) : list ascii :=
  [toString16 (n / 4096); toString16 (n / 256); toString16 (n / 16); toString16 n].

(** The escapes [JSON.stringify] writes inside a string. *)
Definition escape_char (c : ascii) : list ascii :=
  let n := nat_of_ascii c in
  if (n =? 34)%nat then [backslash; quote]
  else if (n =? 92)%nat then [backslash; backslash]
  else if (n =? 8)%nat then [backslash; "b"%char]
  else if (n =? 12)%nat then [backslash; "f"%char]
  else if (n =? 10)%nat then [backslash; "n"%char]
  else if (n =? 13)%nat then [backslash; "r"%char]
  else if (n =? 9)%nat then [backslash; "t"%char]
  else if (n <? 32)%nat then backslash :: "u"%char :: hex4 n
  else [c].

Definition print_string (s : string) : list ascii :=
  quote :: flat_map escape_char (String.list_ascii_of_string s) ++ [quote].

(** A field whose value is [undefined] is left out of the text.  The
    fields are written in the order of the finite map, which need not be
    the order of insertion; what the text parses to does not depend on it. *)
Definition print_any (v : any) : option (list ascii) :=
  match v with
  | VUndefined => None
  | VNull => Some (String.list_ascii_of_string "null")
  | VBool true => Some (String.list_ascii_of_string "true")
  | VBool false => Some (String.list_ascii_of_string "false")
  | VNum n => Some (String.list_ascii_of_string (pretty n))
  | VStr s => Some (print_string s)
  end.

Fixpoint join (sep : list ascii) (parts : list (list ascii)) : list ascii :=
  match parts with
  | [] => []
  | [p] => p
  | p :: rest => p ++ sep ++ join sep rest
  end.

Definition print_record (r : record) : list ascii :=
  "{"%char ::
    join [","%char]
      (omap (λ kv, (λ v, print_string kv.1 ++ ":"%char :: v) <$> print_any kv.2)
            (map_to_list r))
  ++ ["}"%char].

Definition print_entry (e : string * record) : list ascii :=
  "["%char :: print_string e.1 ++ ","%char :: print_record e.2 ++ ["]"%char].

Definition JSON_stringify (entries : Map) : string :=
  String.string_of_list_ascii
    ("["%char :: join [","%char] (print_entry <$> entries) ++ ["]"%char]).

(** *** Reading the text back *)

Inductive token : Type :=
| TLBracket | TRBracket | TLBrace | TRBrace | TComma | TColon
| TString (s : list ascii)
| TNumber (n : Z)
| TNull | TTrue | TFalse.

Definition is_digit (c : ascii) : bool :=
  let n := nat_of_ascii c in ((48 <=? n) && (n <=? 57))%nat.

Definition digit_value (c : ascii) : Z := Z.of_nat (nat_of_ascii c - 48).

Definition is_space (c : ascii) : bool :=
  let n := nat_of_ascii c in
  ((n =? 32) || (n =? 9) || (n =? 10) || (n =? 13))%nat.

Definition hex_value (c : ascii) : option nat :=
  let n := nat_of_ascii c in
  if ((48 <=? n) && (n <=? 57))%nat then Some (n - 48)%nat
  else if ((97 <=? n) && (n <=? 102))%nat then Some (n - 87)%nat
  else if ((65 <=? n) && (n <=? 70))%nat then Some (n - 55)%nat
  else None.

(** The characters of a string literal after its opening quote, and what
    follows the closing quote. *)
Fixpoint read_string (s : list ascii) (acc : list ascii)
  : option (list ascii * list ascii) :=
  match s with
  | [] => None
  | c :: s' =>
      if Ascii.eqb c quote then Some (reverse acc, s')
      else if Ascii.eqb c backslash then
        match s' with
        | e :: s'' =>
            let n := nat_of_ascii e in
            if (n =? 117)%nat then
              match s'' with
              | a :: b :: c1 :: d :: s3 =>
                  match hex_value a, hex_value b, hex_value c1, hex_value d with
                  | Some 0%nat, Some 0%nat, Some x, Some y =>
                      (fix skip (k : nat) (t : list ascii) {struct t} :=
                         match k, t with
                         | O, _ => read_string t (ascii_of_nat (16 * x + y) :: acc)
                         | S k', _ :: t' => skip k' t'
                         | S _, [] => None
                         end) 4%nat s''
                  | _, _, _, _ => None
                  end
              | _ => None
              end
            else
              let plain :=
                if (n =? 98)%nat then Some (ascii_of_nat 8)
                else if (n =? 102)%nat then Some (ascii_of_nat 12)
                else if (n =? 110)%nat then Some (ascii_of_nat 10)
                else if (n =? 114)%nat then Some (ascii_of_nat 13)
                else if (n =? 116)%nat then Some (ascii_of_nat 9)
                else if ((n =? 34) || (n =? 92) || (n =? 47))%nat then Some e
                else None in
              match plain with
              | Some ch => read_string s'' (ch :: acc)
              | None => None
              end
        | [] => None
        end
      else read_string s' (c :: acc)
  end.

Fixpoint read_digits (s : list ascii) (acc : Z) : Z * list ascii :=
  match s with
  | c :: s' =>
      if is_digit c then read_digits s' (10 * acc + digit_value c)
      else (acc, s)
  | [] => (acc, [])
  end.

Definition read_word (w : string) (s : list ascii) : option (list ascii) :=
  let l := String.list_ascii_of_string w in
  if bool_decide (take (length l) s = l) then Some (drop (length l) s) else None.

Fixpoint tokenize (fuel : nat) (s : list ascii) : option (list token) :=
  match fuel with
  | O => None
  | S fuel' =>
      match s with
      | [] => Some []
      | c :: s' =>
          let n := nat_of_ascii c in
          if is_space c then tokenize fuel' s'
          else if (n =? 91)%nat then (TLBracket ::.) <$> tokenize fuel' s'
          else if (n =? 93)%nat then (TRBracket ::.) <$> tokenize fuel' s'
          else if (n =? 123)%nat then (TLBrace ::.) <$> tokenize fuel' s'
          else if (n =? 125)%nat then (TRBrace ::.) <$> tokenize fuel' s'
          else if (n =? 44)%nat then (TComma ::.) <$> tokenize fuel' s'
          else if (n =? 58)%nat then (TColon ::.) <$> tokenize fuel' s'
          else if (n =? 34)%nat then
            '(str, rest) ← read_string s' [];
            (TString str ::.) <$> tokenize fuel' rest
          else if (n =? 45)%nat then
            match s' with
            | d :: _ =>
                if is_digit d then
                  let '(z, rest) := read_digits s' 0 in
                  (TNumber (- z) ::.) <$> tokenize fuel' rest
                else None
            | [] => None
            end
          else if is_digit c then
            let '(z, rest) := read_digits s 0 in
            (TNumber z ::.) <$> tokenize fuel' rest
          else
            match read_word "null" s, read_word "true" s, read_word "false" s with
            | Some rest, _, _ => (TNull ::.) <$> tokenize fuel' rest
            | _, Some rest, _ => (TTrue ::.) <$> tokenize fuel' rest
            | _, _, Some rest => (TFalse ::.) <$> tokenize fuel' rest
            | _, _, _ => None
            end
      end
  end.

Definition token_any (t : token) : option any :=
  match t with
  | TString s => Some (VStr (String.string_of_list_ascii s))
  | TNumber n => Some (VNum n)
  | TNull => Some VNull
  | TTrue => Some (VBool true)
  | TFalse => Some (VBool false)
  | _ => None
  end.

(** The fields of an object after its opening brace. *)
Fixpoint parse_fields (ts : list token)
  : option (list (string * any) * list token) :=
  match ts with
  | TString k :: TColon :: t :: rest =>
      match token_any t, rest with
      | Some v, TComma :: rest' =>
          '(fs, r) ← parse_fields rest';
          Some ((String.string_of_list_ascii k, v) :: fs, r)
      | Some v, TRBrace :: rest' => Some ([(String.string_of_list_ascii k, v)], rest')
      | _, _ => None
      end
  | _ => None
  end.

(** A later occurrence of a key replaces an earlier one. *)
Definition parse_object (ts : list token) : option (record * list token) :=
  match ts with
  | TLBrace :: TRBrace :: rest => Some (∅, rest)
  | TLBrace :: rest =>
      '(fs, r) ← parse_fields rest;
      Some (list_to_map (reverse fs), r)
  | _ => None
  end.

(** The fuel bounds the number of entries. *)
Fixpoint parse_entries (fuel : nat) (ts : list token)
  : option (Map * list token) :=
  match fuel with
  | O => None
  | S fuel' =>
      match ts with
      | TLBracket :: TString id :: TComma :: rest =>
          '(r, rest1) ← parse_object rest;
          match rest1 with
          | TRBracket :: TComma :: rest2 =>
              '(es, rest3) ← parse_entries fuel' rest2;
              Some ((String.string_of_list_ascii id, r) :: es, rest3)
          | TRBracket :: TRBracket :: rest2 =>
              Some ([(String.string_of_list_ascii id, r)], rest2)
          | _ => None
          end
      | _ => None
      end
  end.

Definition JSON_parse (text : string) : Result Map :=
  let s := String.list_ascii_of_string text in
  match tokenize (S (length s)) s with
  | Some [TLBracket; TRBracket] => Ok []
  | Some (TLBracket :: ts) =>
      match parse_entries (length ts) ts with
      | Some (es, []) => Ok es
      | _ => Throw (Error "Unexpected token in JSON")
      end
  | _ => Throw (Error "Unexpected token in JSON")
  end.

(** Decimal integer literals; anything else counts as [NaN]. *)
Definition StringToNumber (s : string) : option Z :=
  match String.list_ascii_of_string s with
  | [] => Some 0
  | c :: s' =>
      if Ascii.eqb c "-"%char then
        match s' with
        | [] => None
        | _ => if forallb is_digit s' then Some (- (read_digits s' 0).1) else None
        end
      else if forallb is_digit (c :: s') then Some (read_digits (c :: s') 0).1
      else None
  end.

End Runtime.

(** ** Scenarios

    Concrete validators, records, hosts and random sources on which the
    class is run below. *)

Module Scenario.

(** [name: value => value.length > 0] and [age: value => value > 0]. *)
Definition validators : CollectionValidator :=
  [("name", Some (λ v, match v with
                       | VStr s => (0 <? String.length s)%nat
                       | _ => false
                       end));
   ("age", Some (λ v, match v with
                      | VNum n => (0 <? n)%Z
                      | _ => false
                      end))].

Definition john : record := {[ "name" := VStr "John"; "age" := VNum 30 ]}.
Definition amy : record := {[ "name" := VStr "Amy"; "age" := VNum 25 ]}.

(** A record that both validators reject. *)
Definition nobody : record := {[ "name" := VStr ""; "age" := VNum (-1) ]}.

(** A record with a field set to [undefined]. *)
Definition jo : record := {[ "name" := VStr "Jo"; "nick" := VUndefined ]}.

(** A host object without properties that stores whatever it is given. *)
Definition world : StorageType :=
  {| dynamicProperties := ∅; write_error := λ _ _, None |}.

(** A host object that refuses every write, and holds [text] for "users". *)
Definition read_only (text : string) : StorageType :=
  {| dynamicProperties := {[ "users" := text ]};
     write_error := λ _ _, Some "Dynamic properties are read-only" |}.

(** [Math.random] stuck at 0: every identifier drawn is sixteen zeros. *)
Definition stuck : nat → nat := λ _, 0%nat.

(** The [k]-th identifier drawn repeats the digit [k mod 16]. *)
Definition counting : nat → nat := λ n, (n / 16)%nat.

Definition zeros : string := "0000000000000000".
Definition ones : string := "1111111111111111".

Definition store (storage : StorageType) (validators : option CollectionValidator)
    (data : Map) : State :=
  {| this := {| collectionName := "users";
                storageType := storage;
                collectionValidators := validators;
                data := data |};
     random_calls := 0 |}.

(** The store right after construction on the empty host. *)
Definition empty_store : State := store world (Some validators) [].

(** The same store once [clear] has written the empty list to the host. *)
Definition cleared_store : State :=
  store {| dynamicProperties := {[ "users" := "[]" ]}; write_error := λ _ _, None |}
        (Some validators) [].

(** A store holding John under the identifier of sixteen zeros. *)
Definition john_store : State :=
  store {| dynamicProperties := {[ "users" := Runtime.JSON_stringify [(zeros, john)] ]};
           write_error := λ _ _, None |}
        (Some validators) [(zeros, john)].

(** A store on a host that holds John and refuses every write. *)
Definition read_only_store : State :=
  store (read_only (Runtime.JSON_stringify [(zeros, john)]))
        (Some validators) [(zeros, john)].

(** A store without validators, after [create] of Jo with the stuck source. *)
Definition jo_store : State :=
  (create Runtime.JSON_stringify stuck jo (store world None [])).2.

(** Text with the identifier of sixteen zeros twice. *)
Definition repeated : string :=
  Runtime.JSON_stringify [(zeros, john); (ones, amy); (zeros, amy)].

(** Text whose second entry fails validation. *)
Definition invalid_text : string :=
  Runtime.JSON_stringify [(zeros, john); (ones, nobody)].

(** The program [x = db.export(); db.clear(); db.import(x)]. *)
Definition export_clear_import (JSON_stringify : Map → string)
    (JSON_parse : string → Result Map) : M unit :=
  exported ← read (export JSON_stringify);
  clear JSON_stringify ;;
  import JSON_stringify JSON_parse exported.

End Scenario.

(** ** Further notions for the properties of the methods *)

Section Calls.

Variable JSON_stringify : Map → string.
Variable JSON_parse : string → Result Map.
Variable Math_random : nat → nat.
Variable StringToNumber : string → option Z.

(** A call of a public mutating method, with what it returns dropped. *)
Definition call (op : operation) : M unit :=
  match op with
  | Create data => create JSON_stringify Math_random data ;; mret ()
  | CreateMany items => createMany JSON_stringify Math_random items ;; mret ()
  | Update id data => update JSON_stringify id data
  | UpdateMany updates => updateMany JSON_stringify updates
  | Delete id => delete JSON_stringify id
  | DeleteMany ids => deleteMany JSON_stringify ids
  | Import text => import JSON_stringify JSON_parse text
  | Clear => clear JSON_stringify
  end.

(** The condition holds of the record: it evaluates to [true]. *)
Definition condition_holds (data : record) (condition : FilterCondition) : bool :=
  match evaluateCondition StringToNumber data condition with
  | Ok b => b
  | Throw _ => false
  end.

End Calls.

(** The nine operators of [FilterOperator]. *)
Definition known_operator (op : string) : bool :=
  bool_decide (op ∈ ["=="; "!="; ">"; "<"; ">="; "<=";
                     "contains"; "startsWith"; "endsWith"]).

(** A lower-case hexadecimal digit. *)
Definition is_hex (c : ascii) : bool :=
  bool_decide (c ∈ String.list_ascii_of_string "0123456789abcdef").

(** The map after the entries of [updateMany] have been merged in, one
    after the other. *)
Definition apply_updates (m : Map) (updates : list (string * record)) : Map :=
  foldl (λ acc u, Map_set acc u.1 (spread (default ∅ (Map_get acc u.1)) u.2))
        m updates.

(** The number value of a field, when it holds a number. *)
Definition number_of (r : record) (field : string) : option Z :=
  match get_field r field with
  | VNum n => Some n
  | _ => None
  end.

(** * Properties *)

(** ** The map *)

Lemma Map_get_set_eq m id v : Map_get (Map_set m id v) id = Some v.
Proof.
  induction m as [|[k x] m IH]; simpl.
  - by rewrite decide_True.
  - destruct (decide (k = id)) as [->|Hne]; simpl.
    + by rewrite decide_True.
    + by rewrite decide_False.
Qed.

Lemma Map_get_set_ne m id id' v :
  id ≠ id' → Map_get (Map_set m id v) id' = Map_get m id'.
Proof.
  intros Hne. induction m as [|[k x] m IH]; simpl.
  - by rewrite decide_False.
  - destruct (decide (k = id)) as [->|Hk]; simpl.
    + by rewrite !decide_False.
    + destruct (decide (k = id')); [done|apply IH].
Qed.

Lemma Map_get_set m id id' v :
  Map_get (Map_set m id v) id' = if decide (id = id') then Some v else Map_get m id'.
Proof.
  destruct (decide (id = id')) as [<-|Hne]; [apply Map_get_set_eq|by apply Map_get_set_ne].
Qed.

Lemma elem_of_Map_set_keys m id v x :
  x ∈ (Map_set m id v).*1 ↔ x = id ∨ x ∈ m.*1.
Proof.
  induction m as [|[k y] m IH]; simpl.
  - rewrite list_elem_of_singleton, elem_of_nil. naive_solver.
  - destruct (decide (k = id)) as [->|Hne]; simpl; rewrite !elem_of_cons, ?IH; naive_solver.
Qed.

Lemma elem_of_Map_set m id v e :
  e ∈ Map_set m id v → e = (id, v) ∨ e ∈ m.
Proof.
  induction m as [|[k y] m IH]; simpl.
  - rewrite list_elem_of_singleton. naive_solver.
  - destruct (decide (k = id)) as [->|Hne]; rewrite !elem_of_cons; naive_solver.
Qed.

Lemma NoDup_Map_set m id v : NoDup m.*1 → NoDup (Map_set m id v).*1.
Proof.
  induction m as [|[k y] m IH]; simpl; intros Hnd.
  - apply NoDup_singleton.
  - destruct (decide (k = id)) as [->|Hne]; simpl; [done|].
    apply NoDup_cons in Hnd as [Hk Hnd]. apply NoDup_cons. split; [|by apply IH].
    rewrite elem_of_Map_set_keys. naive_solver.
Qed.

Lemma elem_of_Map_delete m id e : e ∈ Map_delete m id → e ∈ m.
Proof.
  induction m as [|[k y] m IH]; simpl; [done|].
  destruct (decide (k = id)); rewrite !elem_of_cons; naive_solver.
Qed.

Lemma NoDup_Map_delete m id : NoDup m.*1 → NoDup (Map_delete m id).*1.
Proof.
  induction m as [|[k y] m IH]; simpl; intros Hnd; [done|].
  apply NoDup_cons in Hnd as [Hk Hnd].
  destruct (decide (k = id)); [by apply IH|]. simpl. apply NoDup_cons. split; [|by apply IH].
  intros (e & -> & He)%list_elem_of_fmap. apply Hk, list_elem_of_fmap.
  exists e. split; [done|]. by eapply elem_of_Map_delete.
Qed.

Lemma Map_set_fresh m id v : id ∉ m.*1 → Map_set m id v = m ++ [(id, v)].
Proof.
  induction m as [|[k x] m IH]; simpl; intros Hid; [done|].
  apply not_elem_of_cons in Hid as [Hne Hid].
  rewrite decide_False by done. by rewrite IH.
Qed.

Lemma Map_set_all_app m entries :
  NoDup (m ++ entries).*1 → Map_set_all m entries = m ++ entries.
Proof.
  revert m. induction entries as [|[id v] entries IH]; intros m Hnd; simpl.
  - by rewrite app_nil_r.
  - rewrite Map_set_fresh.
    + rewrite IH; rewrite <- app_assoc; done.
    + rewrite fmap_app in Hnd. apply NoDup_app in Hnd as (_ & Hdis & _).
      intros Hin. apply (Hdis id Hin). simpl. left.
Qed.

(** Setting the entries of a map with unique identifiers, in their order,
    on the empty map gives the map back. *)
Lemma Map_set_all_same entries :
  NoDup entries.*1 → Map_set_all [] entries = entries.
Proof. intros Hnd. by rewrite Map_set_all_app. Qed.

Lemma Map_get_set_all m entries id :
  Map_get (Map_set_all m entries) id =
  match last_occurrence entries id with
  | Some v => Some v
  | None => Map_get m id
  end.
Proof.
  revert m. induction entries as [|[k v] entries IH]; intros m; simpl; [done|].
  rewrite IH. destruct (last_occurrence entries id); [done|].
  rewrite Map_get_set. by destruct (decide (k = id)).
Qed.

Lemma Map_set_all_keys m entries x :
  x ∈ (Map_set_all m entries).*1 → x ∈ m.*1 ∨ x ∈ entries.*1.
Proof.
  revert m. induction entries as [|[k v] entries IH]; intros m; simpl; [auto|].
  intros [[->|Hin]%elem_of_Map_set_keys|Hin]%IH.
  - right; left.
  - by left.
  - right; by right.
Qed.

Lemma NoDup_Map_set_all m entries :
  NoDup m.*1 → NoDup (Map_set_all m entries).*1.
Proof.
  revert m. induction entries as [|[k v] entries IH]; intros m Hnd; simpl; [done|].
  by apply IH, NoDup_Map_set.
Qed.

(** Entries that repeat an identifier give a map with fewer records. *)
Lemma Map_set_all_shorter entries :
  ¬ NoDup entries.*1 →
  (length (Map_set_all [] entries) < length entries)%nat.
Proof.
  intros Hdup.
  assert ((Map_set_all [] entries).*1 ⊆+ entries.*1) as Hsub.
  { apply NoDup_submseteq; [apply NoDup_Map_set_all; constructor|].
    intros x [Hx|Hx]%Map_set_all_keys; [by apply elem_of_nil in Hx|done]. }
  pose proof (submseteq_length _ _ Hsub) as Hle. rewrite !length_fmap in Hle.
  destruct (decide (length (Map_set_all [] entries) = length entries)) as [Heq|]; [|lia].
  exfalso. apply Hdup.
  rewrite <- (submseteq_length_Permutation _ _ Hsub).
  - apply NoDup_Map_set_all. constructor.
  - rewrite !length_fmap. lia.
Qed.

(** ** Lists *)

Lemma first_failure {A} (p : A → bool) (l : list A) :
  Exists (λ x, p x = false) l →
  ∃ pre bad post, l = pre ++ bad :: post ∧ Forall (λ x, p x = true) pre ∧ p bad = false.
Proof.
  induction l as [|x l IH]; intros HE; [by apply Exists_nil in HE|].
  destruct (p x) eqn:Hx.
  - apply Exists_cons in HE as [HE|HE]; [congruence|].
    destruct (IH HE) as (pre & bad & post & -> & Hpre & Hbad).
    exists (x :: pre), bad, post. split; [done|]. split; [by constructor|done].
  - exists [], x, l. split; [done|]. split; [constructor|done].
Qed.

Lemma forallb_true_Forall {A} (p : A → bool) (l : list A) :
  forallb p l = true ↔ Forall (λ x, p x = true) l.
Proof.
  rewrite forallb_forall, Forall_forall.
  split; intros H x Hx; apply H; by apply list_elem_of_In.
Qed.

Lemma forallb_false_Exists {A} (p : A → bool) (l : list A) :
  forallb p l = false → Exists (λ x, p x = false) l.
Proof.
  induction l as [|x l IH]; simpl; [done|].
  destruct (p x) eqn:Hx; simpl; intros H; [right; by apply IH|by left].
Qed.

Lemma Permutation_four {A} (a b c d : A) (l : list A) :
  l ≡ₚ [a; b; c; d] → l ∈ permutations [a; b; c; d].
Proof. intros H. by apply permutations_Permutation. Qed.

(** ** Validation *)

Lemma failing_fields_validationErrors entries r :
  (validationErrors entries r).*1 = failing_fields entries r.
Proof.
  unfold failing_fields.
  induction entries as [|[key [f|]] entries IH]; simpl; [done| |done].
  destruct (f (get_field r key)); simpl; [exact IH|f_equal; exact IH].
Qed.

Lemma passes_failing_fields entries r :
  passes (Some entries) r = true ↔ failing_fields entries r = [].
Proof.
  unfold failing_fields.
  induction entries as [|[key [f|]] entries IH]; simpl in *; [done| |done].
  destruct (f (get_field r key)); simpl; [done|]. split; discriminate.
Qed.

Lemma elem_of_failing_fields entries r key :
  key ∈ failing_fields entries r ↔
  ∃ f, (key, Some f) ∈ entries ∧ f (get_field r key) = false.
Proof.
  unfold failing_fields. rewrite list_elem_of_omap. split.
  - intros [[k [f|]] [Hin Hk]]; simpl in Hk; [|done].
    destruct (f (get_field r k)) eqn:Hf; [done|]. injection Hk as ->. eauto.
  - intros (f & Hin & Hf). exists (key, Some f). split; [done|]. simpl. by rewrite Hf.
Qed.

Lemma passes_Some_iff entries r :
  passes (Some entries) r = true ↔
  ∀ key f, (key, Some f) ∈ entries → f (get_field r key) = true.
Proof.
  simpl. rewrite forallb_forall. split.
  - intros H key f Hin. apply (H (key, Some f)). by apply list_elem_of_In.
  - intros H [key [f|]] Hin%list_elem_of_In; simpl; eauto.
Qed.

Lemma get_field_spread existingData data key :
  get_field (spread existingData data) key =
  match data !! key with
  | Some v => v
  | None => get_field existingData key
  end.
Proof.
  unfold get_field, spread. rewrite lookup_union.
  destruct (data !! key), (existingData !! key); done.
Qed.

(** Two updates of one record that are each acceptable on their own are
    acceptable one after the other: a validator looks at one field. *)
Lemma passes_spread_spread validators existingData d d' :
  passes validators (spread existingData d) = true →
  passes validators (spread existingData d') = true →
  passes validators (spread (spread existingData d) d') = true.
Proof.
  destruct validators as [entries|]; [|done]. rewrite !passes_Some_iff.
  intros H1 H2 key f Hin. specialize (H1 key f Hin). specialize (H2 key f Hin).
  rewrite get_field_spread in *. destruct (d' !! key); [done|].
  by rewrite get_field_spread.
Qed.

Lemma validate_passes this r :
  passes (collectionValidators this) r = true → validate this r = Ok true.
Proof.
  unfold validate. destruct (collectionValidators this) as [entries|]; [|done].
  intros H%passes_failing_fields. rewrite <- failing_fields_validationErrors in H.
  apply fmap_nil_inv in H. by rewrite H.
Qed.

Lemma validate_fails this r entries :
  collectionValidators this = Some entries →
  passes (Some entries) r = false →
  validate this r =
    Throw (DatabaseError VALIDATION_FAILED "Data validation failed"
             [("validationErrors", validationErrors_detail (validationErrors entries r))]).
Proof.
  unfold validate. intros -> H.
  destruct (validationErrors entries r) as [|e l] eqn:He; [|done].
  exfalso. apply (f_equal (fmap fst)) in He. rewrite failing_fields_validationErrors in He.
  simpl in He. apply passes_failing_fields in He. congruence.
Qed.

Lemma validate_Ok_passes this r b :
  validate this r = Ok b → passes (collectionValidators this) r = true.
Proof.
  destruct (passes (collectionValidators this) r) eqn:Hp; [done|].
  destruct (collectionValidators this) as [entries|] eqn:Hv; [|done].
  by rewrite (validate_fails _ _ _ Hv Hp).
Qed.

Lemma validate_cases this r :
  (passes (collectionValidators this) r = true ∧ validate this r = Ok true) ∨
  (passes (collectionValidators this) r = false ∧
   ∃ error, validate this r = Throw error ∧ instanceof_DatabaseError error = true
            ∧ type_of error = Some VALIDATION_FAILED).
Proof.
  destruct (passes (collectionValidators this) r) eqn:Hp.
  - left. split; [done|]. by apply validate_passes.
  - right. split; [done|]. destruct (collectionValidators this) as [entries|] eqn:Hv; [|done].
    eexists. by rewrite (validate_fails _ _ _ Hv Hp).
Qed.

Lemma validationErrors_detail_fields entries r :
  validationErrors_detail (validationErrors entries r) =
  DArr ((λ key, DObj [("field", DStr key);
                      ("error", DStr ("Validation failed for field " +:+ key))])
        <$> failing_fields entries r).
Proof.
  unfold validationErrors_detail, failing_fields. f_equal.
  induction entries as [|[key [f|]] entries IH]; simpl; [done| |exact IH].
  destruct (f (get_field r key)); simpl; [exact IH|f_equal; exact IH].
Qed.

Lemma import_valid_passes this e :
  import_valid this e = true → passes (collectionValidators this) e.2 = true.
Proof.
  destruct e as [id r]. unfold import_valid. simpl.
  destruct (validate this r) as [b|] eqn:Hv; [|done]. intros _. by eapply validate_Ok_passes.
Qed.

Lemma filter_import_valid this entries :
  Forall (λ e, passes (collectionValidators this) e.2 = true) entries →
  List.filter (import_valid this) entries = entries.
Proof.
  induction 1 as [|[id r] entries Hp _ IH]; simpl; [done|].
  simpl in Hp. rewrite (validate_passes _ _ Hp). by rewrite IH.
Qed.

(** ** Running the monad *)

Lemma bind_get_data {A} (f : Map → M A) s :
  (m ← get_data; f m) s = f (data (this s)) s.
Proof. done. Qed.

Lemma set_data_same s : set_data (data (this s)) s = (Ok (), s).
Proof. by destruct s as [[] ?]. Qed.

Lemma forEach_from_all_ok {A} (f : A → nat → M unit) l index s :
  (∀ j x, l !! j = Some x → f x (index + j)%nat s = (Ok (), s)) →
  forEach_from index f l s = (Ok (), s).
Proof.
  revert index. induction l as [|x l IH]; intros index Hf; simpl; [done|].
  unfold mbind, M_bind. specialize (Hf 0%nat x eq_refl) as Hx.
  rewrite Nat.add_0_r in Hx. rewrite Hx. apply IH.
  intros j y Hj. specialize (Hf (S j) y Hj). by rewrite Nat.add_succ_r in Hf.
Qed.

Lemma forEach_from_first_throw {A} (f : A → nat → M unit) pre bad post index s error :
  (∀ j x, pre !! j = Some x → f x (index + j)%nat s = (Ok (), s)) →
  f bad (index + length pre)%nat s = (Throw error, s) →
  forEach_from index f (pre ++ bad :: post) s = (Throw error, s).
Proof.
  revert index. induction pre as [|x pre IH]; intros index Hf Hbad; simpl in *.
  - unfold mbind, M_bind. rewrite Nat.add_0_r in Hbad. by rewrite Hbad.
  - unfold mbind, M_bind. specialize (Hf 0%nat x eq_refl) as Hx.
    rewrite Nat.add_0_r in Hx. rewrite Hx. apply IH.
    + intros j y Hj. specialize (Hf (S j) y Hj). by rewrite Nat.add_succ_r in Hf.
    + by rewrite Nat.add_succ_r in Hbad.
Qed.

Lemma forEach_from_app {A} (f : A → nat → M unit) l1 l2 index s :
  forEach_from index f (l1 ++ l2) s =
  match forEach_from index f l1 s with
  | (Ok _, s1) => forEach_from (index + length l1) f l2 s1
  | (Throw e, s1) => (Throw e, s1)
  end.
Proof.
  revert index s. induction l1 as [|x l1 IH]; intros index s; simpl.
  - by rewrite Nat.add_0_r.
  - unfold mbind, M_bind. destruct (f x index s) as [[[]|e] s1]; [|done].
    rewrite IH. by rewrite Nat.add_succ_r.
Qed.

Lemma forEach_import_entry entries index s :
  forEach_from index import_entry entries s =
    (Ok (), (set_data (Map_set_all (data (this s)) entries) s).2).
Proof.
  revert index s. induction entries as [|[id v] entries IH]; intros index s; simpl.
  - by destruct s as [[] ?].
  - unfold mbind at 1, M_bind at 1. rewrite bind_get_data. simpl. by rewrite IH.
Qed.

Lemma initialize_entries_valid entries index s :
  Forall (λ e, passes (collectionValidators (this s)) e.2 = true) entries →
  forEach_from index initialize_entry entries s =
    (Ok (), (set_data (Map_set_all (data (this s)) entries) s).2).
Proof.
  revert index s. induction entries as [|[id r] entries IH]; intros index s Hall; simpl.
  - by destruct s as [[] ?].
  - apply Forall_cons in Hall as [Hp Hall]. simpl in Hp.
    unfold mbind at 1, M_bind at 1. unfold mbind at 1, M_bind at 1, read.
    rewrite (validate_passes _ _ Hp). rewrite bind_get_data.
    cbn [set_data]. by rewrite IH.
Qed.

(** ** Rules of the program logic *)

Section Logic.

Context {A B : Type}.

Lemma triple_conseq (P P' : State → Prop) (m : M A) (Q Q' : Result A → State → Prop) :
  triple P' m Q' → (∀ s, P s → P' s) → (∀ r s, Q' r s → Q r s) → triple P m Q.
Proof. unfold triple. eauto. Qed.

Lemma triple_pure (φ : Prop) P (m : M A) Q :
  (φ → triple P m Q) → triple (λ s, P s ∧ φ) m Q.
Proof. intros H s [HP Hφ]. by apply H. Qed.

Lemma triple_bind P (m : M A) (f : A → M B) (R : A → State → Prop) Q :
  triple P m (λ r s, match r with Ok a => R a s | Throw e => Q (Throw e) s end) →
  (∀ a, triple (R a) (f a) Q) →
  triple P (m ≫= f) Q.
Proof.
  intros Hm Hf s HP. specialize (Hm s HP). unfold mbind, M_bind.
  destruct (m s) as [[a|e] s1]; simpl in *; [by apply Hf|done].
Qed.

Lemma triple_try_catch P (body : M A) handler (E : exn → State → Prop) Q :
  triple P body (λ r s, match r with Ok a => Q (Ok a) s | Throw e => E e s end) →
  (∀ e, triple (E e) (handler e) Q) →
  triple P (try_catch body handler) Q.
Proof.
  intros Hm Hh s HP. specialize (Hm s HP). unfold try_catch.
  destruct (body s) as [[a|e] s1]; simpl in *; [done|by apply Hh].
Qed.

Lemma triple_rethrow_or (wrap : exn → exn) error (I : State → Prop) :
  triple I (rethrow_or wrap error) (λ (_ : Result A) s, I s).
Proof. intros s HI. unfold rethrow_or. by destruct (instanceof_DatabaseError error). Qed.

End Logic.

Lemma triple_forEach {A} (I : State → Prop) (f : A → nat → M unit) (l : list A) index :
  (∀ x i, x ∈ l → triple I (f x i) (λ _ s, I s)) →
  triple I (forEach_from index f l) (λ _ s, I s).
Proof.
  revert index. induction l as [|x l IH]; intros index Hf; simpl.
  - by intros s.
  - eapply triple_bind with (R := λ _, I).
    + eapply triple_conseq; [apply (Hf x index); left|done|]. by intros [] ?.
    + intros _. apply IH. intros y i Hy. apply Hf. by right.
Qed.


(** ** The invariant and the map operations *)

Lemma Inv_state_set_data validators m s :
  Inv_state validators s →
  NoDup m.*1 → Forall (λ e, passes validators e.2 = true) m →
  Inv_state validators (set_data m s).2.
Proof. intros [<- _] ??. by split; [|split]. Qed.

Lemma Inv_state_Map_set validators s id v :
  Inv_state validators s → passes validators v = true →
  Inv_state validators (set_data (Map_set (data (this s)) id v) s).2.
Proof.
  intros HI Hv. pose proof HI as [Hvs [Hnd Hall]].
  apply Inv_state_set_data; [done|by apply NoDup_Map_set|].
  apply Forall_forall. intros e [->|He]%elem_of_Map_set; [done|].
  rewrite Forall_forall in Hall. rewrite <- Hvs. by apply Hall.
Qed.

Lemma Inv_state_Map_delete validators s id :
  Inv_state validators s →
  Inv_state validators (set_data (Map_delete (data (this s)) id) s).2.
Proof.
  intros HI. pose proof HI as [Hvs [Hnd Hall]].
  apply Inv_state_set_data; [done|by apply NoDup_Map_delete|].
  apply Forall_forall. intros e He%elem_of_Map_delete.
  rewrite Forall_forall in Hall. rewrite <- Hvs. by apply Hall.
Qed.

Lemma Inv_state_clear validators s :
  Inv_state validators s → Inv_state validators (set_data [] s).2.
Proof. intros HI. apply Inv_state_set_data; [done|constructor|constructor]. Qed.

(** ** The methods *)

Section Methods.

Variable JSON_stringify : Map → string.
Variable JSON_parse : string → Result Map.
Variable Math_random : nat → nat.

(** *** What [saveChanges] and [generateId] leave alone *)

Lemma saveChanges_this s :
  let s' := (saveChanges JSON_stringify s).2 in
  data (this s') = data (this s) ∧
  collectionValidators (this s') = collectionValidators (this s) ∧
  collectionName (this s') = collectionName (this s) ∧
  write_error (storageType (this s')) = write_error (storageType (this s)) ∧
  random_calls s' = random_calls s.
Proof.
  unfold saveChanges, try_catch, mbind, M_bind, get_data, write_storage, setDynamicProperty.
  simpl. by destruct (write_error _ _ _).
Qed.

Lemma saveChanges_writable s :
  writable (this s) (JSON_stringify (data (this s))) →
  saveChanges JSON_stringify s = (Ok (), stored (JSON_stringify (data (this s))) s).
Proof.
  unfold writable, saveChanges, try_catch. rewrite bind_get_data.
  unfold write_storage, setDynamicProperty. by intros ->.
Qed.

Lemma generateId_loop_this remaining s :
  this (generateId_loop Math_random remaining s).2 = this s.
Proof.
  revert s. induction remaining as [|n IH]; intros s; simpl; [done|].
  unfold mbind, M_bind, random_id, get_data. simpl.
  destruct (Map_has _ _); [by rewrite IH|done].
Qed.

(** The loop returns the first attempt that is not in the map, when there
    is one among the attempts it may make. *)
Lemma generateId_loop_first_fresh remaining s k :
  (k < remaining)%nat →
  (∀ j, (j < k)%nat → Map_has (data (this s)) (attempt Math_random s j) = true) →
  Map_has (data (this s)) (attempt Math_random s k) = false →
  generateId_loop Math_random remaining s =
    (Ok (attempt Math_random s k),
     {| this := this s; random_calls := random_calls s + 16 * S k |}).
Proof.
  revert s k. induction remaining as [|n IH]; intros s k Hk Hused Hfresh; [lia|].
  cbn [generateId_loop]. unfold mbind at 1, M_bind at 1, random_id.
  rewrite bind_get_data. cbn [this data random_calls].
  destruct k as [|k].
  - unfold attempt in *. rewrite Nat.mul_0_r, Nat.add_0_r in Hfresh.
    rewrite Hfresh. rewrite Nat.mul_0_r, Nat.add_0_r.
    by replace (16 * 1)%nat with 16%nat by lia.
  - pose proof (Hused 0%nat ltac:(lia)) as H0. unfold attempt in H0.
    rewrite Nat.mul_0_r, Nat.add_0_r in H0. rewrite H0.
    rewrite (IH _ k); [| lia | |]; unfold attempt in *; cbn [this data random_calls].
    + replace (random_calls s + 16 + 16 * k)%nat with (random_calls s + 16 * S k)%nat by lia.
      by replace (random_calls s + 16 + 16 * S k)%nat
        with (random_calls s + 16 * S (S k))%nat by lia.
    + intros j Hj. specialize (Hused (S j) ltac:(lia)).
      by replace (random_calls s + 16 + 16 * j)%nat with (random_calls s + 16 * S j)%nat by lia.
    + by replace (random_calls s + 16 + 16 * k)%nat with (random_calls s + 16 * S k)%nat by lia.
Qed.

(** *** The validation passes of the batch methods *)

Lemma createMany_check_passes item index s :
  passes (collectionValidators (this s)) item = true →
  createMany_check item index s = (Ok (), s).
Proof.
  intros Hp. unfold createMany_check, try_catch, mbind, M_bind, read.
  by rewrite (validate_passes _ _ Hp).
Qed.

Lemma createMany_check_fails item index s :
  passes (collectionValidators (this s)) item = false →
  ∃ error,
    validate (this s) item = Throw error ∧
    createMany_check item index s =
      (Throw (DatabaseError VALIDATION_FAILED
                ("Validation failed for item at index " +:+ pretty index)
                [("index", DNum (Z.of_nat index)); ("item", DRecord item);
                 ("originalError", DExn error)]), s).
Proof.
  intros Hp.
  destruct (validate_cases (this s) item) as [[? _]|(_ & error & Hv & _)]; [congruence|].
  exists error. split; [done|].
  unfold createMany_check, try_catch, mbind, M_bind, read. by rewrite Hv.
Qed.

Lemma createMany_checks_pass items s :
  Forall (λ r, passes (collectionValidators (this s)) r = true) items →
  forEach createMany_check items s = (Ok (), s).
Proof.
  intros Hall. apply forEach_from_all_ok. intros j x Hj.
  apply createMany_check_passes. rewrite Forall_forall in Hall.
  apply Hall. by eapply list_elem_of_lookup_2.
Qed.

(** [createMany] stops at the first item that fails validation, before it
    has changed anything. *)
Lemma createMany_rejects pre bad post s :
  Forall (λ r, passes (collectionValidators (this s)) r = true) pre →
  passes (collectionValidators (this s)) bad = false →
  ∃ error,
    createMany JSON_stringify Math_random (pre ++ bad :: post) s =
      (Throw (DatabaseError VALIDATION_FAILED
                ("Validation failed for item at index " +:+ pretty (length pre))
                [("index", DNum (Z.of_nat (length pre))); ("item", DRecord bad);
                 ("originalError", DExn error)]), s).
Proof.
  intros Hpre Hbad.
  destruct (createMany_check_fails bad (length pre) s Hbad) as (error & _ & Hcheck).
  exists error. unfold createMany, try_catch, mbind, M_bind, forEach.
  rewrite (forEach_from_first_throw _ pre bad post 0 s _ (λ j x Hj,
    createMany_check_passes x j s
      (proj1 (Forall_forall _ _) Hpre x (list_elem_of_lookup_2 _ _ _ Hj))) Hcheck).
  reflexivity.
Qed.

Lemma updateMany_check_ok u index s :
  update_ok (collectionValidators (this s)) (data (this s)) u = true →
  updateMany_check u index s = (Ok (), s).
Proof.
  destruct u as [id d]. unfold update_ok, updateMany_check, mbind, M_bind, get_data. simpl.
  destruct (Map_get _ id) as [ex|]; [|done]. intros Hp.
  unfold try_catch, mbind, M_bind, read. by rewrite (validate_passes _ _ Hp).
Qed.

Lemma updateMany_check_fails u index s :
  update_ok (collectionValidators (this s)) (data (this s)) u = false →
  ∃ error,
    updateMany_check u index s = (Throw error, s) ∧
    instanceof_DatabaseError error = true ∧
    type_of error =
      Some (match Map_get (data (this s)) u.1 with
            | Some _ => VALIDATION_FAILED
            | None => DOCUMENT_NOT_FOUND
            end).
Proof.
  destruct u as [id d]. unfold update_ok, updateMany_check, mbind, M_bind, get_data. simpl.
  destruct (Map_get _ id) as [ex|]; [|by eexists].
  intros Hp.
  destruct (validate_cases (this s) (spread ex d)) as [[? _]|(_ & error & Hv & _)]; [congruence|].
  unfold try_catch, mbind, M_bind, read. rewrite Hv. by eexists.
Qed.

Lemma updateMany_check_state u index s : (updateMany_check u index s).2 = s.
Proof.
  destruct (update_ok (collectionValidators (this s)) (data (this s)) u) eqn:Hu.
  - by rewrite updateMany_check_ok.
  - by destruct (updateMany_check_fails u index s Hu) as (e & -> & _).
Qed.

Lemma deleteMany_check_state id index s : (deleteMany_check id index s).2 = s.
Proof.
  unfold deleteMany_check. rewrite bind_get_data. by destruct (negb _).
Qed.

(** [updateMany] stops at the first entry that is not acceptable and goes
    back to the snapshot, which is the state it started from. *)
Lemma updateMany_rejects updates s :
  Exists (λ u, update_ok (collectionValidators (this s)) (data (this s)) u = false)
         updates →
  ∃ error,
    updateMany JSON_stringify updates s = (Throw error, s) ∧
    (type_of error = Some DOCUMENT_NOT_FOUND ∨ type_of error = Some VALIDATION_FAILED).
Proof.
  intros (pre & bad & post & -> & Hpre & Hbad)%first_failure.
  destruct (updateMany_check_fails bad (length pre) s Hbad) as (error & Hcheck & Hi & Ht).
  exists error. split.
  - unfold updateMany, try_catch, mbind, M_bind, forEach, get_data. simpl.
    rewrite (forEach_from_first_throw _ pre bad post 0 s error); [| |done].
    + unfold rethrow_or. rewrite Hi. by destruct s as [[] ?].
    + intros j x Hj. apply updateMany_check_ok. rewrite Forall_forall in Hpre.
      apply Hpre. by eapply list_elem_of_lookup_2.
  - rewrite Ht. destruct (Map_get _ _); auto.
Qed.

(** [updateMany] and [deleteMany] put the snapshot back whenever they throw. *)
Lemma updateMany_throw_restores updates s error s' :
  updateMany JSON_stringify updates s = (Throw error, s') →
  data (this s') = data (this s).
Proof.
  unfold updateMany. rewrite bind_get_data. unfold try_catch.
  match goal with
  | |- context [match ?body s with _ => _ end] => destruct (body s) as [[[]|e] s1]
  end; [done|].
  unfold mbind, M_bind, rethrow_or. cbn [set_data].
  destruct (instanceof_DatabaseError e); intros [= _ <-]; done.
Qed.

Lemma deleteMany_throw_restores ids s error s' :
  deleteMany JSON_stringify ids s = (Throw error, s') →
  data (this s') = data (this s).
Proof.
  unfold deleteMany. rewrite bind_get_data. unfold try_catch.
  match goal with
  | |- context [match ?body s with _ => _ end] => destruct (body s) as [[[]|e] s1]
  end; [done|].
  unfold mbind, M_bind, rethrow_or. cbn [set_data].
  destruct (instanceof_DatabaseError e); intros [= _ <-]; done.
Qed.

(** *** Every method keeps the invariant *)

Section Invariant.

Variable validators : option CollectionValidator.

Local Abbreviation I := (Inv_state validators).
Local Abbreviation keeps m := (triple I m (λ _ s, I s)).

Lemma triple_saveChanges : keeps (saveChanges JSON_stringify).
Proof.
  intros s [Hvs [Hnd Hall]]. destruct (saveChanges_this s) as (Hd & Hv & _).
  unfold Inv_state, Inv. by rewrite Hd, Hv.
Qed.

Lemma triple_generateId : keeps (generateId Math_random).
Proof.
  intros s HI. unfold Inv_state, generateId. by rewrite generateId_loop_this.
Qed.

Lemma triple_validate r :
  triple I (read (λ this, validate this r))
    (λ res s, match res with
              | Ok _ => I s ∧ passes validators r = true
              | Throw _ => I s
              end).
Proof.
  intros s HI. simpl. destruct (validate (this s) r) as [b|e] eqn:Hv; [|done].
  split; [done|]. destruct HI as [<- _]. by eapply validate_Ok_passes.
Qed.

(** Going back to the snapshot taken at the start of a batch. *)
Lemma triple_rollback {A} originalData wrap error :
  NoDup originalData.*1 → Forall (λ e, passes validators e.2 = true) originalData →
  triple (λ s, collectionValidators (this s) = validators)
    (set_data originalData ;; rethrow_or wrap error) (λ (_ : Result A) s, I s).
Proof.
  intros Hnd Hall s Hvs. unfold mbind, M_bind. simpl.
  unfold rethrow_or.
  destruct (instanceof_DatabaseError error); simpl;
    (split; [exact Hvs|]; split; simpl; [done|by rewrite Hvs]).
Qed.

Lemma clear_Inv : keeps (clear JSON_stringify).
Proof.
  apply triple_try_catch with (E := λ _, I); [|intros; apply triple_rethrow_or].
  apply triple_bind with (R := λ _, I); [by intros s HI|]. intros m.
  apply triple_bind with (R := λ _, I).
  - intros s HI. by apply Inv_state_clear.
  - intros _. eapply triple_conseq; [apply triple_saveChanges|done|]. by intros [] ?.
Qed.

Lemma create_Inv r : keeps (create JSON_stringify Math_random r).
Proof.
  apply triple_try_catch with (E := λ _, I); [|intros; apply triple_rethrow_or].
  apply triple_bind with (R := λ _ s, I s ∧ passes validators r = true).
  { eapply triple_conseq; [apply triple_validate|done|]. by intros [] ?. }
  intros _. apply triple_pure. intros Hp.
  apply triple_bind with (R := λ _, I).
  { eapply triple_conseq; [apply triple_generateId|done|]. by intros [] ?. }
  intros id. apply triple_bind with (R := λ m s, I s ∧ m = data (this s)); [by intros s HI|].
  intros m. apply triple_bind with (R := λ _, I).
  { intros s [HI ->]. by apply Inv_state_Map_set. }
  intros _. apply triple_bind with (R := λ _, I).
  { eapply triple_conseq; [apply triple_saveChanges|done|]. by intros [] ?. }
  intros _. by intros s.
Qed.

Lemma createMany_insert_Inv items ids :
  Forall (λ r, passes validators r = true) items →
  keeps (createMany_insert Math_random items ids).
Proof.
  revert ids. induction items as [|item items IH]; intros ids Hall; simpl; [by intros s|].
  apply Forall_cons in Hall as [Hitem Hall].
  apply triple_bind with (R := λ _, I).
  { eapply triple_conseq; [apply triple_generateId|done|]. by intros [] ?. }
  intros id. apply triple_bind with (R := λ m s, I s ∧ m = data (this s)); [by intros s HI|].
  intros m. apply triple_bind with (R := λ _, I).
  { intros s [HI ->]. by apply Inv_state_Map_set. }
  intros _. by apply IH.
Qed.

Lemma createMany_Inv items : keeps (createMany JSON_stringify Math_random items).
Proof.
  destruct (forallb (passes validators) items) eqn:Hall; [|intros s HI].
  - apply triple_try_catch with (E := λ _, I); [|intros; apply triple_rethrow_or].
    apply forallb_true_Forall in Hall.
    apply triple_bind with (R := λ _, I).
    { intros s HI. rewrite createMany_checks_pass; [done|]. by destruct HI as [-> _]. }
    intros _. apply triple_bind with (R := λ _, I).
    { eapply triple_conseq; [by apply createMany_insert_Inv|done|]. by intros [] ?. }
    intros ids. apply triple_bind with (R := λ _, I).
    { eapply triple_conseq; [apply triple_saveChanges|done|]. by intros [] ?. }
    intros _. by intros s.
  - apply forallb_false_Exists, first_failure in Hall
      as (pre & bad & post & -> & Hpre & Hbad).
    destruct HI as [Hvs HI]. rewrite <- Hvs in Hpre, Hbad.
    by destruct (createMany_rejects pre bad post s Hpre Hbad) as (error & ->).
Qed.

Lemma update_Inv id d : keeps (update JSON_stringify id d).
Proof.
  apply triple_bind with (R := λ m s, I s ∧ m = data (this s)); [by intros s HI|].
  intros m. destruct (Map_get m id) as [existingData|]; [|by intros s [HI _]].
  apply triple_try_catch with (E := λ _, I); [|intros; apply triple_rethrow_or].
  apply triple_bind with (R := λ _ s, I s ∧ passes validators (spread existingData d) = true).
  { eapply triple_conseq; [apply triple_validate|by intros s [HI _]|]. by intros [] ?. }
  intros _. apply triple_pure. intros Hp.
  apply triple_bind with (R := λ m s, I s ∧ m = data (this s)); [by intros s HI|].
  intros m'. apply triple_bind with (R := λ _, I).
  { intros s [HI ->]. by apply Inv_state_Map_set. }
  intros _. eapply triple_conseq; [apply triple_saveChanges|done|]. by intros [] ?.
Qed.

Lemma delete_Inv id : keeps (delete JSON_stringify id).
Proof.
  apply triple_bind with (R := λ m s, I s ∧ m = data (this s)); [by intros s HI|].
  intros m. destruct (negb (Map_has m id)); [by intros s [HI _]|].
  apply triple_try_catch with (E := λ _, I); [|intros; apply triple_rethrow_or].
  apply triple_bind with (R := λ m s, I s ∧ m = data (this s)); [by intros s [HI _]|].
  intros m'. apply triple_bind with (R := λ _, I).
  { intros s [HI ->]. by apply Inv_state_Map_delete. }
  intros _. eapply triple_conseq; [apply triple_saveChanges|done|]. by intros [] ?.
Qed.

Lemma deleteMany_Inv ids : keeps (deleteMany JSON_stringify ids).
Proof.
  intros s HI. pose proof HI as (Hvs & Hnd & Hall). rewrite Hvs in Hall.
  unfold deleteMany. rewrite bind_get_data.
  refine (triple_try_catch I _ _ (λ _ s, collectionValidators (this s) = validators)
            (λ _ s, I s) _ _ s HI).
  - eapply triple_conseq with (P' := I) (Q' := λ _ s, I s); [|done|].
    + apply triple_bind with (R := λ _, I).
      { eapply triple_conseq; [apply (triple_forEach I)|done|by intros [] ?].
        intros id i _ s' HI'. by rewrite deleteMany_check_state. }
      intros _. apply triple_bind with (R := λ _, I).
      { eapply triple_conseq; [apply (triple_forEach I)|done|by intros [] ?].
        intros id i _ s' HI'. by apply Inv_state_Map_delete. }
      intros _. apply triple_saveChanges.
    + intros [] s' HI'; [done|]. by destruct HI'.
  - intros error. by apply triple_rollback.
Qed.

(** Applying one entry keeps every entry of the batch acceptable, also
    those that name the same identifier again. *)
Lemma updateMany_apply_ok updates u index :
  u ∈ updates →
  triple (updates_ok validators updates) (updateMany_apply u index)
         (λ _ s, updates_ok validators updates s).
Proof.
  intros Hin s [HI Hok]. destruct u as [id d]. unfold updateMany_apply.
  rewrite bind_get_data. rewrite Forall_forall in Hok.
  pose proof (Hok _ Hin) as Hu. unfold update_ok in Hu. simpl in Hu.
  destruct (Map_get (data (this s)) id) as [ex|] eqn:Hget; [|done]. cbn [default].
  split; [by apply Inv_state_Map_set|].
  apply Forall_forall. intros [id' d'] Hin'. specialize (Hok _ Hin').
  unfold update_ok in *. simpl in *.
  destruct (decide (id = id')) as [<-|Hne].
  - rewrite Map_get_set_eq. rewrite Hget in Hok. by apply passes_spread_spread.
  - by rewrite Map_get_set_ne.
Qed.

Lemma updateMany_Inv updates : keeps (updateMany JSON_stringify updates).
Proof.
  intros s HI. pose proof HI as (Hvs & Hnd & Hall). rewrite Hvs in Hall.
  destruct (forallb (update_ok validators (data (this s))) updates) eqn:Hok.
  - apply forallb_true_Forall in Hok.
    unfold updateMany. rewrite bind_get_data.
    refine (triple_try_catch (updates_ok validators updates) _ _
              (λ _ s, collectionValidators (this s) = validators)
              (λ _ s, I s) _ _ s _); [| |done].
    + apply triple_bind with (R := λ _, updates_ok validators updates).
      { eapply triple_conseq with (Q' := λ _ s, updates_ok validators updates s);
          [apply (triple_forEach (updates_ok validators updates))|done|].
        - intros u i _ s' H'. by rewrite updateMany_check_state.
        - intros [] s' H'; [done|]. by destruct H' as [[? _] _]. }
      intros _. apply triple_bind with (R := λ _, I).
      { eapply triple_conseq with (Q' := λ _ s, updates_ok validators updates s);
          [apply (triple_forEach (updates_ok validators updates))|done|].
        - intros u i Hu. by apply updateMany_apply_ok.
        - intros [] s' H'; [by destruct H'|]. by destruct H' as [[? _] _]. }
      intros _. eapply triple_conseq; [apply triple_saveChanges|done|].
      intros [] s' HI'; [done|]. by destruct HI'.
    + intros error. by apply triple_rollback.
  - apply forallb_false_Exists in Hok. rewrite <- Hvs in Hok.
    by destruct (updateMany_rejects updates s Hok) as (error & -> & _).
Qed.

Lemma import_Inv text : keeps (import JSON_stringify JSON_parse text).
Proof.
  apply triple_try_catch with (E := λ _, I); [|intros; apply triple_rethrow_or].
  apply triple_bind with (R := λ _, I).
  { intros s HI. simpl. by destruct (JSON_parse text). }
  intros entries.
  apply triple_bind with (R := λ ve s, I s ∧ Forall (λ e, passes validators e.2 = true) ve).
  { intros s HI. simpl. split; [done|]. apply Forall_forall. intros e He.
    apply list_elem_of_In, filter_In in He as [_ He]. destruct HI as [<- _].
    by apply import_valid_passes. }
  intros validEntries. apply triple_pure. intros Hvalid.
  destruct (negb _); [by intros s|].
  apply triple_bind with (R := λ _, I).
  { eapply triple_conseq; [apply clear_Inv|done|by intros [] ?]. }
  intros _. apply triple_bind with (R := λ _, I).
  { eapply triple_conseq; [apply (triple_forEach I)|done|by intros [] ?].
    intros [id r] i Hin s HI. unfold import_entry. rewrite bind_get_data.
    apply Inv_state_Map_set; [done|]. rewrite Forall_forall in Hvalid.
    by apply (Hvalid (id, r)). }
  intros _. eapply triple_conseq; [apply triple_saveChanges|done|by intros [] ?].
Qed.

Lemma initialize_Inv : keeps (initialize JSON_parse).
Proof.
  apply triple_try_catch with (E := λ _, I); [|intros; apply triple_rethrow_or].
  apply triple_bind with (R := λ _, I); [by intros s HI|].
  intros [storedData|]; [|by intros s].
  destruct (bool_decide _); [by intros s|].
  apply triple_bind with (R := λ _, I).
  { intros s HI. simpl. by destruct (JSON_parse storedData). }
  intros entries. eapply triple_conseq; [apply (triple_forEach I)|done|by intros [] ?].
  intros [id r] i _. unfold initialize_entry.
  apply triple_bind with (R := λ b s, I s ∧ passes validators r = true).
  { eapply triple_conseq; [apply triple_validate|done|]. by intros [] ?. }
  intros [|]; [|by intros s [??]]. intros s [HI Hp]. rewrite bind_get_data.
  by apply Inv_state_Map_set.
Qed.

End Invariant.

Lemma exec_Inv op s :
  Inv (this s) →
  Inv (this (exec JSON_stringify JSON_parse Math_random op s)) ∧
  collectionValidators (this (exec JSON_stringify JSON_parse Math_random op s))
  = collectionValidators (this s).
Proof.
  intros HI.
  assert (Inv_state (collectionValidators (this s)) s) as HI' by done.
  cut (Inv_state (collectionValidators (this s))
         (exec JSON_stringify JSON_parse Math_random op s)).
  { by intros [? ?]. }
  destruct op; simpl.
  - by apply create_Inv.
  - by apply createMany_Inv.
  - by apply update_Inv.
  - by apply updateMany_Inv.
  - by apply delete_Inv.
  - by apply deleteMany_Inv.
  - by apply import_Inv.
  - by apply clear_Inv.
Qed.

(** A constructed store satisfies the invariant. *)
Lemma new_Database_Inv name storage validators object :
  new_Database JSON_parse name storage validators = Ok object →
  Inv object ∧ collectionValidators object = validators.
Proof.
  unfold new_Database. destruct (_ || _); [done|].
  set (s0 := {| this := _; random_calls := _ |}).
  assert (Inv_state validators s0) as H0.
  { split; [done|]. split; constructor. }
  pose proof (initialize_Inv validators s0 H0) as H.
  destruct (initialize JSON_parse s0) as [[[]|e] s']; [|done].
  intros [= <-]. by destruct H.
Qed.

Lemma reachable_Inv s :
  reachable JSON_stringify JSON_parse Math_random s → Inv (this s).
Proof.
  induction 1 as [name storage validators object calls Hnew|op s _ IH].
  - by apply new_Database_Inv in Hnew as [? _].
  - by apply exec_Inv.
Qed.

(** *** Calls that return *)

Lemma clear_writable s :
  writable (this s) (JSON_stringify []) →
  clear JSON_stringify s = (Ok (), stored (JSON_stringify []) (set_data [] s).2).
Proof.
  intros Hw. unfold clear, try_catch. rewrite bind_get_data.
  unfold mbind, M_bind. cbn [set_data Map_clear].
  by rewrite saveChanges_writable.
Qed.

(** [import] of text whose entries all pass validation, on a host that
    accepts the two writes: the map becomes the entries set one by one. *)
Lemma import_succeeds s text entries :
  JSON_parse text = Ok entries →
  Forall (λ e, passes (collectionValidators (this s)) e.2 = true) entries →
  writable (this s) (JSON_stringify []) →
  writable (this s) (JSON_stringify (Map_set_all [] entries)) →
  ∃ s',
    import JSON_stringify JSON_parse text s = (Ok (), s') ∧
    data (this s') = Map_set_all [] entries ∧
    persisted (this s') = Some (JSON_stringify (Map_set_all [] entries)).
Proof.
  intros Hparse Hvalid Hw0 Hw1.
  unfold import, try_catch. unfold mbind at 1, M_bind at 1, lift. rewrite Hparse.
  unfold mbind at 1, M_bind at 1, read. rewrite (filter_import_valid _ _ Hvalid).
  rewrite Nat.eqb_refl. cbn [negb].
  unfold mbind at 1, M_bind at 1. rewrite (clear_writable _ Hw0).
  unfold mbind at 1, M_bind at 1, forEach. rewrite forEach_import_entry.
  destruct s as [[name st vs m] calls]. destruct st as [props refuse]. cbn in *.
  rewrite saveChanges_writable; [|exact Hw1]. cbn.
  eexists. split; [done|]. split; [done|]. unfold persisted, getDynamicProperty. cbn.
  by rewrite lookup_insert_eq.
Qed.

Lemma create_validate_throws r s error :
  validate (this s) r = Throw error →
  instanceof_DatabaseError error = true →
  create JSON_stringify Math_random r s = (Throw error, s).
Proof.
  intros Hv Hi. unfold create, try_catch, mbind, M_bind, read.
  rewrite Hv. unfold rethrow_or. by rewrite Hi.
Qed.

(** *** The claims *)

(** C1, as amended.  For every record [r] that passes every configured
    validator predicate: when the [k]-th identifier that [generateId] draws
    is the first one not in the map, with [k] below the 100 attempts, and
    the host accepts the write of the new map, [create r] returns that
    identifier and a [findById] right after it returns the pair of the
    identifier and [r]. *)
Theorem create_then_findById (r : record) (s : State) (k : nat) :
  passes (collectionValidators (this s)) r = true →
  (k < maxAttempts)%nat →
  (∀ j, (j < k)%nat → Map_has (data (this s)) (attempt Math_random s j) = true) →
  Map_has (data (this s)) (attempt Math_random s k) = false →
  writable (this s)
    (JSON_stringify (Map_set (data (this s)) (attempt Math_random s k) r)) →
  ∃ s',
    create JSON_stringify Math_random r s = (Ok (attempt Math_random s k), s') ∧
    findById (this s') (attempt Math_random s k) = Ok (attempt Math_random s k, r).
Proof.
  intros Hp Hk Hused Hfresh Hw.
  unfold create, try_catch. unfold mbind at 1, M_bind at 1, read.
  rewrite (validate_passes _ _ Hp). unfold mbind at 1, M_bind at 1, generateId.
  rewrite (generateId_loop_first_fresh _ _ k Hk Hused Hfresh).
  rewrite bind_get_data. cbn [this data]. unfold mbind at 1, M_bind at 1.
  set (id := attempt Math_random s k) in *.
  destruct s as [[name st vs m] calls]. cbn in *. unfold mbind, M_bind.
  rewrite saveChanges_writable; [|exact Hw]. cbn.
  eexists. split; [done|]. unfold findById. cbn. by rewrite Map_get_set_eq.
Qed.

(** C2.  For every list of records in which at least one fails some
    validator predicate, [createMany] throws a validation error, for the
    first such record, and leaves the collection, and the rest of the state,
    exactly as before the call: all records are validated before any is
    inserted. *)
Theorem createMany_invalid_rejected (items : list record) (s : State) :
  Exists (λ r, passes (collectionValidators (this s)) r = false) items →
  ∃ index item error,
    items !! index = Some item ∧
    passes (collectionValidators (this s)) item = false ∧
    createMany JSON_stringify Math_random items s =
      (Throw (DatabaseError VALIDATION_FAILED
                ("Validation failed for item at index " +:+ pretty index)
                [("index", DNum (Z.of_nat index)); ("item", DRecord item);
                 ("originalError", DExn error)]), s).
Proof.
  intros (pre & bad & post & -> & Hpre & Hbad)%first_failure.
  destruct (createMany_rejects pre bad post s Hpre Hbad) as (error & Hrun).
  exists (length pre), bad, error.
  split; [by rewrite list_lookup_middle|]. by split.
Qed.

(** C3.  For every batch of updates in which at least one entry names an
    absent identifier or merges into a record that fails validation,
    [updateMany] throws (document not found, or validation failed) and the
    whole collection, and the rest of the state, is exactly as before the
    call. *)
Theorem updateMany_invalid_rolls_back (updates : list (string * record)) (s : State) :
  Exists (λ u, match Map_get (data (this s)) u.1 with
               | None => True
               | Some existingData =>
                   passes (collectionValidators (this s)) (spread existingData u.2) = false
               end) updates →
  ∃ error,
    updateMany JSON_stringify updates s = (Throw error, s) ∧
    (type_of error = Some DOCUMENT_NOT_FOUND ∨ type_of error = Some VALIDATION_FAILED).
Proof.
  intros HE. apply updateMany_rejects.
  eapply Exists_impl; [exact HE|]. intros u. unfold update_ok. by destruct (Map_get _ _).
Qed.

(** C5, as amended.  For every stored text that parses as a list of pairs
    in which some record fails validation, the constructor throws and so
    gives no store: the error is the validation error of the first such
    record, tagged VALIDATION_FAILED and listing its failing fields, thrown
    by [validate] and passed on as it is. *)
Theorem new_Database_invalid_entry (name : string) (storage : StorageType)
    (validators : CollectionValidator) (blob : string)
    (entries : list (string * record)) :
  (1 ≤ String.length name ≤ 16)%nat →
  getDynamicProperty storage name = Some blob →
  blob ≠ "" →
  JSON_parse blob = Ok entries →
  Exists (λ e, passes (Some validators) e.2 = false) entries →
  ∃ pre bad post,
    entries = pre ++ bad :: post ∧
    Forall (λ e, passes (Some validators) e.2 = true) pre ∧
    failing_fields validators bad.2 ≠ [] ∧
    new_Database JSON_parse name storage (Some validators) =
      Throw (DatabaseError VALIDATION_FAILED "Data validation failed"
               [("validationErrors",
                 DArr ((λ key, DObj [("field", DStr key);
                                     ("error", DStr ("Validation failed for field " +:+ key))])
                       <$> failing_fields validators bad.2))]).
Proof.
  intros Hname Hget Hne Hparse (pre & [id r] & post & -> & Hpre & Hbad)%first_failure.
  exists pre, (id, r), post. split; [done|]. split; [done|]. split.
  { intros H%passes_failing_fields. simpl in *. congruence. }
  unfold new_Database.
  replace (_ || _) with false; cycle 1.
  { symmetry. apply orb_false_iff. split; [apply Nat.ltb_ge|apply Nat.ltb_ge]; lia. }
  cbv zeta. unfold initialize, try_catch. unfold mbind at 1, M_bind at 1, read.
  cbn [this storageType collectionName]. rewrite Hget.
  rewrite bool_decide_eq_false_2 by done.
  unfold mbind at 1, M_bind at 1, lift. rewrite Hparse.
  unfold forEach. rewrite forEach_from_app.
  rewrite initialize_entries_valid by done.
  cbn [forEach_from initialize_entry]. unfold mbind at 1, M_bind at 1.
  unfold mbind at 1, M_bind at 1, read. cbn [set_data snd this].
  erewrite validate_fails; [|done|exact Hbad].
  cbn. by rewrite validationErrors_detail_fields.
Qed.

(** C6, as amended.  For every state of a store in which the host accepts
    the write of the empty list and of the exported map, and the exported
    text parses back to the exported entries: export, then clear, then
    import of the exported text all return, and the map at the end is
    exactly the map at the start. *)
Theorem export_clear_import_restores (s : State) :
  reachable JSON_stringify JSON_parse Math_random s →
  writable (this s) (JSON_stringify []) →
  writable (this s) (JSON_stringify (data (this s))) →
  JSON_parse (JSON_stringify (data (this s))) = Ok (data (this s)) →
  ∃ exported s1 s2,
    export JSON_stringify (this s) = Ok exported ∧
    clear JSON_stringify s = (Ok (), s1) ∧
    import JSON_stringify JSON_parse exported s1 = (Ok (), s2) ∧
    data (this s2) = data (this s).
Proof.
  intros [Hnd Hvalid]%reachable_Inv Hw0 Hw1 Hparse.
  exists (JSON_stringify (data (this s))). eexists.
  destruct (import_succeeds (stored (JSON_stringify []) (set_data [] s).2)
              (JSON_stringify (data (this s))) (data (this s)))
    as (s2 & Himport & Hdata & _); [done|done|done| |].
  { cbn. by rewrite Map_set_all_same. }
  exists s2. split; [done|]. split; [by apply clear_writable|]. split; [done|].
  by rewrite Hdata, Map_set_all_same.
Qed.

(** C8.  For every record that fails at least one validator predicate,
    [create] throws the validation error whose detail lists every failing
    field, each exactly when its validator rejects the record, and the
    collection, and the rest of the state, is unchanged. *)
Theorem create_invalid_reports_every_field (r : record) (s : State)
    (entries : CollectionValidator) (key : string) (f : any → bool) :
  collectionValidators (this s) = Some entries →
  (key, Some f) ∈ entries →
  f (get_field r key) = false →
  create JSON_stringify Math_random r s =
    (Throw (DatabaseError VALIDATION_FAILED "Data validation failed"
              [("validationErrors",
                DArr ((λ key, DObj [("field", DStr key);
                                    ("error", DStr ("Validation failed for field " +:+ key))])
                      <$> failing_fields entries r))]), s) ∧
  ∀ k, k ∈ failing_fields entries r ↔
       ∃ g, (k, Some g) ∈ entries ∧ g (get_field r k) = false.
Proof.
  intros Hv Hin Hf. split; [|intros k; apply elem_of_failing_fields].
  rewrite <- validationErrors_detail_fields.
  apply create_validate_throws; [|done].
  apply validate_fails; [done|].
  destruct (passes (Some entries) r) eqn:Hp; [|done].
  rewrite passes_Some_iff in Hp. specialize (Hp key f Hin). congruence.
Qed.

(** C9.  The invariant of the map in memory, that identifiers are unique
    and every record passes validation, is preserved by every public
    operation: create, createMany, update, updateMany, delete, deleteMany,
    import and clear, whether the call returns or throws. *)
Theorem operations_preserve_invariant (op : operation) (s : State) :
  Inv (this s) →
  Inv (this (exec JSON_stringify JSON_parse Math_random op s)) ∧
  collectionValidators (this (exec JSON_stringify JSON_parse Math_random op s))
  = collectionValidators (this s).
Proof. apply exec_Inv. Qed.

(** C10, as amended.  For every import text that parses to entries which
    all pass validation and among which an identifier occurs more than
    once, on a host that accepts the two writes: [import] returns, the map
    holds for every identifier the record of its last occurrence in the
    entries, and it holds fewer records than there were entries. *)
Theorem import_repeated_identifier (s : State) (text : string)
    (entries : list (string * record)) :
  JSON_parse text = Ok entries →
  Forall (λ e, passes (collectionValidators (this s)) e.2 = true) entries →
  ¬ NoDup entries.*1 →
  writable (this s) (JSON_stringify []) →
  writable (this s) (JSON_stringify (Map_set_all [] entries)) →
  ∃ s',
    import JSON_stringify JSON_parse text s = (Ok (), s') ∧
    (∀ id, Map_get (data (this s')) id = last_occurrence entries id) ∧
    (length (data (this s')) < length entries)%nat.
Proof.
  intros Hparse Hvalid Hdup Hw0 Hw1.
  destruct (import_succeeds s text entries) as (s' & Himport & Hdata & _); [done..|].
  exists s'. split; [done|]. rewrite Hdata. split.
  - intros id. rewrite Map_get_set_all. by destruct (last_occurrence entries id).
  - by apply Map_set_all_shorter.
Qed.

End Methods.

Section Query.

Variable StringToNumber : string → option Z.

(** C7.  On a collection holding exactly the records with ages 17, 20, 30
    and 25, under any identifiers and in any order of insertion, the query
    with the one condition that "age" is greater than 18, sorted by "age"
    descending and limited to 2, returns the record of age 30 and then the
    record of age 25. *)
Theorem query_age_example (this : Database) (id1 id2 id3 id4 : string) :
  data this ≡ₚ [(id1, age_record 17); (id2, age_record 20);
                (id3, age_record 30); (id4, age_record 25)] →
  query StringToNumber this
    [{| field := "age"; operator := ">"; value := VNum 18 |}]
    (Some [("age", "desc")]) (Some 2)
  = Ok [(id3, age_record 30); (id4, age_record 25)].
Proof.
  intros Hd%Permutation_four. unfold query.
  generalize dependent (data this). intros entries Hd.
  cbv [permutations interleave foldr list_fmap app mbind list_bind fmap] in Hd.
  repeat (apply elem_of_cons in Hd as [-> | Hd]; [vm_compute; reflexivity|]).
  by apply elem_of_nil in Hd.
Qed.

End Query.

(** * The class on concrete inputs *)

Import Scenario.

Lemma john_store_reachable random :
  reachable Runtime.JSON_stringify Runtime.JSON_parse random john_store.
Proof.
  apply (reachable_new _ _ _ "users"
           (storageType (this john_store)) (Some validators)).
  vm_compute. reflexivity.
Qed.

Lemma read_only_store_reachable random :
  reachable Runtime.JSON_stringify Runtime.JSON_parse random read_only_store.
Proof.
  apply (reachable_new _ _ _ "users"
           (storageType (this read_only_store)) (Some validators)).
  vm_compute. reflexivity.
Qed.

Lemma jo_store_reachable :
  reachable Runtime.JSON_stringify Runtime.JSON_parse stuck jo_store.
Proof.
  apply (reachable_exec _ _ _ (Create jo)).
  apply (reachable_new _ _ _ "users" world None). vm_compute. reflexivity.
Qed.

(** C1: a record that passes validation on which [create] throws.  With
    the random source stuck, all 100 attempts draw the identifier that is
    in the map; and on a host that refuses the write, the save fails. *)
Lemma create_valid_record_can_throw :
  (reachable Runtime.JSON_stringify Runtime.JSON_parse stuck john_store ∧
   passes (collectionValidators (this john_store)) amy = true ∧
   (create Runtime.JSON_stringify stuck amy john_store).1 =
     Throw (DatabaseError DUPLICATE_KEY
              "Failed to generate unique ID after maximum attempts"
              [("attempts", DNum 100)])) ∧
  (reachable Runtime.JSON_stringify Runtime.JSON_parse counting read_only_store ∧
   passes (collectionValidators (this read_only_store)) amy = true ∧
   (create Runtime.JSON_stringify counting amy read_only_store).1 =
     Throw (DatabaseError STORAGE_WRITE_ERROR "Failed to save changes to storage"
              [("originalError", DStr "Dynamic properties are read-only")])).
Proof.
  split; (split; [|split; vm_compute; reflexivity]).
  - apply john_store_reachable.
  - apply read_only_store_reachable.
Qed.

Lemma create_then_findById_witness :
  ∃ s',
    create Runtime.JSON_stringify counting amy john_store = (Ok ones, s') ∧
    findById (this s') ones = Ok (ones, amy).
Proof.
  apply (create_then_findById Runtime.JSON_stringify counting amy john_store 1).
  - vm_compute. reflexivity.
  - unfold maxAttempts. lia.
  - intros j Hj. destruct j; [vm_compute; reflexivity|lia].
  - vm_compute. reflexivity.
  - reflexivity.
Defined.

Lemma createMany_invalid_rejected_witness :
  ∃ index item error,
    [john; nobody] !! index = Some item ∧
    passes (collectionValidators (this empty_store)) item = false ∧
    createMany Runtime.JSON_stringify counting [john; nobody] empty_store =
      (Throw (DatabaseError VALIDATION_FAILED
                ("Validation failed for item at index " +:+ pretty index)
                [("index", DNum (Z.of_nat index)); ("item", DRecord item);
                 ("originalError", DExn error)]), empty_store).
Proof.
  apply (createMany_invalid_rejected Runtime.JSON_stringify counting
           [john; nobody] empty_store).
  right. left. vm_compute. reflexivity.
Defined.

Lemma updateMany_invalid_rolls_back_witness :
  ∃ error,
    updateMany Runtime.JSON_stringify
      [(zeros, age_record 31); (ones, age_record 26)] john_store
    = (Throw error, john_store) ∧
    (type_of error = Some DOCUMENT_NOT_FOUND ∨ type_of error = Some VALIDATION_FAILED).
Proof.
  apply (updateMany_invalid_rolls_back Runtime.JSON_stringify
           [(zeros, age_record 31); (ones, age_record 26)] john_store).
  right. left. vm_compute. exact I.
Defined.

(** C4: [createMany] and [import] do not put the map back when they fail
    after validation.  With the random source stuck, the second record of
    the batch finds no identifier: [createMany] throws, the first record
    stays in the map, and the host still holds the empty list.  On a host
    that refuses writes, [import] throws after it has emptied the map, and
    the host still holds the old record. *)
Theorem createMany_failure_keeps_partial_insert :
  (in_sync Runtime.JSON_stringify (this cleared_store) ∧
   ∃ s',
     createMany Runtime.JSON_stringify stuck [john; amy] cleared_store =
       (Throw (DatabaseError DUPLICATE_KEY
                 "Failed to generate unique ID after maximum attempts"
                 [("attempts", DNum 100)]), s') ∧
     data (this s') = [(zeros, john)] ∧
     persisted (this s') = Some (Runtime.JSON_stringify []) ∧
     ¬ in_sync Runtime.JSON_stringify (this s')) ∧
  (in_sync Runtime.JSON_stringify (this read_only_store) ∧
   ∃ s',
     import Runtime.JSON_stringify Runtime.JSON_parse repeated read_only_store =
       (Throw (DatabaseError STORAGE_WRITE_ERROR "Failed to save changes to storage"
                 [("originalError", DStr "Dynamic properties are read-only")]), s') ∧
     data (this s') = [] ∧
     persisted (this s') = Some (Runtime.JSON_stringify [(zeros, john)]) ∧
     ¬ in_sync Runtime.JSON_stringify (this s')).
Proof.
  split; (split; [vm_compute; reflexivity|]);
    (eexists; split; [vm_compute; reflexivity|];
     split; [vm_compute; reflexivity|]; split; [vm_compute; reflexivity|];
     unfold in_sync; vm_compute; discriminate).
Qed.

(** C5: a stored text with an entry that fails validation, on which the
    constructor throws an error tagged VALIDATION_FAILED, not
    INITIALIZATION_ERROR. *)
Lemma initialization_throws_validation_failed :
  Runtime.JSON_parse invalid_text = Ok [(zeros, john); (ones, nobody)] ∧
  passes (Some validators) nobody = false ∧
  new_Database Runtime.JSON_parse "users" (read_only invalid_text) (Some validators) =
    Throw (DatabaseError VALIDATION_FAILED "Data validation failed"
             [("validationErrors",
               DArr [DObj [("field", DStr "name");
                           ("error", DStr "Validation failed for field name")];
                     DObj [("field", DStr "age");
                           ("error", DStr "Validation failed for field age")]])]) ∧
  VALIDATION_FAILED ≠ INITIALIZATION_ERROR.
Proof.
  split; [vm_compute; reflexivity|]. split; [vm_compute; reflexivity|].
  split; [vm_compute; reflexivity|]. discriminate.
Qed.

Lemma new_Database_invalid_entry_witness :
  ∃ pre bad post,
    [(zeros, john); (ones, nobody)] = pre ++ bad :: post ∧
    Forall (λ e, passes (Some validators) e.2 = true) pre ∧
    failing_fields validators bad.2 ≠ [] ∧
    new_Database Runtime.JSON_parse "users" (read_only invalid_text) (Some validators) =
      Throw (DatabaseError VALIDATION_FAILED "Data validation failed"
               [("validationErrors",
                 DArr ((λ key, DObj [("field", DStr key);
                                     ("error", DStr ("Validation failed for field " +:+ key))])
                       <$> failing_fields validators bad.2))]).
Proof.
  apply (new_Database_invalid_entry Runtime.JSON_parse "users"
           (read_only invalid_text) validators invalid_text
           [(zeros, john); (ones, nobody)]).
  - simpl. lia.
  - reflexivity.
  - vm_compute. discriminate.
  - vm_compute. reflexivity.
  - right. left. vm_compute. reflexivity.
Defined.

(** C6: two states of a store from which export, clear and import of the
    exported text do not give the map back.  On a host that refuses
    writes, [clear] throws after it has emptied the map.  And a field that
    holds [undefined] is not in the exported text, so the imported record
    lacks it. *)
Lemma export_clear_import_can_lose_records :
  (reachable Runtime.JSON_stringify Runtime.JSON_parse stuck read_only_store ∧
   data (this read_only_store) = [(zeros, john)] ∧
   data (this (export_clear_import Runtime.JSON_stringify Runtime.JSON_parse
                 read_only_store).2) = []) ∧
  (reachable Runtime.JSON_stringify Runtime.JSON_parse stuck jo_store ∧
   data (this jo_store) = [(zeros, jo)] ∧
   (export_clear_import Runtime.JSON_stringify Runtime.JSON_parse jo_store).1 = Ok () ∧
   data (this (export_clear_import Runtime.JSON_stringify Runtime.JSON_parse
                 jo_store).2) = [(zeros, {[ "name" := VStr "Jo" ]})] ∧
   jo ≠ {[ "name" := VStr "Jo" ]}).
Proof.
  split; (split; [|split; [vm_compute; reflexivity|]]).
  - apply read_only_store_reachable.
  - vm_compute. reflexivity.
  - apply jo_store_reachable.
  - split; [vm_compute; reflexivity|]. split; [vm_compute; reflexivity|].
    intros H. apply (f_equal (λ r : record, r !! "nick")) in H.
    vm_compute in H. discriminate.
Qed.

Lemma export_clear_import_restores_witness :
  ∃ exported s1 s2,
    export Runtime.JSON_stringify (this john_store) = Ok exported ∧
    clear Runtime.JSON_stringify john_store = (Ok (), s1) ∧
    import Runtime.JSON_stringify Runtime.JSON_parse exported s1 = (Ok (), s2) ∧
    data (this s2) = data (this john_store).
Proof.
  apply (export_clear_import_restores Runtime.JSON_stringify Runtime.JSON_parse
           stuck john_store).
  - apply john_store_reachable.
  - reflexivity.
  - reflexivity.
  - vm_compute. reflexivity.
Defined.

Lemma query_age_example_witness :
  query Runtime.StringToNumber
    (this (store world None
             [("a", age_record 17); ("b", age_record 20);
              ("c", age_record 30); ("d", age_record 25)]))
    [{| field := "age"; operator := ">"; value := VNum 18 |}]
    (Some [("age", "desc")]) (Some 2)
  = Ok [("c", age_record 30); ("d", age_record 25)].
Proof.
  apply (query_age_example Runtime.StringToNumber _ "a" "b" "c" "d").
  reflexivity.
Defined.

Lemma create_invalid_reports_every_field_witness :
  create Runtime.JSON_stringify counting nobody empty_store =
    (Throw (DatabaseError VALIDATION_FAILED "Data validation failed"
              [("validationErrors",
                DArr ((λ key, DObj [("field", DStr key);
                                    ("error", DStr ("Validation failed for field " +:+ key))])
                      <$> failing_fields validators nobody))]), empty_store) ∧
  ∀ k, k ∈ failing_fields validators nobody ↔
       ∃ g, (k, Some g) ∈ validators ∧ g (get_field nobody k) = false.
Proof.
  eapply (create_invalid_reports_every_field Runtime.JSON_stringify counting
            nobody empty_store validators "name").
  - reflexivity.
  - left.
  - vm_compute. reflexivity.
Defined.

Lemma operations_preserve_invariant_witness :
  Inv (this (exec Runtime.JSON_stringify Runtime.JSON_parse counting
               (UpdateMany [(zeros, age_record 31); (zeros, age_record 32)])
               john_store)) ∧
  collectionValidators
    (this (exec Runtime.JSON_stringify Runtime.JSON_parse counting
             (UpdateMany [(zeros, age_record 31); (zeros, age_record 32)])
             john_store))
  = collectionValidators (this john_store).
Proof.
  apply (operations_preserve_invariant Runtime.JSON_stringify Runtime.JSON_parse
           counting).
  split.
  - apply NoDup_singleton.
  - repeat constructor.
Defined.

(** C10: text with a repeated identifier, all of whose entries pass
    validation, on which [import] throws: the host refuses the write. *)
Lemma import_repeated_identifier_can_throw :
  Runtime.JSON_parse repeated = Ok [(zeros, john); (ones, amy); (zeros, amy)] ∧
  Forall (λ e, passes (collectionValidators (this read_only_store)) e.2 = true)
         [(zeros, john); (ones, amy); (zeros, amy)] ∧
  (import Runtime.JSON_stringify Runtime.JSON_parse repeated read_only_store).1 =
    Throw (DatabaseError STORAGE_WRITE_ERROR "Failed to save changes to storage"
             [("originalError", DStr "Dynamic properties are read-only")]).
Proof.
  split; [vm_compute; reflexivity|]. split; [|vm_compute; reflexivity].
  repeat constructor.
Qed.

Lemma import_repeated_identifier_witness :
  ∃ s',
    import Runtime.JSON_stringify Runtime.JSON_parse repeated john_store = (Ok (), s') ∧
    (∀ id, Map_get (data (this s')) id
           = last_occurrence [(zeros, john); (ones, amy); (zeros, amy)] id) ∧
    (length (data (this s')) < length [(zeros, john); (ones, amy); (zeros, amy)])%nat.
Proof.
  apply (import_repeated_identifier Runtime.JSON_stringify Runtime.JSON_parse
           john_store repeated [(zeros, john); (ones, amy); (zeros, amy)]).
  - vm_compute. reflexivity.
  - repeat constructor.
  - intros H. apply NoDup_cons in H as [H _]. apply H. right. left.
  - reflexivity.
  - reflexivity.
Defined.

(** * Further properties of the class *)

(** ** Construction *)

Section Construction.

Variable JSON_stringify : Map → string.
Variable JSON_parse : string → Result Map.

Lemma name_in_bounds name :
  (1 ≤ String.length name ≤ 16)%nat →
  ((String.length name <? 1) || (16 <? String.length name))%nat = false.
Proof.
  intros H. apply orb_false_iff. split; apply Nat.ltb_ge; lia.
Qed.

(** X1.  A collection name of no character or of more than 16 characters
    makes the constructor throw INVALID_COLLECTION_NAME, with the name and
    its length in the detail, whatever the host holds. *)
Theorem new_Database_name_out_of_bounds (name : string) (storage : StorageType)
    (validators : option CollectionValidator) :
  (String.length name < 1 ∨ 16 < String.length name)%nat →
  new_Database JSON_parse name storage validators =
    Throw (DatabaseError INVALID_COLLECTION_NAME
             "Collection name must be between 1 and 16 characters"
             [("collectionName", DStr name);
              ("length", DNum (Z.of_nat (String.length name)))]).
Proof.
  intros H. unfold new_Database.
  replace (_ || _) with true; [done|]. symmetry. apply orb_true_iff.
  destruct H; [left|right]; by apply Nat.ltb_lt.
Qed.

(** X2.  With a name of 1 to 16 characters and a host that holds nothing
    for it, or the empty string, the constructor returns the empty store,
    with the host as it was. *)
Theorem new_Database_nothing_stored (name : string) (storage : StorageType)
    (validators : option CollectionValidator) :
  (1 ≤ String.length name ≤ 16)%nat →
  getDynamicProperty storage name = None ∨ getDynamicProperty storage name = Some "" →
  new_Database JSON_parse name storage validators =
    Ok {| collectionName := name; storageType := storage;
          collectionValidators := validators; data := [] |}.
Proof.
  intros Hname Hget. unfold new_Database. rewrite (name_in_bounds _ Hname).
  cbv zeta. unfold initialize, try_catch. unfold mbind at 1, M_bind at 1, read.
  cbn [this storageType collectionName]. by destruct Hget as [-> | ->].
Qed.

Lemma new_Database_loads_all name storage validators text entries :
  (1 ≤ String.length name ≤ 16)%nat →
  getDynamicProperty storage name = Some text →
  text ≠ "" →
  JSON_parse text = Ok entries →
  Forall (λ e, passes validators e.2 = true) entries →
  new_Database JSON_parse name storage validators =
    Ok {| collectionName := name; storageType := storage;
          collectionValidators := validators; data := Map_set_all [] entries |}.
Proof.
  intros Hname Hget Hne Hparse Hvalid. unfold new_Database.
  rewrite (name_in_bounds _ Hname).
  cbv zeta. unfold initialize, try_catch. unfold mbind at 1, M_bind at 1, read.
  cbn [this storageType collectionName]. rewrite Hget.
  rewrite bool_decide_eq_false_2 by done.
  unfold mbind at 1, M_bind at 1, lift. rewrite Hparse.
  unfold forEach. by rewrite initialize_entries_valid.
Qed.

(** X3.  With a name of 1 to 16 characters and a host that holds text which
    parses to entries that all pass validation, the constructor returns the
    store whose map is the entries set one after the other: exactly the
    entries, in their order, when no identifier is repeated. *)
Theorem new_Database_loads (name : string) (storage : StorageType)
    (validators : option CollectionValidator) (text : string)
    (entries : list (string * record)) :
  (1 ≤ String.length name ≤ 16)%nat →
  getDynamicProperty storage name = Some text →
  text ≠ "" →
  JSON_parse text = Ok entries →
  Forall (λ e, passes validators e.2 = true) entries →
  new_Database JSON_parse name storage validators =
    Ok {| collectionName := name; storageType := storage;
          collectionValidators := validators; data := Map_set_all [] entries |} ∧
  (NoDup entries.*1 → Map_set_all [] entries = entries).
Proof.
  intros. split; [by eapply new_Database_loads_all|apply Map_set_all_same].
Qed.

(** X4.  A store whose map is what the host holds can be constructed anew
    from the host: with the same name and validators the constructor
    returns the very same object, provided the stored text is not empty and
    parses back to the entries it was written from. *)
Theorem new_Database_restores (this : Database) :
  (1 ≤ String.length (collectionName this) ≤ 16)%nat →
  Inv this →
  in_sync JSON_stringify this →
  JSON_stringify (data this) ≠ "" →
  JSON_parse (JSON_stringify (data this)) = Ok (data this) →
  new_Database JSON_parse (collectionName this) (storageType this)
    (collectionValidators this) = Ok this.
Proof.
  intros Hname [Hnd Hvalid] Hsync Hne Hparse.
  rewrite (new_Database_loads_all _ _ _ (JSON_stringify (data this)) (data this));
    [|done..].
  rewrite Map_set_all_same by done. by destruct this.
Qed.

End Construction.

(** ** Persistence *)

Section Persistence.

Variable JSON_stringify : Map → string.
Variable JSON_parse : string → Result Map.
Variable Math_random : nat → nat.

(** What a call guarantees when it returns: the host holds the map. *)
Local Abbreviation saved := (λ r s,
  match r with
  | Ok _ => in_sync JSON_stringify (this s)
  | Throw _ => True
  end).

Lemma in_sync_stored s :
  in_sync JSON_stringify (this (stored (JSON_stringify (data (this s))) s)).
Proof. unfold in_sync, persisted, getDynamicProperty. cbn. by rewrite lookup_insert_eq. Qed.

Lemma saveChanges_refused s message :
  write_error (storageType (this s)) (collectionName (this s))
    (JSON_stringify (data (this s))) = Some message →
  saveChanges JSON_stringify s =
    (Throw (DatabaseError STORAGE_WRITE_ERROR "Failed to save changes to storage"
              [("originalError", DStr message)]), s).
Proof.
  unfold saveChanges, try_catch. rewrite bind_get_data.
  unfold write_storage, setDynamicProperty. by intros ->.
Qed.

Lemma saveChanges_saved P : triple P (saveChanges JSON_stringify) saved.
Proof.
  intros s _.
  destruct (write_error (storageType (this s)) (collectionName (this s))
              (JSON_stringify (data (this s)))) as [message|] eqn:Hw.
  - by rewrite (saveChanges_refused _ _ Hw).
  - rewrite saveChanges_writable by done. apply in_sync_stored.
Qed.

Lemma rethrow_or_saved {A} P wrap error : triple P (rethrow_or (A := A) wrap error) saved.
Proof. intros s _. unfold rethrow_or. by destruct (instanceof_DatabaseError error). Qed.

Lemma rollback_saved {A} P originalData wrap error :
  triple P (set_data originalData ;; rethrow_or (A := A) wrap error) saved.
Proof.
  intros s _. unfold mbind, M_bind. cbn [set_data]. unfold rethrow_or.
  by destruct (instanceof_DatabaseError error).
Qed.

(** Whatever comes first, the call is saved when it ends with [saveChanges]. *)
Lemma then_saved {A B} (m : M A) (f : A → M B) P :
  (∀ a, triple (λ _, True) (f a) saved) → triple P (m ≫= f) saved.
Proof.
  intros Hf. apply triple_bind with (R := λ _ _, True); [|done].
  intros s _. by destruct (m s) as [[]].
Qed.

Lemma saveChanges_ret_saved {A} (a : A) P :
  triple P (saveChanges JSON_stringify ;; mret a) saved.
Proof.
  apply triple_bind with (R := λ _ s, in_sync JSON_stringify (this s)); [|by intros _ s].
  eapply triple_conseq; [apply (saveChanges_saved P)|done|]. by intros [] ?.
Qed.

Lemma clear_saved P : triple P (clear JSON_stringify) saved.
Proof.
  apply triple_try_catch with (E := λ _ _, True); [|intros; apply rethrow_or_saved].
  eapply triple_conseq with (P' := λ _, True) (Q' := saved); [|done|by intros [] ?].
  apply then_saved. intros m. apply then_saved. intros _. apply saveChanges_saved.
Qed.

Lemma call_saved op P :
  triple P (call JSON_stringify JSON_parse Math_random op) saved.
Proof.
  destruct op as [r|items|id d|updates|id|ids|text|]; cbn [call].
  - apply triple_bind with (R := λ _ s, in_sync JSON_stringify (this s)); [|by intros _ s].
    apply triple_try_catch with (E := λ _ _, True).
    + eapply triple_conseq with (P' := λ _, True) (Q' := saved); [|done|by intros [] ?].
      do 3 (apply then_saved; intros ?). apply then_saved. intros _.
      apply saveChanges_ret_saved.
    + intros e. eapply triple_conseq; [apply (rethrow_or_saved (λ _, True))|done|].
      by intros [] ?.
  - apply triple_bind with (R := λ _ s, in_sync JSON_stringify (this s)); [|by intros _ s].
    apply triple_try_catch with (E := λ _ _, True).
    + eapply triple_conseq with (P' := λ _, True) (Q' := saved); [|done|by intros [] ?].
      do 2 (apply then_saved; intros ?). apply saveChanges_ret_saved.
    + intros e. eapply triple_conseq; [apply (rethrow_or_saved (λ _, True))|done|].
      by intros [] ?.
  - unfold update. apply then_saved. intros m.
    destruct (Map_get m id) as [existingData|]; [|by intros s _].
    apply triple_try_catch with (E := λ _ _, True); [|intros; apply rethrow_or_saved].
    eapply triple_conseq with (P' := λ _, True) (Q' := saved); [|done|by intros [] ?].
    do 3 (apply then_saved; intros ?). apply saveChanges_saved.
  - unfold updateMany. apply then_saved. intros originalData.
    apply triple_try_catch with (E := λ _ _, True); [|intros; apply rollback_saved].
    eapply triple_conseq with (P' := λ _, True) (Q' := saved); [|done|by intros [] ?].
    do 2 (apply then_saved; intros ?). apply saveChanges_saved.
  - unfold delete. apply then_saved. intros m.
    destruct (negb _); [by intros s _|].
    apply triple_try_catch with (E := λ _ _, True); [|intros; apply rethrow_or_saved].
    eapply triple_conseq with (P' := λ _, True) (Q' := saved); [|done|by intros [] ?].
    do 2 (apply then_saved; intros ?). apply saveChanges_saved.
  - unfold deleteMany. apply then_saved. intros originalData.
    apply triple_try_catch with (E := λ _ _, True); [|intros; apply rollback_saved].
    eapply triple_conseq with (P' := λ _, True) (Q' := saved); [|done|by intros [] ?].
    do 2 (apply then_saved; intros ?). apply saveChanges_saved.
  - unfold import.
    apply triple_try_catch with (E := λ _ _, True); [|intros; apply rethrow_or_saved].
    eapply triple_conseq with (P' := λ _, True) (Q' := saved); [|done|by intros [] ?].
    do 2 (apply then_saved; intros ?).
    destruct (negb _); [by intros s _|].
    do 2 (apply then_saved; intros ?). apply saveChanges_saved.
  - apply clear_saved.
Qed.

Lemma call_exec op s :
  (call JSON_stringify JSON_parse Math_random op s).2
  = exec JSON_stringify JSON_parse Math_random op s.
Proof.
  destruct op; cbn [call exec]; try done; unfold mbind, M_bind;
    by match goal with |- context [match ?m s with _ => _ end] => destruct (m s) as [[]] end.
Qed.

(** X5.  Whenever a call of create, createMany, update, updateMany, delete,
    deleteMany, import or clear returns, the host holds the serialization of
    the whole map as it is in memory after the call. *)
Theorem returned_call_is_persisted (op : operation) (s : State) :
  (call JSON_stringify JSON_parse Math_random op s).1 = Ok () →
  persisted (this (exec JSON_stringify JSON_parse Math_random op s))
  = Some (JSON_stringify (data (this (exec JSON_stringify JSON_parse Math_random op s)))).
Proof.
  intros Hok. rewrite <- call_exec.
  pose proof (call_saved op (λ _, True) s I) as H. cbv beta in H. by rewrite Hok in H.
Qed.

End Persistence.

(** ** Identifiers and insertion *)

Lemma Map_has_false m id : Map_has m id = false ↔ Map_get m id = None.
Proof.
  unfold Map_has. rewrite bool_decide_eq_false. rewrite <- eq_None_not_Some. done.
Qed.

Lemma Map_get_None m id : Map_get m id = None ↔ id ∉ m.*1.
Proof.
  induction m as [|[k v] m IH]; simpl.
  - split; [intros _; apply not_elem_of_nil|done].
  - rewrite not_elem_of_cons. destruct (decide (k = id)) as [->|Hne]; [naive_solver|].
    rewrite IH. naive_solver.
Qed.

Lemma Map_get_Some m id r : NoDup m.*1 → Map_get m id = Some r ↔ (id, r) ∈ m.
Proof.
  induction m as [|[k v] m IH]; simpl; intros Hnd.
  - split; [done|]. by intros ?%elem_of_nil.
  - apply NoDup_cons in Hnd as [Hk Hnd]. rewrite elem_of_cons.
    destruct (decide (k = id)) as [->|Hne].
    + split; [intros [= ->]; by left|]. intros [[= ->]|Hin]; [done|].
      exfalso. apply Hk. apply list_elem_of_fmap. by exists (id, r).
    + rewrite (IH Hnd). naive_solver.
Qed.

Lemma is_hex_toString16 n : is_hex (toString16 n) = true.
Proof.
  unfold toString16. generalize (n mod 16)%nat. intros k.
  do 16 (destruct k as [|k]; [by vm_compute|]). by vm_compute.
Qed.

Lemma length_string_of_list_ascii l :
  String.length (String.string_of_list_ascii l) = length l.
Proof. induction l as [|c l IH]; simpl; by rewrite ?IH. Qed.

Section Identifiers.

Variable JSON_stringify : Map → string.
Variable Math_random : nat → nat.

Lemma hex16_format calls :
  String.length (hex16 Math_random calls) = 16%nat ∧
  Forall (λ c, is_hex c = true) (String.list_ascii_of_string (hex16 Math_random calls)).
Proof.
  unfold hex16. split.
  - by rewrite length_string_of_list_ascii, length_fmap, length_seq.
  - rewrite String.list_ascii_of_string_of_list_ascii.
    apply Forall_fmap, Forall_forall. intros i _. apply is_hex_toString16.
Qed.

(** What the loop of [generateId] has done when it returns. *)
Lemma generateId_loop_returns remaining s id s' :
  generateId_loop Math_random remaining s = (Ok id, s') →
  ∃ k, (k < remaining)%nat ∧ id = attempt Math_random s k ∧
       (∀ j, (j < k)%nat → Map_has (data (this s)) (attempt Math_random s j) = true) ∧
       Map_has (data (this s)) id = false ∧
       s' = {| this := this s; random_calls := random_calls s + 16 * S k |}.
Proof.
  revert s. induction remaining as [|n IH]; intros s; [done|].
  cbn [generateId_loop]. unfold mbind at 1, M_bind at 1, random_id.
  rewrite bind_get_data. cbn [this data random_calls].
  destruct (Map_has (data (this s)) (hex16 Math_random (random_calls s))) eqn:Hhas.
  - intros (k & Hk & -> & Hused & Hfresh & ->)%IH. cbn [this data random_calls] in *.
    exists (S k). unfold attempt in *. cbn [random_calls] in *.
    replace (random_calls s + 16 * S k)%nat with (random_calls s + 16 + 16 * k)%nat by lia.
    split; [lia|]. split; [done|]. split; [|split; [done|f_equal; lia]].
    intros [|j] Hj.
    + by rewrite Nat.mul_0_r, Nat.add_0_r.
    + replace (random_calls s + 16 * S j)%nat with (random_calls s + 16 + 16 * j)%nat by lia.
      apply Hused. lia.
  - intros [= <- <-]. exists 0%nat. unfold attempt.
    rewrite Nat.mul_0_r, Nat.add_0_r. split; [lia|]. split; [done|].
    split; [intros j Hj; lia|]. split; [done|]. f_equal; lia.
Qed.

(** X6.  An identifier that [generateId] returns has 16 characters, all
    lower-case hexadecimal digits, and is not an identifier of the map; the
    method has left the object as it was and has made at most 100 draws of
    16 digits. *)
Theorem generateId_returns_fresh_hex (s s' : State) (id : string) :
  generateId Math_random s = (Ok id, s') →
  String.length id = 16%nat ∧
  Forall (λ c, is_hex c = true) (String.list_ascii_of_string id) ∧
  Map_get (data (this s)) id = None ∧
  this s' = this s ∧
  ∃ k, (k < 100)%nat ∧ random_calls s' = (random_calls s + 16 * S k)%nat.
Proof.
  intros (k & Hk & -> & _ & Hfresh & ->)%generateId_loop_returns.
  destruct (hex16_format (random_calls s + 16 * k)) as [Hlen Hhex].
  split; [done|]. split; [done|]. split; [by apply Map_has_false|]. split; [done|].
  by exists k.
Qed.

Lemma generateId_loop_exhausted remaining s :
  (∀ k, (k < remaining)%nat → Map_has (data (this s)) (attempt Math_random s k) = true) →
  generateId_loop Math_random remaining s =
    (Throw (DatabaseError DUPLICATE_KEY
              "Failed to generate unique ID after maximum attempts"
              [("attempts", DNum 100)]),
     {| this := this s; random_calls := random_calls s + 16 * remaining |}).
Proof.
  revert s. induction remaining as [|n IH]; intros s Hused.
  - cbn [generateId_loop]. unfold throw.
    replace (random_calls s + 16 * 0)%nat with (random_calls s) by lia. by destruct s.
  - cbn [generateId_loop]. unfold mbind at 1, M_bind at 1, random_id.
    rewrite bind_get_data. cbn [this data random_calls].
    pose proof (Hused 0%nat ltac:(lia)) as H0. unfold attempt in H0.
    rewrite Nat.mul_0_r, Nat.add_0_r in H0. rewrite H0. rewrite IH.
    + cbn [this random_calls]. do 2 f_equal. lia.
    + intros k Hk. specialize (Hused (S k) ltac:(lia)). unfold attempt in *.
      cbn [this data random_calls].
      by replace (random_calls s + 16 + 16 * k)%nat with (random_calls s + 16 * S k)%nat by lia.
Qed.

(** X7.  When each of the 100 identifiers that [generateId] draws is in the
    map, [create] of a record that passes validation throws DUPLICATE_KEY
    and leaves the map and the host as they were; the 1600 draws are
    used up. *)
Theorem create_identifiers_exhausted (r : record) (s : State) :
  passes (collectionValidators (this s)) r = true →
  (∀ k, (k < 100)%nat → Map_has (data (this s)) (attempt Math_random s k) = true) →
  create JSON_stringify Math_random r s =
    (Throw (DatabaseError DUPLICATE_KEY
              "Failed to generate unique ID after maximum attempts"
              [("attempts", DNum 100)]),
     {| this := this s; random_calls := random_calls s + 1600 |}).
Proof.
  intros Hp Hused. unfold create, try_catch. unfold mbind at 1, M_bind at 1, read.
  rewrite (validate_passes _ _ Hp). unfold mbind at 1, M_bind at 1, generateId.
  rewrite (generateId_loop_exhausted maxAttempts s Hused). reflexivity.
Qed.

(** X8.  When [create] returns an identifier, the record passes
    validation, the identifier was not in the map, the map is the old map
    with the new pair added at the end, and the host holds the
    serialization of the new map. *)
Theorem create_returns_appended (r : record) (s s' : State) (id : string) :
  create JSON_stringify Math_random r s = (Ok id, s') →
  passes (collectionValidators (this s)) r = true ∧
  Map_get (data (this s)) id = None ∧
  data (this s') = data (this s) ++ [(id, r)] ∧
  persisted (this s') = Some (JSON_stringify (data (this s) ++ [(id, r)])).
Proof.
  unfold create, try_catch. unfold mbind at 1, M_bind at 1, read.
  destruct (validate (this s) r) as [b|e] eqn:Hv; cycle 1.
  { unfold rethrow_or. by destruct (instanceof_DatabaseError e). }
  apply validate_Ok_passes in Hv. unfold mbind at 1, M_bind at 1.
  destruct (generateId Math_random s) as [[id'|e] s1] eqn:Hg; cycle 1.
  { unfold rethrow_or. by destruct (instanceof_DatabaseError e). }
  apply generateId_loop_returns in Hg as (k & _ & _ & _ & Hfresh%Map_has_false & ->).
  rewrite bind_get_data. unfold mbind at 1, M_bind at 1. cbn [set_data].
  unfold mbind, M_bind.
  match goal with |- context [saveChanges _ ?s2] => set (s2' := s2) end.
  destruct (write_error (storageType (this s2')) (collectionName (this s2'))
              (JSON_stringify (data (this s2')))) as [message|] eqn:Hw.
  - rewrite (saveChanges_refused _ _ _ Hw). done.
  - rewrite saveChanges_writable by done. intros [= <- <-].
    subst s2'. cbn. rewrite Map_set_fresh by by apply Map_get_None.
    split; [done|]. split; [done|]. split; [done|].
    unfold persisted, getDynamicProperty. cbn. by rewrite lookup_insert_eq.
Qed.

(** What the second pass of [createMany] has done when it returns. *)
Lemma createMany_insert_returns items ids s ids' s' :
  createMany_insert Math_random items ids s = (Ok ids', s') →
  ∃ new,
    ids' = ids ++ new ∧ length new = length items ∧ NoDup new ∧
    (∀ id, id ∈ new → id ∉ (data (this s)).*1) ∧
    data (this s') = data (this s) ++ zip new items ∧
    storageType (this s') = storageType (this s) ∧
    collectionName (this s') = collectionName (this s).
Proof.
  revert ids s. induction items as [|item items IH]; intros ids s; cbn [createMany_insert].
  - intros [= <- <-]. exists []. rewrite !app_nil_r. repeat split; [constructor|].
    by intros id ?%elem_of_nil.
  - unfold mbind at 1, M_bind at 1.
    destruct (generateId Math_random s) as [[id|e] s1] eqn:Hg; [|done].
    apply generateId_loop_returns in Hg as (k & _ & _ & _ & Hfresh%Map_has_false & ->).
    rewrite bind_get_data. unfold mbind at 1, M_bind at 1. cbn [set_data this data].
    intros (new & -> & Hlen & Hnd & Hnew & Hdata & Hst & Hname)%IH.
    cbn [this data storageType collectionName] in *.
    apply Map_get_None in Hfresh. rewrite Map_set_fresh in Hdata, Hnew by done.
    exists (id :: new). rewrite <- app_assoc. split; [done|]. split; [simpl; lia|].
    split; [|split; [|split; [|done]]].
    + apply NoDup_cons. split; [|done]. intros Hin. apply (Hnew _ Hin).
      rewrite fmap_app. apply elem_of_app. right. simpl. left.
    + intros id' [->|Hin]%elem_of_cons; [done|].
      intros Hold. apply (Hnew _ Hin). rewrite fmap_app. apply elem_of_app. by left.
    + rewrite Hdata. by rewrite <- app_assoc.
Qed.

(** X9.  When [createMany] returns, every record of the batch passes
    validation, there is one identifier per record, the identifiers differ
    from each other and from those the map had, the map is the old map with
    the new pairs added at the end in the order of the batch, and the host
    holds the serialization of the new map. *)
Theorem createMany_returns_appended (items : list record) (s s' : State)
    (ids : list string) :
  createMany JSON_stringify Math_random items s = (Ok ids, s') →
  Forall (λ r, passes (collectionValidators (this s)) r = true) items ∧
  length ids = length items ∧
  NoDup ids ∧
  (∀ id, id ∈ ids → Map_get (data (this s)) id = None) ∧
  data (this s') = data (this s) ++ zip ids items ∧
  persisted (this s') = Some (JSON_stringify (data (this s) ++ zip ids items)).
Proof.
  intros Hrun.
  destruct (forallb (passes (collectionValidators (this s))) items) eqn:Hall; cycle 1.
  { apply forallb_false_Exists, first_failure in Hall
      as (pre & bad & post & -> & Hpre & Hbad).
    destruct (createMany_rejects JSON_stringify Math_random pre bad post s Hpre Hbad)
      as (error & Hthrow). congruence. }
  apply forallb_true_Forall in Hall. split; [done|].
  revert Hrun. unfold createMany, try_catch. unfold mbind at 1, M_bind at 1.
  rewrite createMany_checks_pass by done. unfold mbind at 1, M_bind at 1.
  destruct (createMany_insert Math_random items [] s) as [[ids'|e] s1] eqn:Hins; cycle 1.
  { unfold rethrow_or. by destruct (instanceof_DatabaseError e). }
  apply createMany_insert_returns in Hins
    as (new & -> & Hlen & Hnd & Hnew & Hdata & Hst & Hname).
  unfold mbind, M_bind.
  destruct (write_error (storageType (this s1)) (collectionName (this s1))
              (JSON_stringify (data (this s1)))) as [message|] eqn:Hw.
  - by rewrite (saveChanges_refused _ _ _ Hw).
  - rewrite saveChanges_writable by done. intros [= <- <-]. cbn.
    split; [done|]. split; [done|]. split; [intros id Hid; by apply Map_get_None, Hnew|].
    split; [done|]. unfold persisted, getDynamicProperty. cbn.
    by rewrite lookup_insert_eq, Hdata.
Qed.

End Identifiers.

(** ** Updating and deleting *)

Lemma Map_set_keys_present m id v :
  id ∈ m.*1 → (Map_set m id v).*1 = m.*1.
Proof.
  induction m as [|[k x] m IH]; simpl.
  - by intros ?%elem_of_nil.
  - destruct (decide (k = id)) as [->|Hne]; simpl; [done|].
    intros [?|Hin]%elem_of_cons; [congruence|]. f_equal. by apply IH.
Qed.

Lemma Map_get_is_Some m id : is_Some (Map_get m id) ↔ id ∈ m.*1.
Proof.
  rewrite <- not_eq_None_Some, Map_get_None. split; [apply dec_stable|auto].
Qed.

Lemma Map_has_true m id : Map_has m id = true ↔ id ∈ m.*1.
Proof. unfold Map_has. by rewrite bool_decide_eq_true, Map_get_is_Some. Qed.

Lemma Map_get_delete m id id' :
  Map_get (Map_delete m id) id' = if decide (id = id') then None else Map_get m id'.
Proof.
  induction m as [|[k x] m IH]; simpl; [by destruct (decide _)|].
  destruct (decide (k = id)) as [->|Hne]; simpl.
  - rewrite IH. by destruct (decide (id = id')).
  - rewrite IH. destruct (decide (k = id')) as [->|]; [by rewrite decide_False|done].
Qed.

Lemma Map_delete_filter m id :
  Map_delete m id = filter (λ e, e.1 ≠ id) m.
Proof.
  induction m as [|[k x] m IH]; [done|]. cbn [Map_delete]. unfold Map in *.
  destruct (decide (k = id)) as [->|Hne].
  - rewrite filter_cons_False by (simpl; auto). done.
  - rewrite filter_cons_True by done. by rewrite IH.
Qed.

Lemma foldl_Map_delete_filter m ids :
  foldl Map_delete m ids = filter (λ e, e.1 ∉ ids) m.
Proof.
  unfold Map. revert m. induction ids as [|id ids IH]; intros m; simpl.
  - induction m as [|e m IHm]; [done|].
    rewrite filter_cons_True by apply not_elem_of_nil. by f_equal.
  - rewrite IH, Map_delete_filter. unfold Map. rewrite list_filter_filter.
    apply list_filter_iff. intros e. rewrite not_elem_of_cons. naive_solver.
Qed.

Lemma apply_updates_keys m updates :
  Forall (λ u, u.1 ∈ m.*1) updates → (apply_updates m updates).*1 = m.*1.
Proof.
  revert m. induction updates as [|[id d] updates IH]; intros m Hall; [done|].
  apply Forall_cons in Hall as [Hid Hall]. simpl in *.
  unfold apply_updates in *. simpl. rewrite IH.
  - by apply Map_set_keys_present.
  - rewrite Map_set_keys_present by done. done.
Qed.

Lemma Map_get_apply_updates_other m updates id :
  id ∉ updates.*1 → Map_get (apply_updates m updates) id = Map_get m id.
Proof.
  revert m. induction updates as [|[id' d] updates IH]; intros m Hid; [done|].
  simpl in Hid. apply not_elem_of_cons in Hid as [Hne Hid].
  unfold apply_updates in *. simpl. rewrite IH by done. by apply Map_get_set_ne.
Qed.

Lemma Map_get_apply_updates m updates id d existingData :
  NoDup updates.*1 → (id, d) ∈ updates → Map_get m id = Some existingData →
  Map_get (apply_updates m updates) id = Some (spread existingData d).
Proof.
  revert m. induction updates as [|[id' d'] updates IH]; intros m Hnd Hin Hget.
  { by apply elem_of_nil in Hin. }
  simpl in Hnd. apply NoDup_cons in Hnd as [Hid' Hnd].
  unfold apply_updates in *. simpl.
  apply elem_of_cons in Hin as [[= <- <-]|Hin].
  - fold (apply_updates (Map_set m id (spread (default ∅ (Map_get m id)) d)) updates).
    rewrite Map_get_apply_updates_other by done. rewrite Map_get_set_eq. by rewrite Hget.
  - apply IH; [done..|]. rewrite Map_get_set_ne; [done|].
    intros ->. apply Hid'. apply list_elem_of_fmap. by exists (id, d).
Qed.

Section Changes.

Variable JSON_stringify : Map → string.

Lemma forEach_deleteMany_apply ids index s :
  forEach_from index deleteMany_apply ids s =
    (Ok (), (set_data (foldl Map_delete (data (this s)) ids) s).2).
Proof.
  revert index s. induction ids as [|id ids IH]; intros index s; simpl.
  - by destruct s as [[] ?].
  - unfold mbind at 1, M_bind at 1. unfold deleteMany_apply at 1.
    rewrite bind_get_data. cbn [set_data]. by rewrite IH.
Qed.

Lemma forEach_updateMany_apply updates index s :
  forEach_from index updateMany_apply updates s =
    (Ok (), (set_data (apply_updates (data (this s)) updates) s).2).
Proof.
  revert index s. induction updates as [|[id d] updates IH]; intros index s; simpl.
  - by destruct s as [[] ?].
  - unfold mbind at 1, M_bind at 1. unfold updateMany_apply at 1.
    rewrite bind_get_data. cbn [set_data]. by rewrite IH.
Qed.

Lemma forEach_updateMany_check_ok updates s :
  Forall (λ u, update_ok (collectionValidators (this s)) (data (this s)) u = true) updates →
  forEach updateMany_check updates s = (Ok (), s).
Proof.
  intros Hall. apply forEach_from_all_ok. intros j u Hj. apply updateMany_check_ok.
  rewrite Forall_forall in Hall. apply Hall. by eapply list_elem_of_lookup_2.
Qed.

Lemma deleteMany_check_present id index s :
  Map_has (data (this s)) id = true → deleteMany_check id index s = (Ok (), s).
Proof. intros H. unfold deleteMany_check. rewrite bind_get_data. by rewrite H. Qed.

Lemma forEach_deleteMany_check_ok ids s :
  Forall (λ id, Map_has (data (this s)) id = true) ids →
  forEach deleteMany_check ids s = (Ok (), s).
Proof.
  intros Hall. apply forEach_from_all_ok. intros j u Hj. apply deleteMany_check_present.
  rewrite Forall_forall in Hall. apply Hall. by eapply list_elem_of_lookup_2.
Qed.

(** X10.  [update] of a present identifier, when the merged record passes
    validation and the host accepts the write, returns; the record is then
    the old one with the fields of the partial record written over it,
    every other identifier has the record it had, and the identifiers and
    their order are unchanged. *)
Theorem update_merges (id : string) (d existingData : record) (s : State) :
  Map_get (data (this s)) id = Some existingData →
  passes (collectionValidators (this s)) (spread existingData d) = true →
  writable (this s)
    (JSON_stringify (Map_set (data (this s)) id (spread existingData d))) →
  ∃ s',
    update JSON_stringify id d s = (Ok (), s') ∧
    findById (this s') id = Ok (id, spread existingData d) ∧
    (∀ key, get_field (spread existingData d) key =
            match d !! key with
            | Some v => v
            | None => get_field existingData key
            end) ∧
    (∀ id', id' ≠ id → Map_get (data (this s')) id' = Map_get (data (this s)) id') ∧
    (data (this s')).*1 = (data (this s)).*1.
Proof.
  intros Hget Hp Hw. unfold update. rewrite bind_get_data, Hget. cbv zeta.
  unfold try_catch. unfold mbind at 1, M_bind at 1, read.
  rewrite (validate_passes _ _ Hp). rewrite bind_get_data.
  unfold mbind, M_bind. cbn [set_data].
  rewrite saveChanges_writable by exact Hw. cbn.
  eexists. split; [done|]. unfold findById. cbn. rewrite Map_get_set_eq.
  split; [done|]. split; [apply get_field_spread|]. split.
  - intros id' Hne. by apply Map_get_set_ne.
  - apply Map_set_keys_present. apply Map_get_is_Some. by rewrite Hget.
Qed.

(** X11.  [update] of an absent identifier throws DOCUMENT_NOT_FOUND, and
    [update] whose merged record fails validation throws VALIDATION_FAILED;
    in both cases the state is exactly as before. *)
Theorem update_rejected (id : string) (d : record) (s : State) :
  match Map_get (data (this s)) id with
  | None => True
  | Some existingData =>
      passes (collectionValidators (this s)) (spread existingData d) = false
  end →
  ∃ error,
    update JSON_stringify id d s = (Throw error, s) ∧
    type_of error =
      Some (match Map_get (data (this s)) id with
            | None => DOCUMENT_NOT_FOUND
            | Some _ => VALIDATION_FAILED
            end).
Proof.
  unfold update. rewrite bind_get_data.
  destruct (Map_get (data (this s)) id) as [existingData|]; [|by eexists].
  intros Hp. cbv zeta.
  destruct (validate_cases (this s) (spread existingData d))
    as [[? _]|(_ & error & Hv & Hi & Ht)]; [congruence|].
  exists error. unfold try_catch. unfold mbind at 1, M_bind at 1, read. rewrite Hv.
  unfold rethrow_or. by rewrite Hi.
Qed.

(** X12.  [delete] of a present identifier, when the host accepts the
    write, returns; [findById] of the identifier then throws
    DOCUMENT_NOT_FOUND, every other identifier has the record it had, the
    order of the others is unchanged, and a second [delete] of it throws
    DOCUMENT_NOT_FOUND and changes nothing. *)
Theorem delete_removes (id : string) (s : State) :
  Map_has (data (this s)) id = true →
  writable (this s) (JSON_stringify (Map_delete (data (this s)) id)) →
  ∃ s',
    delete JSON_stringify id s = (Ok (), s') ∧
    data (this s') = filter (λ e, e.1 ≠ id) (data (this s)) ∧
    findById (this s') id =
      Throw (DatabaseError DOCUMENT_NOT_FOUND "Document not found" [("id", DStr id)]) ∧
    (∀ id', id' ≠ id → findById (this s') id' = findById (this s) id') ∧
    delete JSON_stringify id s' =
      (Throw (DatabaseError DOCUMENT_NOT_FOUND "Document not found for deletion"
                [("id", DStr id)]), s').
Proof.
  intros Hhas Hw. unfold delete at 1. rewrite bind_get_data, Hhas. cbn [negb].
  unfold try_catch. rewrite bind_get_data. unfold mbind, M_bind. cbn [set_data].
  rewrite saveChanges_writable by exact Hw. cbn.
  eexists. split; [done|]. split; [apply Map_delete_filter|].
  unfold findById, delete. cbn. rewrite bind_get_data. cbn.
  assert (Map_has (Map_delete (data (this s)) id) id = false) as Hgone.
  { apply Map_has_false. rewrite Map_get_delete. by rewrite decide_True. }
  rewrite Hgone. rewrite Map_get_delete, decide_True by done.
  split; [done|]. split; [|done].
  intros id' Hne. rewrite Map_get_delete. by rewrite decide_False.
Qed.

(** X13.  [delete] of an absent identifier throws DOCUMENT_NOT_FOUND and
    changes nothing; [deleteMany] of identifiers of which one is absent
    throws DOCUMENT_NOT_FOUND for the first absent one, with its index, and
    the state is exactly as before: nothing is deleted. *)
Theorem delete_absent_rejected (s : State) :
  (∀ id, Map_has (data (this s)) id = false →
     delete JSON_stringify id s =
       (Throw (DatabaseError DOCUMENT_NOT_FOUND "Document not found for deletion"
                 [("id", DStr id)]), s)) ∧
  (∀ pre id post,
     Forall (λ id', Map_has (data (this s)) id' = true) pre →
     Map_has (data (this s)) id = false →
     deleteMany JSON_stringify (pre ++ id :: post) s =
       (Throw (DatabaseError DOCUMENT_NOT_FOUND
                 ("Document not found for deletion at index " +:+ pretty (length pre))
                 [("index", DNum (Z.of_nat (length pre))); ("id", DStr id)]), s)).
Proof.
  split.
  - intros id Hhas. unfold delete. rewrite bind_get_data. by rewrite Hhas.
  - intros pre id post Hpre Hid. unfold deleteMany. rewrite bind_get_data.
    unfold try_catch. unfold mbind at 1, M_bind at 1. unfold forEach.
    erewrite forEach_from_first_throw; cycle 1.
    + intros j x Hj. apply deleteMany_check_present. rewrite Forall_forall in Hpre.
      apply Hpre. by eapply list_elem_of_lookup_2.
    + unfold deleteMany_check. rewrite bind_get_data. rewrite Hid. reflexivity.
    + unfold mbind, M_bind. rewrite set_data_same. reflexivity.
Qed.

(** X14.  [deleteMany] of present identifiers, when the host accepts the
    write, returns; the map is then the old map without the pairs of these
    identifiers, the others in their order, and the host holds its
    serialization.  An identifier may occur twice in the list. *)
Theorem deleteMany_removes (ids : list string) (s : State) :
  Forall (λ id, Map_has (data (this s)) id = true) ids →
  writable (this s) (JSON_stringify (filter (λ e, e.1 ∉ ids) (data (this s)))) →
  ∃ s',
    deleteMany JSON_stringify ids s = (Ok (), s') ∧
    data (this s') = filter (λ e, e.1 ∉ ids) (data (this s)) ∧
    persisted (this s')
    = Some (JSON_stringify (filter (λ e, e.1 ∉ ids) (data (this s)))).
Proof.
  intros Hall Hw. unfold deleteMany. rewrite bind_get_data.
  unfold try_catch. unfold mbind at 1, M_bind at 1.
  rewrite forEach_deleteMany_check_ok by done.
  unfold mbind at 1, M_bind at 1. unfold forEach. rewrite forEach_deleteMany_apply.
  rewrite foldl_Map_delete_filter. cbn [set_data snd].
  rewrite saveChanges_writable by exact Hw. cbn.
  eexists. split; [done|]. split; [done|].
  unfold persisted, getDynamicProperty. cbn. by rewrite lookup_insert_eq.
Qed.

(** X15.  [updateMany] whose entries each name a present identifier and
    merge into a record that passes validation, when the host accepts the
    write, returns; the identifiers and their order are unchanged, an
    identifier that no entry names has the record it had, and when no
    identifier is named twice each named identifier has its old record with
    the fields of its partial record written over it. *)
Theorem updateMany_merges (updates : list (string * record)) (s : State) :
  Forall (λ u, update_ok (collectionValidators (this s)) (data (this s)) u = true)
         updates →
  writable (this s) (JSON_stringify (apply_updates (data (this s)) updates)) →
  ∃ s',
    updateMany JSON_stringify updates s = (Ok (), s') ∧
    (data (this s')).*1 = (data (this s)).*1 ∧
    (∀ id, id ∉ updates.*1 → Map_get (data (this s')) id = Map_get (data (this s)) id) ∧
    (NoDup updates.*1 →
     ∀ id d existingData,
       (id, d) ∈ updates → Map_get (data (this s)) id = Some existingData →
       Map_get (data (this s')) id = Some (spread existingData d)).
Proof.
  intros Hall Hw. unfold updateMany. rewrite bind_get_data.
  unfold try_catch. unfold mbind at 1, M_bind at 1.
  rewrite forEach_updateMany_check_ok by done.
  unfold mbind at 1, M_bind at 1. unfold forEach. rewrite forEach_updateMany_apply.
  cbn [set_data snd]. rewrite saveChanges_writable by exact Hw. cbn.
  eexists. split; [done|]. split; [|split].
  - apply apply_updates_keys. eapply Forall_impl; [exact Hall|].
    intros u Hu. unfold update_ok in Hu. apply Map_get_is_Some.
    by destruct (Map_get _ _).
  - intros id Hid. by apply Map_get_apply_updates_other.
  - intros Hnd id d existingData Hin Hget. by apply Map_get_apply_updates.
Qed.

(** X16.  When the host refuses the write at the end of [updateMany] or of
    [deleteMany], the call throws STORAGE_WRITE_ERROR with the message of
    the host, and the state is exactly as before the call: the changes made
    in memory are taken back. *)
Theorem batch_write_refused_restores (s : State) :
  (∀ updates message,
     Forall (λ u, update_ok (collectionValidators (this s)) (data (this s)) u = true)
            updates →
     write_error (storageType (this s)) (collectionName (this s))
       (JSON_stringify (apply_updates (data (this s)) updates)) = Some message →
     updateMany JSON_stringify updates s =
       (Throw (DatabaseError STORAGE_WRITE_ERROR "Failed to save changes to storage"
                 [("originalError", DStr message)]), s)) ∧
  (∀ ids message,
     Forall (λ id, Map_has (data (this s)) id = true) ids →
     write_error (storageType (this s)) (collectionName (this s))
       (JSON_stringify (filter (λ e, e.1 ∉ ids) (data (this s)))) = Some message →
     deleteMany JSON_stringify ids s =
       (Throw (DatabaseError STORAGE_WRITE_ERROR "Failed to save changes to storage"
                 [("originalError", DStr message)]), s)).
Proof.
  split.
  - intros updates message Hall Hw. unfold updateMany. rewrite bind_get_data.
    unfold try_catch. unfold mbind at 1, M_bind at 1.
    rewrite forEach_updateMany_check_ok by done.
    unfold mbind at 1, M_bind at 1. unfold forEach. rewrite forEach_updateMany_apply.
    cbn [set_data snd]. erewrite saveChanges_refused by exact Hw.
    unfold mbind, M_bind. cbn. by destruct s as [[] ?].
  - intros ids message Hall Hw. unfold deleteMany. rewrite bind_get_data.
    unfold try_catch. unfold mbind at 1, M_bind at 1.
    rewrite forEach_deleteMany_check_ok by done.
    unfold mbind at 1, M_bind at 1. unfold forEach. rewrite forEach_deleteMany_apply.
    rewrite foldl_Map_delete_filter.
    cbn [set_data snd]. erewrite saveChanges_refused by exact Hw.
    unfold mbind, M_bind. cbn. by destruct s as [[] ?].
Qed.

(** X17.  [update] and [delete], which take no snapshot, keep their change
    in memory when the host refuses the write: the call throws
    STORAGE_WRITE_ERROR, the map holds the merged record, or lacks the
    deleted one, and the host holds what it held. *)
Theorem single_write_refused_keeps_change (s : State) (message : string) :
  (∀ id d existingData,
     Map_get (data (this s)) id = Some existingData →
     passes (collectionValidators (this s)) (spread existingData d) = true →
     write_error (storageType (this s)) (collectionName (this s))
       (JSON_stringify (Map_set (data (this s)) id (spread existingData d)))
     = Some message →
     ∃ s',
       update JSON_stringify id d s =
         (Throw (DatabaseError STORAGE_WRITE_ERROR "Failed to save changes to storage"
                   [("originalError", DStr message)]), s') ∧
       data (this s') = Map_set (data (this s)) id (spread existingData d) ∧
       storageType (this s') = storageType (this s)) ∧
  (∀ id,
     Map_has (data (this s)) id = true →
     write_error (storageType (this s)) (collectionName (this s))
       (JSON_stringify (Map_delete (data (this s)) id)) = Some message →
     ∃ s',
       delete JSON_stringify id s =
         (Throw (DatabaseError STORAGE_WRITE_ERROR "Failed to save changes to storage"
                   [("originalError", DStr message)]), s') ∧
       data (this s') = Map_delete (data (this s)) id ∧
       storageType (this s') = storageType (this s)).
Proof.
  split.
  - intros id d existingData Hget Hp Hw. unfold update. rewrite bind_get_data, Hget.
    cbv zeta. unfold try_catch. unfold mbind at 1, M_bind at 1, read.
    rewrite (validate_passes _ _ Hp). rewrite bind_get_data.
    unfold mbind, M_bind. cbn [set_data].
    erewrite saveChanges_refused by exact Hw. by eexists.
  - intros id Hhas Hw. unfold delete. rewrite bind_get_data, Hhas. cbn [negb].
    unfold try_catch. rewrite bind_get_data. unfold mbind, M_bind. cbn [set_data].
    erewrite saveChanges_refused by exact Hw. by eexists.
Qed.

End Changes.

(** ** Importing, clearing, and the errors thrown *)

Lemma import_valid_eq this e :
  import_valid this e = passes (collectionValidators this) e.2.
Proof.
  destruct e as [id r]. unfold import_valid. simpl.
  by destruct (validate_cases this r) as [[-> ->]|(-> & error & -> & _)].
Qed.

Lemma length_filter_negb {A} (f : A → bool) l :
  (length (List.filter f l) + length (List.filter (λ x, negb (f x)) l) = length l)%nat.
Proof. induction l as [|x l IH]; simpl; [done|]. destruct (f x); simpl; lia. Qed.

Lemma length_filter_Exists {A} (f : A → bool) l :
  Exists (λ x, f x = false) l → (length (List.filter f l) < length l)%nat.
Proof.
  intros Hex. pose proof (length_filter_negb f l) as Hlen.
  enough (0 < length (List.filter (λ x, negb (f x)) l))%nat by lia.
  apply Exists_exists in Hex as (x & Hin & Hx).
  assert (x ∈ List.filter (λ x, negb (f x)) l) as Hx'.
  { apply list_elem_of_In, filter_In. split; [by apply list_elem_of_In|by rewrite Hx]. }
  destruct (List.filter (λ x, negb (f x)) l); [by apply elem_of_nil in Hx'|simpl; lia].
Qed.

Lemma rethrow_or_DatabaseError {A} wrap error s :
  (∀ e, instanceof_DatabaseError (wrap e) = true) →
  ∃ error', rethrow_or (A := A) wrap error s = (Throw error', s) ∧
            instanceof_DatabaseError error' = true.
Proof.
  intros Hwrap. unfold rethrow_or.
  destruct (instanceof_DatabaseError error) eqn:Hi; eexists; split; done.
Qed.

Lemma try_catch_DatabaseError {A} (body : M A) wrap s error :
  (∀ e, instanceof_DatabaseError (wrap e) = true) →
  (try_catch body (rethrow_or wrap) s).1 = Throw error →
  instanceof_DatabaseError error = true.
Proof.
  intros Hwrap. unfold try_catch. destruct (body s) as [[a|e] s1]; [done|].
  destruct (rethrow_or_DatabaseError (A := A) wrap e s1 Hwrap) as (e' & -> & He').
  by intros [= <-].
Qed.

Lemma rollback_DatabaseError {A} (body : M A) originalData wrap s error :
  (∀ e, instanceof_DatabaseError (wrap e) = true) →
  (try_catch body (λ error, set_data originalData ;; rethrow_or wrap error) s).1
  = Throw error →
  instanceof_DatabaseError error = true.
Proof.
  intros Hwrap. unfold try_catch. destruct (body s) as [[a|e] s1]; [done|].
  unfold mbind, M_bind. cbn [set_data].
  match goal with |- (rethrow_or _ _ ?s2).1 = _ → _ =>
    destruct (rethrow_or_DatabaseError (A := A) wrap e s2 Hwrap) as (e' & -> & He') end.
  by intros [= <-].
Qed.

Section Exchange.

Variable JSON_stringify : Map → string.
Variable JSON_parse : string → Result Map.
Variable Math_random : nat → nat.

(** X18.  [import] of text in which an entry fails validation throws
    VALIDATION_FAILED with the number of entries, of those that pass and of
    those that fail, and the state is exactly as before: the map is not
    cleared and nothing is written. *)
Theorem import_invalid_entry_rejected (text : string) (entries : Map) (s : State) :
  JSON_parse text = Ok entries →
  Exists (λ e, passes (collectionValidators (this s)) e.2 = false) entries →
  import JSON_stringify JSON_parse text s =
    (Throw (DatabaseError VALIDATION_FAILED
              "Some entries failed validation during import"
              [("totalEntries", DNum (Z.of_nat (length entries)));
               ("validEntries",
                DNum (Z.of_nat (length (List.filter
                  (λ e, passes (collectionValidators (this s)) e.2) entries))));
               ("invalidEntries",
                DNum (Z.of_nat (length (List.filter
                  (λ e, negb (passes (collectionValidators (this s)) e.2)) entries))))]),
     s).
Proof.
  intros Hparse Hex.
  unfold import, try_catch. unfold mbind at 1, M_bind at 1, lift. rewrite Hparse.
  unfold mbind at 1, M_bind at 1, read.
  rewrite (filter_ext _ _ (import_valid_eq (this s))).
  pose proof (length_filter_Exists _ _ Hex) as Hlt.
  pose proof (length_filter_negb
                (λ e : string * record, passes (collectionValidators (this s)) e.2)
                entries) as Hsum.
  apply Nat.lt_neq, Nat.eqb_neq in Hlt. rewrite Hlt. cbn [negb throw rethrow_or
    instanceof_DatabaseError].
  replace (Z.of_nat (length entries) - _)
    with (Z.of_nat (length (List.filter
            (λ e : string * record,
               negb (passes (collectionValidators (this s)) e.2)) entries))) by lia.
  done.
Qed.

(** X19.  Text that [JSON.parse] rejects reaches the caller as a wrapped
    error with the message of the parser: the constructor throws
    INITIALIZATION_ERROR when the host holds such text, and [import] of
    such text throws IMPORT_ERROR and leaves the state exactly as
    before. *)
Theorem syntax_errors_are_wrapped (text message : string) :
  JSON_parse text = Throw (Error message) →
  (∀ name storage validators,
     (1 ≤ String.length name ≤ 16)%nat →
     getDynamicProperty storage name = Some text →
     text ≠ "" →
     new_Database JSON_parse name storage validators =
       Throw (DatabaseError INITIALIZATION_ERROR "Failed to initialize database"
                [("originalError", DStr message)])) ∧
  (∀ s,
     import JSON_stringify JSON_parse text s =
       (Throw (DatabaseError IMPORT_ERROR "Failed to import data"
                 [("originalError", DStr message)]), s)).
Proof.
  intros Hparse. split.
  - intros name storage validators Hname Hget Hne. unfold new_Database.
    rewrite (name_in_bounds _ Hname).
    cbv zeta. unfold initialize, try_catch. unfold mbind at 1, M_bind at 1, read.
    cbn [this storageType collectionName]. rewrite Hget.
    rewrite bool_decide_eq_false_2 by done.
    unfold mbind at 1, M_bind at 1, lift. by rewrite Hparse.
  - intros s. unfold import, try_catch.
    unfold mbind at 1, M_bind at 1, lift. by rewrite Hparse.
Qed.

(** X20.  [import] of entries with distinct identifiers that all pass
    validation, when the host accepts the writes, returns, and the map is
    then exactly the entries, in their order: nothing of the map before
    the call remains. *)
Theorem import_replaces (text : string) (entries : Map) (s : State) :
  JSON_parse text = Ok entries →
  NoDup entries.*1 →
  Forall (λ e, passes (collectionValidators (this s)) e.2 = true) entries →
  writable (this s) (JSON_stringify []) →
  writable (this s) (JSON_stringify entries) →
  ∃ s',
    import JSON_stringify JSON_parse text s = (Ok (), s') ∧
    data (this s') = entries ∧
    (∀ id, findById (this s') id =
           match last_occurrence entries id with
           | Some r => Ok (id, r)
           | None => Throw (DatabaseError DOCUMENT_NOT_FOUND "Document not found"
                              [("id", DStr id)])
           end) ∧
    persisted (this s') = Some (JSON_stringify entries).
Proof.
  intros Hparse Hnd Hvalid Hw0 Hw1.
  destruct (import_succeeds JSON_stringify JSON_parse s text entries)
    as (s' & Hrun & Hdata & Hper); try done.
  { by rewrite Map_set_all_same. }
  rewrite Map_set_all_same in Hdata, Hper by done.
  exists s'. repeat split; try done.
  intros id. unfold findById. rewrite Hdata.
  rewrite <- (Map_set_all_same entries) at 1 by done.
  rewrite Map_get_set_all. by destruct (last_occurrence entries id).
Qed.

(** X21.  After [clear] the map in memory is empty whether the call
    returned or threw.  When the host accepts the write the call returns
    and the host holds the serialization of the empty map; when the host
    refuses it the call throws the STORAGE_WRITE_ERROR of [saveChanges]
    as it is, and the host holds what it held. *)
Theorem clear_empties (s : State) :
  data (this (clear JSON_stringify s).2) = [] ∧
  match write_error (storageType (this s)) (collectionName (this s))
          (JSON_stringify []) with
  | None =>
      (clear JSON_stringify s).1 = Ok () ∧
      persisted (this (clear JSON_stringify s).2) = Some (JSON_stringify [])
  | Some message =>
      (clear JSON_stringify s).1 =
        Throw (DatabaseError STORAGE_WRITE_ERROR "Failed to save changes to storage"
                 [("originalError", DStr message)]) ∧
      storageType (this (clear JSON_stringify s).2) = storageType (this s)
  end.
Proof.
  destruct (write_error _ _ _) as [message|] eqn:Hw.
  - unfold clear, try_catch. rewrite bind_get_data.
    unfold mbind, M_bind. cbn [set_data Map_clear].
    erewrite saveChanges_refused by exact Hw. done.
  - rewrite clear_writable by exact Hw. split; [done|]. split; [done|].
    unfold persisted, getDynamicProperty. cbn. by rewrite lookup_insert_eq.
Qed.

(** X22.  Whatever a mutating method throws is a [DatabaseError]: an error
    of the host, such as the [SyntaxError] of [JSON.parse] or a refused
    write, reaches the caller only wrapped. *)
Theorem thrown_errors_are_DatabaseErrors (op : operation) (s : State) (error : exn) :
  (call JSON_stringify JSON_parse Math_random op s).1 = Throw error →
  instanceof_DatabaseError error = true.
Proof.
  destruct op as [r|items|id d|updates|id|ids|text|]; cbn [call].
  - unfold mbind at 1, M_bind at 1.
    destruct (create _ _ _ s) as [[a|e] s1] eqn:Hrun; [done|].
    intros [= <-]. eapply (try_catch_DatabaseError _ _ s); [|unfold create in Hrun; by rewrite Hrun].
    done.
  - unfold mbind at 1, M_bind at 1.
    destruct (createMany _ _ _ s) as [[a|e] s1] eqn:Hrun; [done|].
    intros [= <-]. eapply (try_catch_DatabaseError _ _ s); [|unfold createMany in Hrun; by rewrite Hrun].
    done.
  - unfold update. rewrite bind_get_data.
    destruct (Map_get _ _); [|by intros [= <-]]. by apply try_catch_DatabaseError.
  - unfold updateMany. rewrite bind_get_data. by apply rollback_DatabaseError.
  - unfold delete. rewrite bind_get_data.
    destruct (negb _); [by intros [= <-]|]. by apply try_catch_DatabaseError.
  - unfold deleteMany. rewrite bind_get_data. by apply rollback_DatabaseError.
  - by apply try_catch_DatabaseError.
  - by apply try_catch_DatabaseError.
Qed.

End Exchange.

(** ** Searching *)

Lemma filter_throwing_Ok {A} (g : A → bool) (f : A → Result bool) l :
  (∀ x, x ∈ l → f x = Ok (g x)) → filter_throwing f l = Ok (List.filter g l).
Proof.
  induction l as [|x l IH]; intros Hf; simpl; [done|].
  rewrite (Hf x) by left. simpl. rewrite IH by (intros y Hy; apply Hf; by right).
  simpl. by destruct (g x).
Qed.

Lemma Array_some_Ok {A} (g : A → bool) l :
  Array_some (λ x, Ok (g x)) l = Ok (existsb g l).
Proof. induction l as [|x l IH]; simpl; [done|]. by destruct (g x). Qed.

Lemma List_filter_sublist {A} (g : A → bool) l : List.filter g l `sublist_of` l.
Proof.
  induction l as [|x l IH]; simpl; [done|].
  destruct (g x); [by apply sublist_skip|by apply sublist_cons].
Qed.

Lemma elem_of_List_filter {A} (g : A → bool) l x :
  x ∈ List.filter g l ↔ x ∈ l ∧ g x = true.
Proof. rewrite !list_elem_of_In. apply filter_In. Qed.

Lemma head_filter_first {A} (g : A → bool) pre x post :
  Forall (λ y, g y = false) pre → g x = true →
  head (List.filter g (pre ++ x :: post)) = Some x.
Proof.
  induction 1 as [|y pre Hy _ IH]; intros Hx; simpl.
  - by rewrite Hx.
  - rewrite Hy. by apply IH.
Qed.

Lemma filter_none {A} (g : A → bool) l :
  Forall (λ y, g y = false) l → List.filter g l = [].
Proof. induction 1 as [|y l Hy _ IH]; simpl; [done|]. by rewrite Hy. Qed.

(** The fields that [findLike] searches in a record. *)
Lemma findLike_filter this term fields :
  findLike this term fields =
    Ok (List.filter
          (λ e, existsb
                  (λ field, includes (toLowerCase (String_of (get_field e.2 field)))
                                     (toLowerCase term))
                  (match fields with
                   | Some fields => fields
                   | None => Object_keys e.2
                   end))
          (data this)).
Proof.
  unfold findLike. erewrite filter_throwing_Ok; [done|].
  intros [id r] _. cbv zeta. unfold findLike_field, try_pure. apply Array_some_Ok.
Qed.

Lemma includes_empty s : includes s "" = true.
Proof. by destruct s. Qed.

Lemma Object_keys_nil r : Object_keys r = [] ↔ r = ∅.
Proof.
  unfold Object_keys. split.
  - intros H%fmap_nil_inv. by apply map_to_list_empty_iff.
  - intros ->. by rewrite map_to_list_empty.
Qed.

Lemma elem_of_Object_keys r key : key ∈ Object_keys r ↔ is_Some (r !! key).
Proof.
  unfold Object_keys. rewrite list_elem_of_fmap. split.
  - intros ([k v] & -> & Hin%elem_of_map_to_list). by eexists.
  - intros [v Hv]. exists (key, v). split; [done|]. by apply elem_of_map_to_list.
Qed.

(** X23.  [findMany] returns, in the order of insertion, the pairs of the
    map whose record satisfies the predicate, all pairs when no predicate
    is given.  When the identifiers of the map are distinct, a pair is in
    the result exactly when [findById] of its identifier returns it and its
    record satisfies the predicate. *)
Theorem findMany_agrees_with_findById
    (this : Database) (predicate : option (record → bool)) :
  NoDup (data this).*1 →
  ∃ results,
    findMany this predicate = Ok results ∧
    results `sublist_of` data this ∧
    ∀ id r, (id, r) ∈ results ↔
            findById this id = Ok (id, r) ∧
            match predicate with Some predicate => predicate r = true | None => True end.
Proof.
  intros Hnd.
  assert (∀ id r, findById this id = Ok (id, r) ↔ (id, r) ∈ data this) as Hfind.
  { intros id r. rewrite <- (Map_get_Some _ _ _ Hnd). unfold findById.
    destruct (Map_get (data this) id); naive_solver. }
  destruct predicate as [predicate|]; simpl; eexists; (split; [done|]).
  - split; [apply List_filter_sublist|]. intros id r.
    by rewrite elem_of_List_filter, Hfind.
  - split; [done|]. intros id r. rewrite Hfind. naive_solver.
Qed.

(** X24.  [findOne] returns the first pair, in the order of insertion,
    whose record satisfies the predicate; when no record satisfies it, it
    throws DOCUMENT_NOT_FOUND, with no details. *)
Theorem findOne_first_match (this : Database) (predicate : record → bool) :
  (∀ pre id r post,
     data this = pre ++ (id, r) :: post →
     Forall (λ e, predicate e.2 = false) pre → predicate r = true →
     findOne this predicate = Ok (id, r)) ∧
  (Forall (λ e, predicate e.2 = false) (data this) →
   findOne this predicate =
     Throw (DatabaseError DOCUMENT_NOT_FOUND "No document found matching predicate" [])).
Proof.
  split.
  - intros pre id r post Hd Hpre Hr. unfold findOne, findMany. simpl. rewrite Hd.
    by rewrite (head_filter_first (λ e : string * record, predicate e.2) pre (id, r) post).
  - intros Hall. unfold findOne, findMany. simpl.
    by rewrite (filter_none (λ e : string * record, predicate e.2)).
Qed.

(** X25.  [findLike] never throws.  A pair of the map is in its result
    exactly when one of the searched fields, the given ones or else the
    fields of the record, holds a value whose string, in lower case,
    includes the term in lower case; the result keeps the order of
    insertion. *)
Theorem findLike_matches (this : Database) (term : string) (fields : option (list string)) :
  ∃ results,
    findLike this term fields = Ok results ∧
    results `sublist_of` data this ∧
    ∀ e, e ∈ results ↔
         e ∈ data this ∧
         ∃ field,
           match fields with
           | Some fields => field ∈ fields
           | None => is_Some (e.2 !! field)
           end ∧
           includes (toLowerCase (String_of (get_field e.2 field))) (toLowerCase term)
           = true.
Proof.
  rewrite findLike_filter. eexists. split; [done|].
  split; [apply List_filter_sublist|].
  intros e. rewrite elem_of_List_filter, existsb_exists.
  apply and_iff_compat_l. split.
  - intros (field & Hin%list_elem_of_In & Hinc). exists field. split; [|done].
    destruct fields; [done|]. by apply elem_of_Object_keys.
  - intros (field & Hin & Hinc). exists field. split; [|done].
    apply list_elem_of_In. destruct fields; [done|]. by apply elem_of_Object_keys.
Qed.

(** X26.  Edges of [findLike]: with the empty list of fields it finds
    nothing, whatever the term; with the empty term and no fields given it
    finds every record that has a field, and no record without fields; and
    a field that a record lacks is searched as the string of [undefined],
    so the term "Undefined" finds every record that lacks the given
    field. *)
Theorem findLike_edges (this : Database) :
  (∀ term, findLike this term (Some []) = Ok []) ∧
  findLike this "" None = Ok (List.filter (λ e, bool_decide (e.2 ≠ ∅)) (data this)) ∧
  (∀ field e, e ∈ data this → e.2 !! field = None →
     ∃ results, findLike this "Undefined" (Some [field]) = Ok results ∧ e ∈ results).
Proof.
  split; [|split].
  - intros term. rewrite findLike_filter. simpl. f_equal.
    induction (data this) as [|e l IH]; [done|]. done.
  - rewrite findLike_filter. f_equal. apply filter_ext. intros [id r]. simpl.
    destruct (decide (r = ∅)) as [->|Hne].
    + rewrite bool_decide_eq_false_2 by auto.
      by rewrite (proj2 (Object_keys_nil ∅) eq_refl).
    + rewrite bool_decide_eq_true_2 by done.
      destruct (Object_keys r) as [|key keys] eqn:Hkeys.
      { by apply Object_keys_nil in Hkeys. }
      simpl. by rewrite includes_empty.
  - intros field e He Hnone. rewrite findLike_filter. eexists. split; [done|].
    apply elem_of_List_filter. split; [done|]. simpl. unfold get_field.
    by rewrite Hnone.
Qed.

(** ** Querying *)

Lemma every_Ok {A} (g : A → bool) (f : A → Result bool) l :
  (∀ x, x ∈ l → f x = Ok (g x)) → every f l = Ok (forallb g l).
Proof.
  induction l as [|x l IH]; intros Hf; simpl; [done|].
  rewrite (Hf x) by left. simpl. destruct (g x); [|done].
  apply IH. intros y Hy. apply Hf. by right.
Qed.

Lemma every_true {A} (f : A → Result bool) l :
  every f l = Ok true → Forall (λ x, f x = Ok true) l.
Proof.
  induction l as [|x l IH]; simpl; [constructor|].
  destruct (f x) as [[]|] eqn:Hx; simpl; [|done..].
  intros H. constructor; [done|by apply IH].
Qed.

Lemma filter_throwing_sound {A} (f : A → Result bool) l results :
  filter_throwing f l = Ok results →
  results `sublist_of` l ∧ Forall (λ x, f x = Ok true) results.
Proof.
  revert results. induction l as [|x l IH]; intros results; simpl.
  - intros [= <-]. by split.
  - destruct (f x) as [b|] eqn:Hx; simpl; [|done].
    destruct (filter_throwing f l) as [rest|]; simpl; [|done].
    destruct (IH rest eq_refl) as [Hsub Hall].
    intros [= <-]. destruct b.
    + split; [by apply sublist_skip|by constructor].
    + split; [by apply sublist_cons|done].
Qed.

Lemma filter_throwing_first_throw {A} (f : A → Result bool) x l error :
  f x = Throw error → filter_throwing f (x :: l) = Throw error.
Proof. intros H. simpl. by rewrite H. Qed.

Lemma Array_sort_insert_Permutation {A} (comparefn : A → A → Z) x l :
  Array_sort_insert comparefn x l ≡ₚ x :: l.
Proof.
  induction l as [|y l IH]; simpl; [done|].
  destruct (comparefn x y <=? 0)%Z; [done|]. rewrite IH. apply Permutation_swap.
Qed.

Lemma Array_sort_Permutation {A} (comparefn : A → A → Z) l :
  Array_sort comparefn l ≡ₚ l.
Proof.
  induction l as [|x l IH]; simpl; [done|].
  rewrite Array_sort_insert_Permutation. by rewrite IH.
Qed.

(** A comparator that never asks for an exchange leaves the list as it is. *)
Lemma Array_sort_keeps {A} (comparefn : A → A → Z) l :
  (∀ x y, (comparefn x y <=? 0)%Z = true) → Array_sort comparefn l = l.
Proof.
  intros Hle. induction l as [|x l IH]; simpl; [done|]. rewrite IH.
  destruct l as [|y l']; simpl; [done|]. by rewrite Hle.
Qed.

(** Sorting by a comparator that agrees with the order of a key gives a
    list ordered by the key. *)
Lemma Array_sort_insert_sorted {A} (comparefn : A → A → Z) (key : A → Z) x l :
  (∀ y, y ∈ l → ((comparefn x y <=? 0)%Z = true ↔ (key x ≤ key y)%Z)) →
  StronglySorted (λ a b, (key a ≤ key b)%Z) l →
  StronglySorted (λ a b, (key a ≤ key b)%Z) (Array_sort_insert comparefn x l).
Proof.
  intros Hcmp Hsorted. induction Hsorted as [|y l Hl IH Hy]; simpl.
  - repeat constructor.
  - destruct (comparefn x y <=? 0)%Z eqn:Hxy.
    + apply (Hcmp y) in Hxy; [|left]. constructor; [by constructor|].
      constructor; [done|]. eapply Forall_impl; [exact Hy|]. simpl. intros; lia.
    + assert (key y < key x)%Z as Hlt.
      { destruct (Z.le_gt_cases (key x) (key y)) as [Hle|]; [|lia].
        apply (Hcmp y) in Hle; [congruence|left]. }
      constructor.
      * apply IH. intros z Hz. apply Hcmp. by right.
      * rewrite Array_sort_insert_Permutation. constructor; [lia|done].
Qed.

Lemma Array_sort_sorted {A} (comparefn : A → A → Z) (key : A → Z) l :
  (∀ x y, x ∈ l → y ∈ l → ((comparefn x y <=? 0)%Z = true ↔ (key x ≤ key y)%Z)) →
  StronglySorted (λ a b, (key a ≤ key b)%Z) (Array_sort comparefn l).
Proof.
  induction l as [|x l IH]; intros Hcmp; simpl; [constructor|].
  apply Array_sort_insert_sorted.
  - intros y Hy. apply Hcmp; [left|right]. by rewrite <- (Array_sort_Permutation comparefn l).
  - apply IH. intros y z Hy Hz. apply Hcmp; by right.
Qed.

Section Querying.

Variable StringToNumber : string → option Z.

Lemma evaluateCondition_known data condition :
  known_operator (operator condition) = true →
  evaluateCondition StringToNumber data condition =
    Ok (condition_holds StringToNumber data condition).
Proof.
  destruct condition as [f op v]. unfold known_operator, condition_holds. simpl.
  intros H%bool_decide_eq_true.
  repeat (apply elem_of_cons in H as [-> | H]; [reflexivity|]).
  by apply elem_of_nil in H.
Qed.

Lemma evaluateCondition_unknown data condition :
  known_operator (operator condition) = false →
  evaluateCondition StringToNumber data condition =
    Throw (DatabaseError INVALID_QUERY "Invalid operator in filter condition"
             [("operator", DStr (operator condition))]).
Proof.
  destruct condition as [f op v]. unfold known_operator. simpl.
  intros H%bool_decide_eq_false. unfold evaluateCondition. simpl.
  repeat (apply not_elem_of_cons in H as [Hne%String.eqb_neq H]; rewrite Hne; clear Hne).
  reflexivity.
Qed.

Lemma query_filter_known this conditions :
  Forall (λ c, known_operator (operator c) = true) conditions →
  filter_throwing
    (λ '(_, data), every (λ condition, evaluateCondition StringToNumber data condition)
                         conditions)
    (data this)
  = Ok (List.filter (λ e, forallb (condition_holds StringToNumber e.2) conditions)
                    (data this)).
Proof.
  intros Hknown. apply filter_throwing_Ok. intros [id r] _. simpl.
  apply every_Ok. intros c Hc. apply evaluateCondition_known.
  rewrite Forall_forall in Hknown. by apply Hknown.
Qed.

(** X27.  With conditions whose operators are among the nine known ones,
    [query] evaluates to this: the pairs of the map whose record satisfies
    every condition are taken in the order of insertion and, when a sort is
    given, rearranged; a negative limit then makes the query throw
    INVALID_QUERY, another limit keeps that many pairs from the front, and
    no limit keeps all. *)
Theorem query_returns_matching (this : Database) (conditions : list FilterCondition)
    (sort : option SortOptions) (limit : option Z) :
  Forall (λ c, known_operator (operator c) = true) conditions →
  ∃ sorted,
    sorted ≡ₚ List.filter (λ e, forallb (condition_holds StringToNumber e.2) conditions)
                          (data this) ∧
    (sort = None ∨ sort = Some [] →
     sorted = List.filter (λ e, forallb (condition_holds StringToNumber e.2) conditions)
                          (data this)) ∧
    query StringToNumber this conditions sort limit =
      match limit with
      | None => Ok sorted
      | Some n =>
          if (n <? 0)%Z then
            Throw (DatabaseError INVALID_QUERY "Limit must be a non-negative number"
                     [("limit", DNum n)])
          else Ok (take (Z.to_nat n) sorted)
      end.
Proof.
  intros Hknown. unfold query. rewrite (query_filter_known _ _ Hknown).
  set (matching := List.filter _ (data this)). cbn [mbind Result_bind].
  destruct sort as [sortEntries|].
  - exists (Array_sort (λ '(_, a) '(_, b), compare_rows StringToNumber sortEntries a b)
                     matching).
    split; [apply Array_sort_Permutation|]. split.
    + intros [?|[= ->]]; [done|]. apply Array_sort_keeps. by intros [] [].
    + destruct limit as [n|]; [|done]. by destruct (n <? 0)%Z.
  - exists matching. split; [done|]. split; [done|].
    destruct limit as [n|]; [|done]. by destruct (n <? 0)%Z.
Qed.

(** X28.  A condition with an operator outside the nine known ones makes
    [query] throw INVALID_QUERY, naming the operator, as soon as it is
    evaluated: always when it is the first condition and the map is not
    empty.  On the empty map no condition is evaluated, and the query
    returns the empty list whatever the operators. *)
Theorem query_unknown_operator (this : Database) (conditions : list FilterCondition)
    (sort : option SortOptions) (limit : option Z) :
  (∀ condition,
     known_operator (operator condition) = false → data this ≠ [] →
     query StringToNumber this (condition :: conditions) sort limit =
       Throw (DatabaseError INVALID_QUERY "Invalid operator in filter condition"
                [("operator", DStr (operator condition))])) ∧
  (data this = [] → query StringToNumber this conditions sort None = Ok []).
Proof.
  split.
  - intros condition Hop Hdata. unfold query.
    destruct (data this) as [|[id r] entries]; [done|].
    erewrite filter_throwing_first_throw; cycle 1.
    { cbn [every]. by rewrite (evaluateCondition_unknown _ _ Hop). }
    done.
  - intros Hdata. unfold query. rewrite Hdata. simpl. by destruct sort.
Qed.

(** X29.  When every record holds a number in a field, [query] sorted by
    that field alone returns the pairs ordered by that number: ascending
    for the direction "asc", descending for any other direction. *)
Theorem query_sorted_by_number (this : Database) (conditions : list FilterCondition)
    (field direction : string) (results : list (string * record)) :
  Forall (λ e, is_Some (number_of e.2 field)) (data this) →
  query StringToNumber this conditions (Some [(field, direction)]) None = Ok results →
  StronglySorted
    (λ a b, ∃ x y, number_of a.2 field = Some x ∧ number_of b.2 field = Some y ∧
                   if String.eqb direction "asc" then (x ≤ y)%Z else (y ≤ x)%Z)
    results.
Proof.
  intros Hnum. unfold query.
  destruct (filter_throwing _ (data this)) as [matching|error] eqn:Hfilter; simpl;
    [|by destruct (instanceof_DatabaseError error)].
  intros [= <-]. apply filter_throwing_sound in Hfilter as [Hsub _].
  assert (Forall (λ e, is_Some (number_of e.2 field)) matching) as Hm.
  { apply Forall_forall. intros e He. rewrite Forall_forall in Hnum.
    apply Hnum. by eapply elem_of_sublist. }
  clear Hsub Hnum.
  set (sign := if String.eqb direction "asc" then 1 else -1).
  set (key := λ e : string * record, sign * default 0 (number_of e.2 field)).
  match goal with |- context [Array_sort ?c matching] => set (comparefn := c) end.
  assert (StronglySorted (λ a b, (key a ≤ key b)%Z) (Array_sort comparefn matching)) as Hs.
  { apply Array_sort_sorted. intros [ia a] [ib b] Ha Hb.
    rewrite Forall_forall in Hm.
    destruct (Hm _ Ha) as [x Hx], (Hm _ Hb) as [y Hy].
    unfold key, comparefn, sign. simpl in *. rewrite Hx, Hy. simpl.
    unfold number_of in Hx, Hy.
    destruct (get_field a field) as [| | |x'|]; try done.
    destruct (get_field b field) as [| | |y'|]; try done.
    injection Hx as ->. injection Hy as ->.
    unfold strict_equal, js_lt, js_compare, ToNumber.
    destruct (decide (x = y)) as [->|Hne].
    - rewrite bool_decide_eq_true_2 by done. simpl. split; [lia|done].
    - rewrite bool_decide_eq_false_2 by congruence.
      destruct (Z.compare_spec x y) as [?|Hlt|Hgt]; [done|..];
        destruct (String.eqb direction "asc"); simpl; split; (done || lia). }
  assert (Forall (λ e, is_Some (number_of e.2 field)) (Array_sort comparefn matching))
    as Hm'.
  { by rewrite Array_sort_Permutation. }
  revert Hs Hm'. generalize (Array_sort comparefn matching). intros l Hs.
  induction Hs as [|a l Hl IH Ha]; intros Hm'; constructor.
  - apply IH. by eapply Forall_inv_tail.
  - apply Forall_cons in Hm' as [[x Hx] Htail].
    rewrite Forall_forall in Ha, Htail |- *. intros b Hb.
    destruct (Htail _ Hb) as [y Hy]. exists x, y. split; [done|]. split; [done|].
    specialize (Ha _ Hb). unfold key, sign in Ha. rewrite Hx, Hy in Ha. simpl in Ha.
    destruct (String.eqb direction "asc"); lia.
Qed.

(** X30.  Every pair that [query] returns is a pair of the map whose record
    satisfies every condition.  In particular a record that lacks the field
    of a condition with [>], [<], [>=] or [<=] is never returned, nor is
    any record when such a condition compares with [undefined]. *)
Theorem query_results_satisfy (this : Database) (conditions : list FilterCondition)
    (sort : option SortOptions) (limit : option Z) (results : list (string * record)) :
  query StringToNumber this conditions sort limit = Ok results →
  ∀ e, e ∈ results →
    e ∈ data this ∧
    ∀ condition, condition ∈ conditions →
      evaluateCondition StringToNumber e.2 condition = Ok true ∧
      (operator condition ∈ [">"; "<"; ">="; "<="] →
       get_field e.2 (field condition) ≠ VUndefined ∧ value condition ≠ VUndefined).
Proof.
  unfold query.
  destruct (filter_throwing _ (data this)) as [matching|error] eqn:Hfilter; simpl;
    [|by destruct (instanceof_DatabaseError error)].
  apply filter_throwing_sound in Hfilter as [Hsub Hall].
  intros Hres e He.
  assert (e ∈ matching) as Hm.
  { destruct sort as [sortEntries|], limit as [n|];
      try (destruct (n <? 0)%Z; [done|]); injection Hres as <-;
      try apply elem_of_take in He as (i & He & _);
      try apply list_elem_of_lookup_2 in He;
      by rewrite ?Array_sort_Permutation in He. }
  split; [by eapply elem_of_sublist|].
  rewrite Forall_forall in Hall. specialize (Hall e Hm). destruct e as [id r].
  apply every_true in Hall. rewrite Forall_forall in Hall.
  intros condition Hc. specialize (Hall condition Hc). split; [done|].
  simpl. intros Hop. destruct condition as [f op v]. simpl in *.
  unfold evaluateCondition in Hall. simpl in Hall.
  unfold js_gt, js_lt, js_ge, js_le, js_compare, ToNumber in Hall.
  repeat (apply elem_of_cons in Hop as [-> | Hop]);
    [| | | |by apply elem_of_nil in Hop];
    simpl in Hall; split; intros Hu; rewrite Hu in Hall;
    try done;
    destruct (get_field r f) as [| |[]| |x]; try done;
    by destruct (StringToNumber x).
Qed.

End Querying.

(** ** The further properties on concrete inputs *)


Lemma new_Database_name_out_of_bounds_witness :
  new_Database Runtime.JSON_parse "a-name-of-17-char" world None =
    Throw (DatabaseError INVALID_COLLECTION_NAME
             "Collection name must be between 1 and 16 characters"
             [("collectionName", DStr "a-name-of-17-char"); ("length", DNum 17)]).
Proof.
  apply (new_Database_name_out_of_bounds Runtime.JSON_parse "a-name-of-17-char"
           world None).
  right. simpl. lia.
Defined.

Lemma new_Database_nothing_stored_witness :
  new_Database Runtime.JSON_parse "users" world (Some validators) =
    Ok (this empty_store).
Proof.
  apply (new_Database_nothing_stored Runtime.JSON_parse "users" world (Some validators)).
  - simpl. lia.
  - left. reflexivity.
Defined.

Lemma new_Database_loads_witness :
  new_Database Runtime.JSON_parse "users" (storageType (this john_store))
    (Some validators) =
    Ok {| collectionName := "users"; storageType := storageType (this john_store);
          collectionValidators := Some validators;
          data := Map_set_all [] [(zeros, john)] |} ∧
  (NoDup [(zeros, john)].*1 → Map_set_all [] [(zeros, john)] = [(zeros, john)]).
Proof.
  apply (new_Database_loads Runtime.JSON_parse "users" (storageType (this john_store))
           (Some validators) (Runtime.JSON_stringify [(zeros, john)]) [(zeros, john)]).
  - simpl. lia.
  - reflexivity.
  - vm_compute. discriminate.
  - vm_compute. reflexivity.
  - repeat constructor.
Defined.

Lemma new_Database_restores_witness :
  new_Database Runtime.JSON_parse (collectionName (this john_store))
    (storageType (this john_store)) (collectionValidators (this john_store))
  = Ok (this john_store).
Proof.
  apply (new_Database_restores Runtime.JSON_stringify Runtime.JSON_parse
           (this john_store)).
  - simpl. lia.
  - split; [apply NoDup_singleton|repeat constructor].
  - reflexivity.
  - vm_compute. discriminate.
  - vm_compute. reflexivity.
Defined.

Lemma returned_call_is_persisted_witness :
  persisted (this (exec Runtime.JSON_stringify Runtime.JSON_parse counting
                     (Update zeros (age_record 31)) john_store))
  = Some (Runtime.JSON_stringify
            (data (this (exec Runtime.JSON_stringify Runtime.JSON_parse counting
                           (Update zeros (age_record 31)) john_store)))).
Proof.
  apply (returned_call_is_persisted Runtime.JSON_stringify Runtime.JSON_parse counting
           (Update zeros (age_record 31)) john_store).
  vm_compute. reflexivity.
Defined.

Lemma generateId_returns_fresh_hex_witness :
  String.length ones = 16%nat ∧
  Forall (λ c, is_hex c = true) (String.list_ascii_of_string ones) ∧
  Map_get (data (this john_store)) ones = None ∧
  this {| this := this john_store; random_calls := 32 |} = this john_store ∧
  ∃ k, (k < 100)%nat ∧
       random_calls {| this := this john_store; random_calls := 32 |}
       = (random_calls john_store + 16 * S k)%nat.
Proof.
  apply (generateId_returns_fresh_hex counting john_store
           {| this := this john_store; random_calls := 32 |} ones).
  vm_compute. reflexivity.
Defined.

Lemma create_identifiers_exhausted_witness :
  create Runtime.JSON_stringify stuck amy john_store =
    (Throw (DatabaseError DUPLICATE_KEY
              "Failed to generate unique ID after maximum attempts"
              [("attempts", DNum 100)]),
     {| this := this john_store; random_calls := random_calls john_store + 1600 |}).
Proof.
  apply (create_identifiers_exhausted Runtime.JSON_stringify stuck amy john_store).
  - vm_compute. reflexivity.
  - intros k _. vm_compute. reflexivity.
Defined.

Lemma create_returns_appended_witness :
  passes (collectionValidators (this john_store)) amy = true ∧
  Map_get (data (this john_store)) ones = None ∧
  data (this (create Runtime.JSON_stringify counting amy john_store).2)
  = data (this john_store) ++ [(ones, amy)] ∧
  persisted (this (create Runtime.JSON_stringify counting amy john_store).2)
  = Some (Runtime.JSON_stringify (data (this john_store) ++ [(ones, amy)])).
Proof.
  apply (create_returns_appended Runtime.JSON_stringify counting amy john_store
           (create Runtime.JSON_stringify counting amy john_store).2 ones).
  vm_compute. reflexivity.
Defined.

Lemma createMany_returns_appended_witness :
  Forall (λ r, passes (collectionValidators (this john_store)) r = true) [amy; john] ∧
  length [ones; "2222222222222222"] = length [amy; john] ∧
  NoDup [ones; "2222222222222222"] ∧
  (∀ id, id ∈ [ones; "2222222222222222"] →
         Map_get (data (this john_store)) id = None) ∧
  data (this (createMany Runtime.JSON_stringify counting [amy; john] john_store).2)
  = data (this john_store) ++ zip [ones; "2222222222222222"] [amy; john] ∧
  persisted (this (createMany Runtime.JSON_stringify counting [amy; john] john_store).2)
  = Some (Runtime.JSON_stringify
            (data (this john_store) ++ zip [ones; "2222222222222222"] [amy; john])).
Proof.
  apply (createMany_returns_appended Runtime.JSON_stringify counting [amy; john]
           john_store
           (createMany Runtime.JSON_stringify counting [amy; john] john_store).2
           [ones; "2222222222222222"]).
  vm_compute. reflexivity.
Defined.

Lemma update_merges_witness :
  ∃ s',
    update Runtime.JSON_stringify zeros (age_record 31) john_store = (Ok (), s') ∧
    findById (this s') zeros = Ok (zeros, spread john (age_record 31)) ∧
    (∀ key, get_field (spread john (age_record 31)) key =
            match age_record 31 !! key with
            | Some v => v
            | None => get_field john key
            end) ∧
    (∀ id', id' ≠ zeros →
            Map_get (data (this s')) id' = Map_get (data (this john_store)) id') ∧
    (data (this s')).*1 = (data (this john_store)).*1.
Proof.
  apply (update_merges Runtime.JSON_stringify zeros (age_record 31) john john_store).
  - reflexivity.
  - vm_compute. reflexivity.
  - reflexivity.
Defined.

Lemma update_rejected_witness :
  ∃ error,
    update Runtime.JSON_stringify zeros (age_record (-1)) john_store
    = (Throw error, john_store) ∧
    type_of error =
      Some (match Map_get (data (this john_store)) zeros with
            | None => DOCUMENT_NOT_FOUND
            | Some _ => VALIDATION_FAILED
            end).
Proof.
  apply (update_rejected Runtime.JSON_stringify zeros (age_record (-1)) john_store).
  vm_compute. reflexivity.
Defined.

Lemma delete_removes_witness :
  ∃ s',
    delete Runtime.JSON_stringify zeros john_store = (Ok (), s') ∧
    data (this s') = filter (λ e, e.1 ≠ zeros) (data (this john_store)) ∧
    findById (this s') zeros =
      Throw (DatabaseError DOCUMENT_NOT_FOUND "Document not found" [("id", DStr zeros)]) ∧
    (∀ id', id' ≠ zeros → findById (this s') id' = findById (this john_store) id') ∧
    delete Runtime.JSON_stringify zeros s' =
      (Throw (DatabaseError DOCUMENT_NOT_FOUND "Document not found for deletion"
                [("id", DStr zeros)]), s').
Proof.
  apply (delete_removes Runtime.JSON_stringify zeros john_store).
  - vm_compute. reflexivity.
  - reflexivity.
Defined.

Lemma delete_absent_rejected_witness :
  delete Runtime.JSON_stringify ones john_store =
    (Throw (DatabaseError DOCUMENT_NOT_FOUND "Document not found for deletion"
              [("id", DStr ones)]), john_store) ∧
  deleteMany Runtime.JSON_stringify [zeros; ones; zeros] john_store =
    (Throw (DatabaseError DOCUMENT_NOT_FOUND
              "Document not found for deletion at index 1"
              [("index", DNum 1); ("id", DStr ones)]), john_store).
Proof.
  destruct (delete_absent_rejected Runtime.JSON_stringify john_store) as [Hone Hmany].
  split.
  - apply Hone. vm_compute. reflexivity.
  - apply (Hmany [zeros] ones [zeros]).
    + repeat constructor.
    + vm_compute. reflexivity.
Defined.

Lemma deleteMany_removes_witness :
  ∃ s',
    deleteMany Runtime.JSON_stringify [zeros; zeros] john_store = (Ok (), s') ∧
    data (this s') = filter (λ e, e.1 ∉ [zeros; zeros]) (data (this john_store)) ∧
    persisted (this s')
    = Some (Runtime.JSON_stringify
              (filter (λ e, e.1 ∉ [zeros; zeros]) (data (this john_store)))).
Proof.
  apply (deleteMany_removes Runtime.JSON_stringify [zeros; zeros] john_store).
  - repeat constructor.
  - reflexivity.
Defined.

Lemma updateMany_merges_witness :
  ∃ s',
    updateMany Runtime.JSON_stringify [(zeros, age_record 31)] john_store = (Ok (), s') ∧
    (data (this s')).*1 = (data (this john_store)).*1 ∧
    (∀ id, id ∉ [(zeros, age_record 31)].*1 →
           Map_get (data (this s')) id = Map_get (data (this john_store)) id) ∧
    (NoDup [(zeros, age_record 31)].*1 →
     ∀ id d existingData,
       (id, d) ∈ [(zeros, age_record 31)] →
       Map_get (data (this john_store)) id = Some existingData →
       Map_get (data (this s')) id = Some (spread existingData d)).
Proof.
  apply (updateMany_merges Runtime.JSON_stringify [(zeros, age_record 31)] john_store).
  - constructor; [vm_compute; reflexivity|constructor].
  - reflexivity.
Defined.

Lemma batch_write_refused_restores_witness :
  updateMany Runtime.JSON_stringify [(zeros, age_record 31)] read_only_store =
    (Throw (DatabaseError STORAGE_WRITE_ERROR "Failed to save changes to storage"
              [("originalError", DStr "Dynamic properties are read-only")]),
     read_only_store) ∧
  deleteMany Runtime.JSON_stringify [zeros] read_only_store =
    (Throw (DatabaseError STORAGE_WRITE_ERROR "Failed to save changes to storage"
              [("originalError", DStr "Dynamic properties are read-only")]),
     read_only_store).
Proof.
  destruct (batch_write_refused_restores Runtime.JSON_stringify read_only_store)
    as [Hupdate Hdelete].
  split.
  - apply Hupdate; [|reflexivity]. constructor; [vm_compute; reflexivity|constructor].
  - apply Hdelete; [|reflexivity]. repeat constructor.
Defined.

Lemma single_write_refused_keeps_change_witness :
  (∃ s',
     update Runtime.JSON_stringify zeros (age_record 31) read_only_store =
       (Throw (DatabaseError STORAGE_WRITE_ERROR "Failed to save changes to storage"
                 [("originalError", DStr "Dynamic properties are read-only")]), s') ∧
     data (this s') = Map_set (data (this read_only_store)) zeros
                        (spread john (age_record 31)) ∧
     storageType (this s') = storageType (this read_only_store)) ∧
  (∃ s',
     delete Runtime.JSON_stringify zeros read_only_store =
       (Throw (DatabaseError STORAGE_WRITE_ERROR "Failed to save changes to storage"
                 [("originalError", DStr "Dynamic properties are read-only")]), s') ∧
     data (this s') = Map_delete (data (this read_only_store)) zeros ∧
     storageType (this s') = storageType (this read_only_store)).
Proof.
  destruct (single_write_refused_keeps_change Runtime.JSON_stringify read_only_store
              "Dynamic properties are read-only") as [Hupdate Hdelete].
  split.
  - apply Hupdate; [reflexivity|vm_compute; reflexivity|reflexivity].
  - apply Hdelete; [vm_compute; reflexivity|reflexivity].
Defined.

Lemma import_invalid_entry_rejected_witness :
  import Runtime.JSON_stringify Runtime.JSON_parse invalid_text john_store =
    (Throw (DatabaseError VALIDATION_FAILED
              "Some entries failed validation during import"
              [("totalEntries",
                DNum (Z.of_nat (length [(zeros, john); (ones, nobody)])));
               ("validEntries",
                DNum (Z.of_nat (length (List.filter
                  (λ e, passes (collectionValidators (this john_store)) e.2)
                  [(zeros, john); (ones, nobody)]))));
               ("invalidEntries",
                DNum (Z.of_nat (length (List.filter
                  (λ e, negb (passes (collectionValidators (this john_store)) e.2))
                  [(zeros, john); (ones, nobody)]))))]),
     john_store).
Proof.
  apply (import_invalid_entry_rejected Runtime.JSON_stringify Runtime.JSON_parse
           invalid_text [(zeros, john); (ones, nobody)] john_store).
  - vm_compute. reflexivity.
  - right. left. vm_compute. reflexivity.
Defined.

Lemma syntax_errors_are_wrapped_witness :
  new_Database Runtime.JSON_parse "users" (read_only "{") (Some validators) =
    Throw (DatabaseError INITIALIZATION_ERROR "Failed to initialize database"
             [("originalError", DStr "Unexpected token in JSON")]) ∧
  import Runtime.JSON_stringify Runtime.JSON_parse "{" john_store =
    (Throw (DatabaseError IMPORT_ERROR "Failed to import data"
              [("originalError", DStr "Unexpected token in JSON")]), john_store).
Proof.
  destruct (syntax_errors_are_wrapped Runtime.JSON_stringify Runtime.JSON_parse
              "{" "Unexpected token in JSON") as [Hnew Himport].
  - vm_compute. reflexivity.
  - split; [|apply Himport].
    apply Hnew; [simpl; lia|reflexivity|discriminate].
Defined.

Lemma import_replaces_witness :
  ∃ s',
    import Runtime.JSON_stringify Runtime.JSON_parse
      (Runtime.JSON_stringify [(ones, amy)]) john_store = (Ok (), s') ∧
    data (this s') = [(ones, amy)] ∧
    (∀ id, findById (this s') id =
           match last_occurrence [(ones, amy)] id with
           | Some r => Ok (id, r)
           | None => Throw (DatabaseError DOCUMENT_NOT_FOUND "Document not found"
                              [("id", DStr id)])
           end) ∧
    persisted (this s') = Some (Runtime.JSON_stringify [(ones, amy)]).
Proof.
  apply (import_replaces Runtime.JSON_stringify Runtime.JSON_parse
           (Runtime.JSON_stringify [(ones, amy)]) [(ones, amy)] john_store).
  - vm_compute. reflexivity.
  - apply NoDup_singleton.
  - repeat constructor.
  - reflexivity.
  - reflexivity.
Defined.

Lemma thrown_errors_are_DatabaseErrors_witness :
  instanceof_DatabaseError
    (DatabaseError IMPORT_ERROR "Failed to import data"
       [("originalError", DStr "Unexpected token in JSON")]) = true.
Proof.
  apply (thrown_errors_are_DatabaseErrors Runtime.JSON_stringify Runtime.JSON_parse
           counting (Import "{") john_store).
  vm_compute. reflexivity.
Defined.

Lemma findMany_agrees_with_findById_witness :
  ∃ results,
    findMany (this john_store) None = Ok results ∧
    results `sublist_of` data (this john_store) ∧
    ∀ id r, (id, r) ∈ results ↔ findById (this john_store) id = Ok (id, r) ∧ True.
Proof.
  apply (findMany_agrees_with_findById (this john_store) None).
  apply NoDup_singleton.
Defined.

Lemma findOne_first_match_witness :
  findOne (this (store world None [(zeros, john); (ones, amy); ("2", amy)]))
    (λ r, bool_decide (r !! "age" = Some (VNum 25)))
  = Ok (ones, amy) ∧
  findOne (this john_store) (λ r, bool_decide (r !! "age" = Some (VNum 25)))
  = Throw (DatabaseError DOCUMENT_NOT_FOUND "No document found matching predicate" []).
Proof.
  split.
  - apply (proj1 (findOne_first_match
                    (this (store world None [(zeros, john); (ones, amy); ("2", amy)]))
                    (λ r, bool_decide (r !! "age" = Some (VNum 25))))
             [(zeros, john)] ones amy [("2", amy)]).
    + reflexivity.
    + constructor; [vm_compute; reflexivity|constructor].
    + vm_compute. reflexivity.
  - apply (proj2 (findOne_first_match (this john_store)
                    (λ r, bool_decide (r !! "age" = Some (VNum 25))))).
    constructor; [vm_compute; reflexivity|constructor].
Defined.

Lemma findLike_edges_witness :
  ∃ results,
    findLike (this john_store) "Undefined" (Some ["nick"]) = Ok results ∧
    (zeros, john) ∈ results.
Proof.
  apply (proj2 (proj2 (findLike_edges (this john_store))) "nick" (zeros, john)).
  - left.
  - vm_compute. reflexivity.
Defined.

Lemma query_returns_matching_witness :
  ∃ sorted,
    sorted ≡ₚ List.filter
                (λ e, forallb (condition_holds Runtime.StringToNumber e.2)
                              [{| field := "age"; operator := ">"; value := VNum 18 |}])
                (data (this john_store)) ∧
    (Some [("age", "desc")] = None ∨ Some [("age", "desc")] = Some [] →
     sorted = List.filter
                (λ e, forallb (condition_holds Runtime.StringToNumber e.2)
                              [{| field := "age"; operator := ">"; value := VNum 18 |}])
                (data (this john_store))) ∧
    query Runtime.StringToNumber (this john_store)
      [{| field := "age"; operator := ">"; value := VNum 18 |}]
      (Some [("age", "desc")]) (Some 2)
    = if (2 <? 0)%Z then
        Throw (DatabaseError INVALID_QUERY "Limit must be a non-negative number"
                 [("limit", DNum 2)])
      else Ok (take (Z.to_nat 2) sorted).
Proof.
  apply (query_returns_matching Runtime.StringToNumber (this john_store)
           [{| field := "age"; operator := ">"; value := VNum 18 |}]
           (Some [("age", "desc")]) (Some 2)).
  constructor; [vm_compute; reflexivity|constructor].
Defined.

Lemma query_unknown_operator_witness :
  query Runtime.StringToNumber (this john_store)
    [{| field := "age"; operator := "=~"; value := VNum 18 |}] None None
  = Throw (DatabaseError INVALID_QUERY "Invalid operator in filter condition"
             [("operator", DStr "=~")]) ∧
  query Runtime.StringToNumber (this empty_store)
    [{| field := "age"; operator := "=~"; value := VNum 18 |}] None None
  = Ok [].
Proof.
  split.
  - apply (proj1 (query_unknown_operator Runtime.StringToNumber (this john_store)
                    [] None None)
             {| field := "age"; operator := "=~"; value := VNum 18 |}).
    + vm_compute. reflexivity.
    + discriminate.
  - apply (proj2 (query_unknown_operator Runtime.StringToNumber (this empty_store)
                    [{| field := "age"; operator := "=~"; value := VNum 18 |}]
                    None None)).
    reflexivity.
Defined.

Lemma query_sorted_by_number_witness :
  StronglySorted
    (λ a b, ∃ x y, number_of a.2 "age" = Some x ∧ number_of b.2 "age" = Some y ∧
                   if String.eqb "down" "asc" then (x ≤ y)%Z else (y ≤ x)%Z)
    [("c", age_record 30); ("b", age_record 20); ("a", age_record 17)].
Proof.
  apply (query_sorted_by_number Runtime.StringToNumber
           (this (store world None
                    [("a", age_record 17); ("b", age_record 20); ("c", age_record 30)]))
           [] "age" "down").
  - repeat constructor; by eexists.
  - vm_compute. reflexivity.
Defined.

Lemma query_results_satisfy_witness :
  (zeros, john) ∈ data (this john_store) ∧
  ∀ condition,
    condition ∈ [{| field := "age"; operator := ">"; value := VNum 18 |}] →
    evaluateCondition Runtime.StringToNumber (zeros, john).2 condition = Ok true ∧
    (operator condition ∈ [">"; "<"; ">="; "<="] →
     get_field (zeros, john).2 (field condition) ≠ VUndefined ∧
     value condition ≠ VUndefined).
Proof.
  apply (query_results_satisfy Runtime.StringToNumber (this john_store)
           [{| field := "age"; operator := ">"; value := VNum 18 |}] None None
           [(zeros, john)]).
  - vm_compute. reflexivity.
  - left.
Defined.
